(** * Tile streaming engine of the globe viewer (services/yandexMapService.ts)

    A shallow embedding of [tileToGeo] and of the [TileManager] class, and the
    properties of the scheduler that the design document states about them.

    Conventions of the embedding.
    - A JavaScript number that holds a tile index or a counter is a [Z].
    - A JavaScript number that holds a distance or a longitude in [update] is
      a rational [Q], with exact arithmetic.
    - [tileToGeo] is embedded twice.  [Float64.tileToGeo] computes in IEEE 754
      doubles: a double is the rational it denotes, and every operation
      rounds its exact result to the nearest double, ties to even.
      [Math.sinh] and [Math.atan], which ECMAScript leaves to the platform,
      are parameters of it.  [tileToGeo] is the same formulas over the real
      numbers [R]; up to zoom 46, hence at the zooms 2 and 3 of the class,
      both give the same longitude (lemma [centerLonDeg_formula]).
    - The class is single threaded.  A fetch that was started and has not
      completed is a pending promise; the embedding keeps the pending promises
      in the state ([inflight], [baseInflight]) and a completion is an event
      that picks one of them.  The reactions [then], [catch] and [finally] of
      one promise run in the same microtask checkpoint, so a completion is one
      atomic step. *)

From Stdlib Require Import ZArith QArith Qabs Qround Qminmax Qpower Reals Qreals Machin Lqa Lra Lia.
From Stdlib Require Import Sorting.Sorted Sorting.Permutation.
From stdpp Require Import base list strings.

Open Scope Z_scope.

(** ** Constants *)

Definition TILE_SIZE : Z := 256.
Definition MAX_CONCURRENT_REQUESTS : Z := 4.
Definition REQUEST_SIZE : Z := 450.
Definition CROP_OFFSET : Z := (REQUEST_SIZE - TILE_SIZE) / 2.

Definition targetZoom : Z := 3.
Definition baseZoom : Z := 2.
(** [numTilesX] is the field the constructor sets to [Math.pow(2, targetZoom)]. *)
Definition numTilesX : Z := 2 ^ targetZoom.

(** ** types.ts *)

Inductive MapType := MAP | SAT.

Record GeoCoordinate := { lat : R; lon : R }.

(** ** tileToGeo *)

Definition tileToGeo (x y z : Z) : GeoCoordinate :=
  let n := powerRZ 2 z in
  let centerX := (IZR x + 0.5)%R in
  let centerY := (IZR y + 0.5)%R in
  let centerLonDeg := ((centerX / n) * 360.0 - 180.0)%R in
  let centerLatRad := atan (sinh (PI * (1 - (2 * centerY) / n)))%R in
  let centerLatDeg := ((centerLatRad * 180.0) / PI)%R in
  {| lat := centerLatDeg; lon := centerLonDeg |}.

(** ** getYandexStaticUrl

    The URL is the provider's template
    [https://static-maps.yandex.ru/1.x/?ll=LON,LAT&z=Z&l=TYPE&size=450,450&lang=en_US].
    The embedding keeps the parts that vary instead of the printed text: the
    tile whose centre [tileToGeo] supplies for [LON,LAT], the zoom, the layer
    and the requested size. *)

Record StaticUrl := {
  url_tile : Z * Z;
  url_z : Z;
  url_l : MapType;
  url_size : Z * Z
}.

Definition getYandexStaticUrl (tile : Z * Z) (z : Z) (type : MapType) : StaticUrl :=
  {| url_tile := tile; url_z := z; url_l := type;
     url_size := (REQUEST_SIZE, REQUEST_SIZE) |}.

(** The coordinate printed after [ll=]. *)
Definition url_ll (u : StaticUrl) : GeoCoordinate :=
  tileToGeo (fst (url_tile u)) (snd (url_tile u)) (url_z u).

(** ** loadImage

    An [HTMLImageElement] is opaque to the class: it is only handed to
    [drawImage].  The promise of [loadImage] settles in one of two ways. *)

Definition Image := nat.

Inductive Outcome :=
| Resolved (img : Image)
| Rejected.

(** ** TileRequest *)

Module TileRequest.
Record t := mk { x : Z; y : Z; url : StaticUrl; dist : Q }.
(** The slot of the target grid a request is for. *)
Definition slot (r : t) : Z * Z := (x r, y r).
End TileRequest.

(** ** The canvas

    The 2D context is modelled by the calls made on it, oldest first. *)

Inductive CanvasOp :=
| FillRect (style : string) (rx ry rw rh : Z)
| DrawImage (img : Image) (sx sy sw sh dx dy dw dh : Z).

(** ** TileManager *)

Record TileManager := {
  canvas : list CanvasOp;
  mapType : MapType;
  tilesLoaded : list bool;
  activeRequests : Z;
  queue : list TileRequest.t;
  isDestroyed : bool;
  (** calls of the [onTextureUpdate] callback so far *)
  textureUpdates : nat;
  (** messages passed to [console.warn] so far, oldest first *)
  warnings : list string;
  (** pending promises of [processQueue], in dispatch order *)
  inflight : list TileRequest.t;
  (** pending promises of [loadBaseLayer]: the base tile [(x, y)] of each *)
  baseInflight : list (Z * Z)
}.

Definition set_canvas c (m : TileManager) :=
  {| canvas := c; mapType := mapType m; tilesLoaded := tilesLoaded m;
     activeRequests := activeRequests m; queue := queue m;
     isDestroyed := isDestroyed m; textureUpdates := textureUpdates m;
     warnings := warnings m; inflight := inflight m;
     baseInflight := baseInflight m |}.

Definition set_tilesLoaded l (m : TileManager) :=
  {| canvas := canvas m; mapType := mapType m; tilesLoaded := l;
     activeRequests := activeRequests m; queue := queue m;
     isDestroyed := isDestroyed m; textureUpdates := textureUpdates m;
     warnings := warnings m; inflight := inflight m;
     baseInflight := baseInflight m |}.

Definition set_activeRequests a (m : TileManager) :=
  {| canvas := canvas m; mapType := mapType m; tilesLoaded := tilesLoaded m;
     activeRequests := a; queue := queue m;
     isDestroyed := isDestroyed m; textureUpdates := textureUpdates m;
     warnings := warnings m; inflight := inflight m;
     baseInflight := baseInflight m |}.

Definition set_queue q (m : TileManager) :=
  {| canvas := canvas m; mapType := mapType m; tilesLoaded := tilesLoaded m;
     activeRequests := activeRequests m; queue := q;
     isDestroyed := isDestroyed m; textureUpdates := textureUpdates m;
     warnings := warnings m; inflight := inflight m;
     baseInflight := baseInflight m |}.

Definition set_isDestroyed b (m : TileManager) :=
  {| canvas := canvas m; mapType := mapType m; tilesLoaded := tilesLoaded m;
     activeRequests := activeRequests m; queue := queue m;
     isDestroyed := b; textureUpdates := textureUpdates m;
     warnings := warnings m; inflight := inflight m;
     baseInflight := baseInflight m |}.

Definition set_textureUpdates n (m : TileManager) :=
  {| canvas := canvas m; mapType := mapType m; tilesLoaded := tilesLoaded m;
     activeRequests := activeRequests m; queue := queue m;
     isDestroyed := isDestroyed m; textureUpdates := n;
     warnings := warnings m; inflight := inflight m;
     baseInflight := baseInflight m |}.

Definition set_warnings w (m : TileManager) :=
  {| canvas := canvas m; mapType := mapType m; tilesLoaded := tilesLoaded m;
     activeRequests := activeRequests m; queue := queue m;
     isDestroyed := isDestroyed m; textureUpdates := textureUpdates m;
     warnings := w; inflight := inflight m;
     baseInflight := baseInflight m |}.

Definition set_inflight f (m : TileManager) :=
  {| canvas := canvas m; mapType := mapType m; tilesLoaded := tilesLoaded m;
     activeRequests := activeRequests m; queue := queue m;
     isDestroyed := isDestroyed m; textureUpdates := textureUpdates m;
     warnings := warnings m; inflight := f;
     baseInflight := baseInflight m |}.

Definition set_baseInflight f (m : TileManager) :=
  {| canvas := canvas m; mapType := mapType m; tilesLoaded := tilesLoaded m;
     activeRequests := activeRequests m; queue := queue m;
     isDestroyed := isDestroyed m; textureUpdates := textureUpdates m;
     warnings := warnings m; inflight := inflight m;
     baseInflight := f |}.

(** *** Array primitives

    [a[i]] read as a condition: a missing element is [undefined], which is
    falsy. *)
Definition truthy_at (a : list bool) (i : Z) : bool :=
  if decide (0 <= i) then default false (a !! Z.to_nat i) else false.

(** [a[i] = v].  Inside the array this replaces the element.  Past the end
    JavaScript grows the array and leaves holes; a hole is falsy and is
    skipped by [filter(Boolean)], so it is kept here as [false].  (A negative
    index would create a property, not an element; the class never computes
    one and the array is left as it is.) *)
Definition array_set (a : list bool) (i : Z) (v : bool) : list bool :=
  if decide (0 <= i) then
    if decide (Z.to_nat i < length a)%nat then <[Z.to_nat i := v]> a
    else a ++ replicate (Z.to_nat i - length a) false ++ [v]
  else a.

(** *** constructor *)

Definition new_TileManager (type : MapType) : TileManager :=
  let size := numTilesX * TILE_SIZE in
  {| canvas := [FillRect "#001e3f" 0 0 size size];
     mapType := type;
     tilesLoaded := replicate (Z.to_nat (numTilesX * numTilesX)) false;
     activeRequests := 0;
     queue := [];
     isDestroyed := false;
     textureUpdates := 0;
     warnings := [];
     inflight := [];
     baseInflight := [] |}.

(** *** update *)

Definition Qltb (a b : Q) : bool := negb (Qle_bool b a).

(** Step 1 of [update]: the fractional tile column facing the camera. *)
Definition centerXOf (currentLonDeg : Q) : Q :=
  let normalizedLon := ((currentLonDeg + 180) / 360)%Q in
  let normalizedLon := (normalizedLon - inject_Z (Qfloor normalizedLon))%Q in
  (normalizedLon * inject_Z numTilesX)%Q.

(** [this.queue.some(item => item.x === x && item.y === y)] *)
Definition inQueue (q : list TileRequest.t) (x y : Z) : bool :=
  existsb (fun item => (TileRequest.x item =? x) && (TileRequest.y item =? y)) q.

Definition distBoxX (centerX : Q) (x : Z) : Q :=
  let d := Qabs (inject_Z x - centerX) in
  if Qltb (inject_Z numTilesX / 2) d then (inject_Z numTilesX - d)%Q else d.

Definition distBoxY (y : Z) : Q :=
  Qabs (inject_Z y - (inject_Z numTilesX / 2) - 0.5).

Definition distOf (centerX : Q) (x y : Z) : Q :=
  (distBoxX centerX x + (distBoxY y * 0.5))%Q.

(** The test that guards [this.queue.push]. *)
Definition closeToView (dBoxX : Q) : bool :=
  Qltb dBoxX ((inject_Z numTilesX / 2) + 1).

(** The body of the inner loop of step 2, for the slot [(x, y)]. *)
Definition visit (type : MapType) (loaded : list bool) (centerX : Q)
    (q : list TileRequest.t) (y x : Z) : list TileRequest.t :=
  let index := y * numTilesX + x in
  if truthy_at loaded index then q
  else if inQueue q x y then q
  else
    if closeToView (distBoxX centerX x) then
      q ++ [TileRequest.mk x y (getYandexStaticUrl (x, y) targetZoom type)
              (distOf centerX x y)]
    else q.

(** The values taken by a loop counter [for (let i = 0; i < n; i++)]. *)
Definition counter (n : Z) : list Z := seqZ 0 n.

(** Step 2 of [update]: both loops, rows outside and columns inside. *)
Definition enqueueMissing (type : MapType) (loaded : list bool) (centerX : Q)
    (q : list TileRequest.t) : list TileRequest.t :=
  foldl (fun q y => foldl (fun q x => visit type loaded centerX q y x)
                      q (counter numTilesX))
    q (counter numTilesX).

(** The comparator [(a, b) => a.dist - b.dist]. *)
Definition byDist (a b : TileRequest.t) : Q :=
  (TileRequest.dist a - TileRequest.dist b)%Q.

(** [Array.prototype.sort] is stable (ECMAScript 2019): with a consistent
    comparator its result is the one stable ordering, whatever algorithm the
    engine runs.  [a] is placed after [b] exactly when [cmp a b > 0]. *)
Fixpoint sort_insert {A} (cmp : A -> A -> Q) (a : A) (l : list A) : list A :=
  match l with
  | [] => [a]
  | b :: l' => if Qltb 0 (cmp a b) then b :: sort_insert cmp a l' else a :: l
  end.

Definition array_sort {A} (cmp : A -> A -> Q) (l : list A) : list A :=
  foldr (sort_insert cmp) [] l.

(** *** processQueue

    The [while] loop: one iteration shifts one task, so the loop is a
    recursion on the queue.  It returns the counter, what is left of the queue
    and the promises it created. *)
Fixpoint dispatchLoop (active : Z) (q : list TileRequest.t)
    (started : list TileRequest.t) : Z * list TileRequest.t * list TileRequest.t :=
  match q with
  | [] => (active, [], started)
  | task :: rest =>
      if active <? MAX_CONCURRENT_REQUESTS
      then dispatchLoop (active + 1) rest (started ++ [task])
      else (active, q, started)
  end.

Definition processQueue (m : TileManager) : TileManager :=
  if isDestroyed m then m
  else
    let '(a, q, started) := dispatchLoop (activeRequests m) (queue m) [] in
    set_inflight (inflight m ++ started) (set_queue q (set_activeRequests a m)).

Definition update (currentLonDeg : Q) (m : TileManager) : TileManager :=
  if isDestroyed m then m
  else
    let centerX := centerXOf currentLonDeg in
    let q := enqueueMissing (mapType m) (tilesLoaded m) centerX (queue m) in
    let q := array_sort byDist q in
    processQueue (set_queue q m).

(** The reactions of one promise of [processQueue]: [then] or [catch]
    according to the outcome, and [finally] after either. *)
Definition onThen (task : TileRequest.t) (img : Image) (m : TileManager) : TileManager :=
  if isDestroyed m then m
  else
    let m := set_canvas (canvas m ++
               [DrawImage img CROP_OFFSET CROP_OFFSET TILE_SIZE TILE_SIZE
                  (TileRequest.x task * TILE_SIZE) (TileRequest.y task * TILE_SIZE)
                  TILE_SIZE TILE_SIZE]) m in
    let index := TileRequest.y task * numTilesX + TileRequest.x task in
    let m := set_tilesLoaded (array_set (tilesLoaded m) index true) m in
    set_textureUpdates (S (textureUpdates m)) m.

Definition onCatch (m : TileManager) : TileManager :=
  set_warnings (warnings m ++ ["Tile load failed"]) m.

Definition onFinally (m : TileManager) : TileManager :=
  processQueue (set_activeRequests (activeRequests m - 1) m).

(** The [i]-th pending promise settles. *)
Definition settle (i : nat) (o : Outcome) (m : TileManager) : option TileManager :=
  match inflight m !! i with
  | None => None
  | Some task =>
      let m := set_inflight (delete i (inflight m)) m in
      let m := match o with
               | Resolved img => onThen task img m
               | Rejected => onCatch m
               end in
      Some (onFinally m)
  end.

(** *** destroy *)

Definition destroy (m : TileManager) : TileManager :=
  set_queue [] (set_isDestroyed true m).

(** *** getProgress *)

Definition getProgress (m : TileManager) : Z :=
  let loaded := Z.of_nat (length (List.filter (fun b : bool => b) (tilesLoaded m))) in
  let total := Z.of_nat (length (tilesLoaded m)) in
  Qfloor ((inject_Z loaded / inject_Z total) * 100).

(** *** loadBaseLayer

    The call creates one promise per base tile, columns outside and rows
    inside; nothing else happens until they settle. *)
Definition loadBaseLayer (m : TileManager) : TileManager :=
  let n := 2 ^ baseZoom in
  let promises :=
    foldl (fun ps x => foldl (fun ps y => ps ++ [(x, y)]) ps (counter n))
      [] (counter n) in
  set_baseInflight (baseInflight m ++ promises) m.

Definition onBaseThen (x y : Z) (img : Image) (m : TileManager) : TileManager :=
  let scale := 2 ^ (targetZoom - baseZoom) in
  let drawSize := TILE_SIZE * scale in
  if isDestroyed m then m
  else
    let m := set_canvas (canvas m ++
               [DrawImage img CROP_OFFSET CROP_OFFSET TILE_SIZE TILE_SIZE
                  (x * drawSize) (y * drawSize) drawSize drawSize]) m in
    set_textureUpdates (S (textureUpdates m)) m.

Definition onBaseCatch (m : TileManager) : TileManager :=
  set_warnings (warnings m ++ ["Base tile failed"]) m.

Definition settleBase (i : nat) (o : Outcome) (m : TileManager) : option TileManager :=
  match baseInflight m !! i with
  | None => None
  | Some (x, y) =>
      let m := set_baseInflight (delete i (baseInflight m)) m in
      Some (match o with
            | Resolved img => onBaseThen x y img m
            | Rejected => onBaseCatch m
            end)
  end.

(** ** Executions

    What can happen to a manager: a method is called, or a pending promise
    settles.  An event that names a promise that does not exist cannot
    happen. *)

Inductive Event :=
| Update (currentLonDeg : Q)
| Settle (i : nat) (o : Outcome)
| Destroy
| LoadBaseLayer
| SettleBase (i : nat) (o : Outcome).

Definition step (e : Event) (m : TileManager) : option TileManager :=
  match e with
  | Update l => Some (update l m)
  | Settle i o => settle i o m
  | Destroy => Some (destroy m)
  | LoadBaseLayer => Some (loadBaseLayer m)
  | SettleBase i o => settleBase i o m
  end.

Fixpoint run (es : list Event) (m : TileManager) : option TileManager :=
  match es with
  | [] => Some m
  | e :: es' => match step e m with
                | Some m' => run es' m'
                | None => None
                end
  end.

(** A state some execution of a new manager reaches. *)
Definition reachable (m : TileManager) : Prop :=
  exists type es, run es (new_TileManager type) = Some m.

(** ** The load state of a slot, as the design document names it

    The class keeps no such value.  A slot is [Loaded] when its flag in
    [tilesLoaded] is set; otherwise it is [Queued] while a promise for it is
    pending, and [NotLoaded] when none is. *)

Inductive TileLoadState := NotLoaded | Queued | Loaded.

Definition slotIndex (x y : Z) : Z := y * numTilesX + x.

Definition pendingFor (x y : Z) (l : list TileRequest.t) : bool :=
  existsb (fun t => (TileRequest.x t =? x) && (TileRequest.y t =? y)) l.

Definition loadState (m : TileManager) (x y : Z) : TileLoadState :=
  if truthy_at (tilesLoaded m) (slotIndex x y) then Loaded
  else if pendingFor x y (inflight m) then Queued
  else NotLoaded.

Definition inGrid (s : Z * Z) : Prop :=
  0 <= s.1 < numTilesX /\ 0 <= s.2 < numTilesX.

(** ** Well-formed states *)

Record wf (m : TileManager) : Prop := {
  wf_length : length (tilesLoaded m) = Z.to_nat (numTilesX * numTilesX);
  wf_active : activeRequests m = Z.of_nat (length (inflight m));
  wf_bound : activeRequests m <= MAX_CONCURRENT_REQUESTS;
  wf_queue_grid : Forall (fun t => inGrid (TileRequest.slot t)) (queue m);
  wf_inflight_grid : Forall (fun t => inGrid (TileRequest.slot t)) (inflight m);
  wf_queue_nodup : NoDup (TileRequest.slot <$> queue m)
}.

(** *** The sort *)

Definition ascending (l : list TileRequest.t) : Prop :=
  StronglySorted (fun a b => (TileRequest.dist a <= TileRequest.dist b)%Q) l.

(** The requests of [l] whose priority is [p], in the order of [l]. *)
Definition withDist (p : Q) (l : list TileRequest.t) : list TileRequest.t :=
  List.filter (fun t => Qeq_bool (TileRequest.dist t) p) l.

(** *** The scan of step 2 *)

(** The request [update] builds for the slot [(x, y)]. *)
Definition requestFor (type : MapType) (centerX : Q) (x y : Z) : TileRequest.t :=
  TileRequest.mk x y (getYandexStaticUrl (x, y) targetZoom type) (distOf centerX x y).

(** The slots in the order the two loops visit them, as [(y, x)]. *)
Definition scanOrder : list (Z * Z) :=
  y ← counter numTilesX; x ← counter numTilesX; [(y, x)].

(** What the scan adds to a queue. *)
Definition addedBy (type : MapType) (loaded : list bool) (c : Q)
    (ps : list (Z * Z)) (q : list TileRequest.t) (r : TileRequest.t) : Prop :=
  (TileRequest.y r, TileRequest.x r) ∈ ps /\
  r = requestFor type c (TileRequest.x r) (TileRequest.y r) /\
  truthy_at loaded (slotIndex (TileRequest.x r) (TileRequest.y r)) = false /\
  closeToView (distBoxX c (TileRequest.x r)) = true /\
  TileRequest.slot r ∉ TileRequest.slot <$> q.

(** *** The flags *)

Definition loadedCount (a : list bool) : nat :=
  length (List.filter (fun b : bool => b) a).

(** *** The queue [update] hands to [processQueue] *)

(** The queue after steps 2 and 3 of [update], before any dispatch. *)
Definition pendingQueue (l : Q) (m : TileManager) : list TileRequest.t :=
  array_sort byDist
    (enqueueMissing (mapType m) (tilesLoaded m) (centerXOf l) (queue m)).

(** *** Where a request comes from

    Every request that exists was built by the scan of some [update], for the
    viewpoint of that call, and passed its guard. *)

Definition madeBy (type : MapType) (r : TileRequest.t) : Prop :=
  exists l,
    r = requestFor type (centerXOf l) (TileRequest.x r) (TileRequest.y r) /\
    closeToView (distBoxX (centerXOf l) (TileRequest.x r)) = true.

Definition provenance (m : TileManager) : Prop :=
  Forall (madeBy (mapType m)) (queue m) /\ Forall (madeBy (mapType m)) (inflight m).

(** *** The flags only grow *)

Definition flagsGrow (a a' : list bool) : Prop :=
  length a' = length a /\
  (forall i, truthy_at a i = true -> truthy_at a' i = true) /\
  (loadedCount a <= loadedCount a')%nat.

(** *** The base layer *)

Definition isBaseEvent (e : Event) : bool :=
  match e with
  | LoadBaseLayer | SettleBase _ _ => true
  | _ => false
  end.

(** *** The priority, as the design document writes it *)

Definition specPriority (centerX : Q) (x y : Z) : Q :=
  (Qmin (Qabs (inject_Z x - centerX))
        (inject_Z numTilesX - Qabs (inject_Z x - centerX))
   + 0.5 * Qabs (inject_Z y - inject_Z numTilesX / 2 - 0.5))%Q.

(** The place of the request for slot [(x, y)] in a queue. *)
Fixpoint indexOf (x y : Z) (q : list TileRequest.t) : option nat :=
  match q with
  | [] => None
  | r :: q' =>
      if (TileRequest.x r =? x) && (TileRequest.y r =? y) then Some 0%nat
      else S <$> indexOf x y q'
  end.

(** [(x1, y)] is dispatched before [(x2, y)]. *)
Definition sortsBefore (q : list TileRequest.t) (y x1 x2 : Z) : bool :=
  match indexOf x1 y q, indexOf x2 y q with
  | Some i, Some j => (i <? j)%nat
  | _, _ => false
  end.

(** A queue in ascending order of the priority its slots have for the centre
    column [centerX]. *)
Definition sortedByViewpoint (centerX : Q) (q : list TileRequest.t) : Prop :=
  StronglySorted (fun a b =>
    (specPriority centerX (TileRequest.x a) (TileRequest.y a) <=
     specPriority centerX (TileRequest.x b) (TileRequest.y b))%Q) q.

(** *** The queue after [update], as the design document describes it

    [queueRebuilt l m'] reads the sentence for the state [m'] that a call
    [update(l)] returned: one entry per slot at most, an entry exactly for the
    admitted slots that are neither loaded nor in flight, and every entry
    with the priority of the viewpoint [l]. *)
Definition queueRebuilt (l : Q) (m' : TileManager) : Prop :=
  NoDup (TileRequest.slot <$> queue m') /\
  (forall x y,
     (x, y) ∈ TileRequest.slot <$> queue m' <->
     inGrid (x, y) /\
     closeToView (distBoxX (centerXOf l) x) = true /\
     truthy_at (tilesLoaded m') (slotIndex x y) = false /\
     pendingFor x y (inflight m') = false) /\
  (forall r, r ∈ queue m' ->
     (TileRequest.dist r ==
      distOf (centerXOf l) (TileRequest.x r) (TileRequest.y r))%Q).

(** *** Dispatch of a slot that is already in flight

    [dispatchedQueued m i o] holds when the completion [Settle i o] in state
    [m] hands to the fetcher a slot that is [Queued] at that moment because an
    earlier fetch of it, other than the completing one, is still pending. *)
Definition dispatchedQueued (m : TileManager) (i : nat) (o : Outcome) : Prop :=
  exists m' now x y,
    settle i o m = Some m' /\
    inflight m' = delete i (inflight m) ++ now /\
    (x, y) ∈ (TileRequest.slot <$> now) /\
    (x, y) ∈ (TileRequest.slot <$> delete i (inflight m)) /\
    loadState m x y = Queued.

(** ** The geographic formulas over the reals *)

(** Upper bounds of [exp] by repeated squaring, in fixed point with twelve
    decimals, every square rounded up. *)
Definition fixScale : Z := 10 ^ 12.
Definition squareUp (a : Z) : Z := (a * a + fixScale - 1) / fixScale.
Fixpoint squareUpTimes (k : nat) (a : Z) : Z :=
  match k with
  | O => a
  | S k' => squareUpTimes k' (squareUp a)
  end.

(** ** [tileToGeo] in double precision

    A finite double is a rational [M * 2^E] with [|M| < 2^53] and
    [-1074 <= E <= 971].  An arithmetic operation of JavaScript returns the
    double nearest to the exact result, and of two nearest doubles the one
    with the even significand.  Results stay far below [2^1024] here, so the
    upper limit of the exponent and overflow to [Infinity] are left out. *)

Module Float64.

(** The binary exponent of a number other than zero: [2^e <= |q| < 2^(e+1)]. *)
Definition binade (q : Q) : Z :=
  let e0 := Z.log2 (Z.abs (Qnum q)) - Z.log2 (Zpos (Qden q)) in
  if Qle_bool (2 ^ e0) (Qabs q) then e0 else e0 - 1.

(** The nearest integer, the even one of two. *)
Definition roundHalfEven (q : Q) : Z :=
  let f := Qfloor q in
  let r := (q - inject_Z f)%Q in
  if Qltb r (1 # 2) then f
  else if Qltb (1 # 2) r then f + 1
  else if Z.even f then f else f + 1.

(** The nearest double: the doubles around [q] are the multiples of [2^e],
    where 53 bits reach down from the leading bit of [q], or down to the
    least exponent -1074 for a subnormal. *)
Definition round64 (q : Q) : Q :=
  let e := Z.max (binade q - 52) (-1074) in
  (inject_Z (roundHalfEven (q / 2 ^ e)) * 2 ^ e)%Q.

(** The doubles, without the upper limit of the exponent. *)
Definition representable (c : Q) : Prop :=
  exists M E, -1074 <= E /\ Z.abs M < 2 ^ 53 /\ (c == inject_Z M * 2 ^ E)%Q.

(** [+], [-], [*] and [/] on numbers. *)
Definition add (a b : Q) : Q := round64 (a + b).
Definition sub (a b : Q) : Q := round64 (a - b).
Definition mul (a b : Q) : Q := round64 (a * b).
Definition div (a b : Q) : Q := round64 (a / b).

(** [Math.PI], the double nearest to pi: 3.141592653589793. *)
Definition Math_PI : Q := 884279719003555 # 281474976710656.

(** [Math.pow(2, z)] for an integer [z] of magnitude below 1023: the power
    of two, which is a double. *)
Definition Math_pow2 (z : Z) : Q := 2 ^ z.

Record GeoCoordinate := { lat : Q; lon : Q }.

(** [tileToGeo].  The tile indices are integers of magnitude at most [2^53],
    which doubles hold exactly.  [centerLonDeg] is lines 13, 14 and 17. *)
Definition centerLonDeg (x z : Z) : Q :=
  let n := Math_pow2 z in
  let centerX := add (inject_Z x) 0.5 in
  sub (mul (div centerX n) 360.0) 180.0.

(** The argument of [Math.sinh] in line 18. *)
Definition sinhArgument (y z : Z) : Q :=
  let n := Math_pow2 z in
  let centerY := add (inject_Z y) 0.5 in
  mul Math_PI (sub 1 (div (mul 2 centerY) n)).

Section Platform.

(** [Math.sinh] and [Math.atan], from doubles to doubles. *)
Variables Math_sinh Math_atan : Q -> Q.

(** Lines 18 and 19. *)
Definition centerLatDeg (y z : Z) : Q :=
  let centerLatRad := Math_atan (Math_sinh (sinhArgument y z)) in
  div (mul centerLatRad 180.0) Math_PI.

Definition tileToGeo (x y z : Z) : GeoCoordinate :=
  {| lat := centerLatDeg y z; lon := centerLonDeg x z |}.

End Platform.

End Float64.

(** The function [F] on doubles returns at [d] the value of the real
    function [f] with a relative error of at most [eps]. *)
Definition accurate (eps : Q) (F : Q -> Q) (f : R -> R) (d : Q) : Prop :=
  (Rabs (Q2R (F d) - f (Q2R d)) <= Q2R eps * Rabs (f (Q2R d)))%R.

(** The accuracy assumed of [Math.sinh] and [Math.atan]: one part in a
    million.  The functions of the engines are within a few units of the
    sixteenth digit. *)
Definition platformTolerance : Q := 1 # 1000000.

(** The range the design document gives for the result of [tileToGeo]. *)
Definition inGeoRange (g : Float64.GeoCoordinate) : Prop :=
  (- (8506 # 100) <= Float64.lat g <= 8506 # 100)%Q /\
  (-180 <= Float64.lon g < 180)%Q.

(** ** Further definitions

    *** What the canvas shows

    A call paints the pixels of its destination rectangle; the call that
    painted a pixel last is the one that shows there. *)

(** The side of the canvas, [size] in the constructor. *)
Definition canvasSize : Z := numTilesX * TILE_SIZE.

Definition inRect (x y w h px py : Z) : bool :=
  (x <=? px) && (px <? x + w) && (y <=? py) && (py <? y + h).

Definition paints (op : CanvasOp) (px py : Z) : bool :=
  match op with
  | FillRect _ x y w h => inRect x y w h px py
  | DrawImage _ _ _ _ _ dx dy dw dh => inRect dx dy dw dh px py
  end.

Fixpoint visibleAt (c : list CanvasOp) (px py : Z) : option CanvasOp :=
  match c with
  | [] => None
  | op :: c' =>
      match visibleAt c' px py with
      | Some later => Some later
      | None => if paints op px py then Some op else None
      end
  end.

(** The call [processQueue] makes for a tile, and the one [loadBaseLayer]
    makes for a base tile. *)
Definition tileDraw (x y : Z) (img : Image) : CanvasOp :=
  DrawImage img CROP_OFFSET CROP_OFFSET TILE_SIZE TILE_SIZE
    (x * TILE_SIZE) (y * TILE_SIZE) TILE_SIZE TILE_SIZE.

Definition baseDrawSize : Z := TILE_SIZE * 2 ^ (targetZoom - baseZoom).

Definition baseDraw (x y : Z) (img : Image) : CanvasOp :=
  DrawImage img CROP_OFFSET CROP_OFFSET TILE_SIZE TILE_SIZE
    (x * baseDrawSize) (y * baseDrawSize) baseDrawSize baseDrawSize.

(** A call that stays inside the canvas and, for a draw, takes its source
    rectangle from inside the requested image. *)
Definition inBounds (op : CanvasOp) : Prop :=
  match op with
  | FillRect _ x y w h =>
      0 <= x /\ 0 <= y /\ 0 <= w /\ 0 <= h /\
      x + w <= canvasSize /\ y + h <= canvasSize
  | DrawImage _ sx sy sw sh dx dy dw dh =>
      0 <= sx /\ 0 <= sy /\ 0 < sw /\ 0 < sh /\
      sx + sw <= REQUEST_SIZE /\ sy + sh <= REQUEST_SIZE /\
      0 <= dx /\ 0 <= dy /\ 0 < dw /\ 0 < dh /\
      dx + dw <= canvasSize /\ dy + dh <= canvasSize
  end.

(** The tiles of the base grid. *)
Definition inBaseGrid (s : Z * Z) : Prop :=
  0 <= s.1 < 2 ^ baseZoom /\ 0 <= s.2 < 2 ^ baseZoom.

(** *** Example states

    The state a new satellite manager is in after the given events (the new
    manager itself if the events cannot happen). *)
Definition stateAfter (es : list Event) : TileManager :=
  default (new_TileManager SAT) (run es (new_TileManager SAT)).

(** A completion that fails. *)
Definition isRejection (e : Event) : bool :=
  match e with
  | Settle _ Rejected | SettleBase _ Rejected => true
  | _ => false
  end.

(** *** Executions in which every fetch succeeds *)

Definition isResolvedSettle (e : Event) : bool :=
  match e with
  | Settle _ (Resolved _) => true
  | _ => false
  end.

(** Requests that are queued or in flight. *)
Definition outstanding (m : TileManager) : list TileRequest.t :=
  queue m ++ inflight m.

(** Every slot that is not loaded has a request queued or in flight. *)
Definition covered (m : TileManager) : Prop :=
  isDestroyed m = false /\
  forall x y, inGrid (x, y) ->
    truthy_at (tilesLoaded m) (slotIndex x y) = false ->
    (x, y) ∈ (TileRequest.slot <$> outstanding m).

(** * Lemmas *)

(** ** Basic facts *)

(** Linear arithmetic over [Q]; plain [lra] is the one over [R]. *)
Ltac qlra := Lqa.lra.

Lemma Qltb_lt a b : Qltb a b = true <-> (a < b)%Q.
Proof.
  unfold Qltb. rewrite negb_true_iff. split.
  - intros H. apply Qnot_le_lt. intros Hle. apply Qle_bool_iff in Hle. congruence.
  - intros H. destruct (Qle_bool b a) eqn:E; [|done].
    apply Qle_bool_iff in E. exfalso. apply (Qlt_not_le _ _ H E).
Qed.

Lemma Qltb_ge a b : Qltb a b = false <-> (b <= a)%Q.
Proof.
  unfold Qltb. rewrite negb_false_iff. apply Qle_bool_iff.
Qed.

Lemma Qfloor_unique q n :
  (inject_Z n <= q)%Q -> (q < inject_Z (n + 1))%Q -> Qfloor q = n.
Proof.
  intros Hlo Hhi. apply Z.le_antisymm.
  - assert (inject_Z (Qfloor q) < inject_Z (n + 1))%Q as H.
    { eapply Qle_lt_trans; [apply Qfloor_le|exact Hhi]. }
    rewrite <- Zlt_Qlt in H. lia.
  - rewrite <- (Qfloor_Z n). by apply Qfloor_resp_le.
Qed.

(** *** The dispatch loop *)

Lemma dispatchLoop_spec q : forall a started a' q' started',
  dispatchLoop a q started = (a', q', started') ->
  exists now,
    started' = started ++ now /\ q = now ++ q' /\
    a' = a + Z.of_nat (length now) /\
    (a <= MAX_CONCURRENT_REQUESTS -> a' <= MAX_CONCURRENT_REQUESTS) /\
    (q' = [] \/ MAX_CONCURRENT_REQUESTS <= a').
Proof.
  induction q as [|task rest IH]; intros a started a' q' started' H; simpl in H.
  - inversion H; subst. exists []. rewrite app_nil_r. simpl.
    repeat split; auto; lia.
  - destruct (a <? MAX_CONCURRENT_REQUESTS) eqn:E.
    + apply IH in H as (now & -> & -> & -> & Hb & Hq).
      apply Z.ltb_lt in E.
      exists (task :: now). rewrite <- app_assoc. simpl.
      repeat split; auto; try lia.
    + inversion H; subst. apply Z.ltb_ge in E.
      exists []. rewrite app_nil_r. simpl. repeat split; auto; lia.
Qed.

(** What one call of [processQueue] does to a live manager: it moves a prefix
    of the queue to the pending promises and counts it. *)
Lemma processQueue_live m :
  isDestroyed m = false ->
  exists now,
    queue m = now ++ queue (processQueue m) /\
    inflight (processQueue m) = inflight m ++ now /\
    activeRequests (processQueue m) = activeRequests m + Z.of_nat (length now) /\
    (activeRequests m <= MAX_CONCURRENT_REQUESTS ->
     activeRequests (processQueue m) <= MAX_CONCURRENT_REQUESTS) /\
    (queue (processQueue m) = [] \/
     MAX_CONCURRENT_REQUESTS <= activeRequests (processQueue m)) /\
    tilesLoaded (processQueue m) = tilesLoaded m /\
    canvas (processQueue m) = canvas m /\
    textureUpdates (processQueue m) = textureUpdates m /\
    warnings (processQueue m) = warnings m /\
    isDestroyed (processQueue m) = false /\
    baseInflight (processQueue m) = baseInflight m /\
    mapType (processQueue m) = mapType m.
Proof.
  intros Hd. unfold processQueue. rewrite Hd.
  destruct (dispatchLoop (activeRequests m) (queue m) []) as [[a q] started] eqn:E.
  apply dispatchLoop_spec in E as (now & -> & Hq & -> & Hb & He).
  exists now. simpl. repeat split; auto.
Qed.

Lemma processQueue_destroyed m : isDestroyed m = true -> processQueue m = m.
Proof. intros H. unfold processQueue. by rewrite H. Qed.

(** *** The sort is a stable ascending permutation *)

Lemma byDist_pos a b :
  Qltb 0 (byDist a b) = true <-> (TileRequest.dist b < TileRequest.dist a)%Q.
Proof. rewrite Qltb_lt. unfold byDist. split; intros; qlra. Qed.

Lemma byDist_nonpos a b :
  Qltb 0 (byDist a b) = false <-> (TileRequest.dist a <= TileRequest.dist b)%Q.
Proof. rewrite Qltb_ge. unfold byDist. split; intros; qlra. Qed.

Lemma sort_insert_perm {A} (cmp : A -> A -> Q) a l :
  sort_insert cmp a l ≡ₚ a :: l.
Proof.
  induction l as [|b l IH]; simpl; [done|].
  destruct (Qltb 0 (cmp a b)); [|done].
  rewrite IH. apply Permutation_swap.
Qed.

Lemma array_sort_perm {A} (cmp : A -> A -> Q) (l : list A) :
  array_sort cmp l ≡ₚ l.
Proof.
  induction l as [|a l IH]; simpl; [done|].
  unfold array_sort in *. simpl. by rewrite sort_insert_perm, IH.
Qed.

Lemma sort_insert_ascending a l :
  ascending l -> ascending (sort_insert byDist a l).
Proof.
  unfold ascending. induction 1 as [|b l Hl IH Hb]; simpl.
  - repeat constructor.
  - destruct (Qltb 0 (byDist a b)) eqn:E.
    + apply byDist_pos in E. constructor; [exact IH|].
      apply Forall_forall. intros c Hc.
      rewrite sort_insert_perm in Hc. apply elem_of_cons in Hc as [->|Hc].
      * by apply Qlt_le_weak.
      * rewrite Forall_forall in Hb. by apply Hb.
    + apply byDist_nonpos in E. constructor; [by constructor|].
      constructor; [exact E|].
      eapply Forall_impl; [exact Hb|]. intros c Hc. simpl in Hc.
      eapply Qle_trans; eauto.
Qed.

Lemma array_sort_ascending l : ascending (array_sort byDist l).
Proof.
  induction l as [|a l IH]; [constructor|].
  unfold array_sort. simpl. by apply sort_insert_ascending.
Qed.

Lemma sort_insert_withDist p a l :
  withDist p (sort_insert byDist a l) = withDist p (a :: l).
Proof.
  induction l as [|b l IH]; [done|]. simpl.
  destruct (Qltb 0 (byDist a b)) eqn:E; [|done].
  apply byDist_pos in E. simpl in *. unfold withDist in *. simpl. rewrite IH. simpl.
  destruct (Qeq_bool (TileRequest.dist a) p) eqn:Ea; [|done].
  destruct (Qeq_bool (TileRequest.dist b) p) eqn:Eb; [|done].
  apply Qeq_bool_iff in Ea, Eb. exfalso. rewrite Ea, Eb in E.
  by apply Qlt_irrefl in E.
Qed.

(** The sort is stable: requests of equal priority keep their order. *)
Lemma array_sort_stable p l : withDist p (array_sort byDist l) = withDist p l.
Proof.
  induction l as [|a l IH]; [done|].
  unfold array_sort in *. simpl. rewrite sort_insert_withDist.
  unfold withDist in *. simpl. by rewrite IH.
Qed.

Lemma ascending_app_r l1 l2 : ascending (l1 ++ l2) -> ascending l2.
Proof.
  unfold ascending. induction l1 as [|a l1 IH]; simpl; [done|].
  intros H. apply StronglySorted_inv in H as [H _]. auto.
Qed.

(** *** The viewpoint and the distances *)

Lemma numTilesX_eq : numTilesX = 8.
Proof. reflexivity. Qed.

Lemma centerXOf_range l : (0 <= centerXOf l < inject_Z numTilesX)%Q.
Proof.
  unfold centerXOf. rewrite numTilesX_eq.
  set (nl := ((l + 180) / 360)%Q).
  pose proof (Qfloor_le nl) as Hlo.
  pose proof (Qlt_floor nl) as Hhi.
  rewrite inject_Z_plus in Hhi.
  change (inject_Z 1) with 1%Q in Hhi. change (inject_Z 8) with 8%Q.
  split; qlra.
Qed.

Lemma inject_Z_range x n :
  0 <= x < n -> (0 <= inject_Z x <= inject_Z n - 1)%Q.
Proof.
  intros [H0 Hn]. split.
  - change 0%Q with (inject_Z 0). by rewrite <- Zle_Qle.
  - assert (inject_Z x <= inject_Z (n - 1))%Q as H by (rewrite <- Zle_Qle; lia).
    unfold Z.sub in H. rewrite inject_Z_plus, inject_Z_opp in H.
    change (inject_Z 1) with 1%Q in H. qlra.
Qed.

(** The wrapped distance never exceeds half the grid. *)
Lemma distBoxX_range c x :
  (0 <= c < inject_Z numTilesX)%Q -> 0 <= x < numTilesX ->
  (0 <= distBoxX c x <= inject_Z numTilesX / 2)%Q.
Proof.
  intros Hc Hx. apply inject_Z_range in Hx. unfold distBoxX.
  rewrite numTilesX_eq in *. change (inject_Z 8) with 8%Q in *.
  pose proof (Qabs_nonneg (inject_Z x - c)) as H0.
  assert (Qabs (inject_Z x - c) <= 8)%Q as H8.
  { apply Qabs_Qle_condition. split; qlra. }
  change (8 / 2)%Q with (8 # 2)%Q.
  destruct (Qltb (8 # 2) (Qabs (inject_Z x - c))) eqn:E.
  - apply Qltb_lt in E. split; qlra.
  - apply Qltb_ge in E. split; qlra.
Qed.

(** So the guard of the push holds for every slot of the grid, whatever the
    viewpoint. *)
Lemma closeToView_grid l x :
  0 <= x < numTilesX -> closeToView (distBoxX (centerXOf l) x) = true.
Proof.
  intros Hx. unfold closeToView. apply Qltb_lt.
  pose proof (distBoxX_range _ _ (centerXOf_range l) Hx) as H.
  rewrite numTilesX_eq in *. change (inject_Z 8) with 8%Q in *.
  change (8 / 2)%Q with (8 # 2)%Q in *. qlra.
Qed.

(** The wrapped distance is the shorter way round. *)
Lemma distBoxX_min c x :
  (distBoxX c x ==
   Qmin (Qabs (inject_Z x - c)) (inject_Z numTilesX - Qabs (inject_Z x - c)))%Q.
Proof.
  unfold distBoxX. rewrite numTilesX_eq. change (inject_Z 8) with 8%Q.
  set (d := Qabs (inject_Z x - c)).
  change (8 / 2)%Q with (8 # 2)%Q.
  destruct (Qltb (8 # 2) d) eqn:E.
  - apply Qltb_lt in E. symmetry. apply Q.min_r. qlra.
  - apply Qltb_ge in E. symmetry. apply Q.min_l. qlra.
Qed.

(** *** The scan adds one request per missing slot *)

Lemma inQueue_elem q x y :
  inQueue q x y = true <-> (x, y) ∈ TileRequest.slot <$> q.
Proof.
  unfold inQueue. rewrite existsb_exists. split.
  - intros (t & Ht & E). apply andb_true_iff in E as [Ex Ey].
    apply Z.eqb_eq in Ex, Ey. subst. apply list_elem_of_fmap.
    exists t. split; [done|]. by apply list_elem_of_In.
  - intros H. apply list_elem_of_fmap in H as (t & E & Ht).
    exists t. split; [by apply list_elem_of_In|].
    unfold TileRequest.slot in E. inversion E; subst.
    by rewrite !Z.eqb_refl.
Qed.

Lemma inQueue_not_elem q x y :
  inQueue q x y = false <-> (x, y) ∉ TileRequest.slot <$> q.
Proof.
  rewrite <- inQueue_elem. destruct (inQueue q x y); split; done.
Qed.

Lemma foldl_nested {A} (f : A -> Z -> Z -> A) (rows cols : list Z) : forall q,
  foldl (fun q y => foldl (fun q x => f q y x) q cols) q rows =
  foldl (fun q p => f q p.1 p.2) q (y ← rows; x ← cols; [(y, x)]).
Proof.
  induction rows as [|y rows IH]; intros q; [reflexivity|].
  simpl. rewrite foldl_app, <- IH. f_equal.
  clear IH. revert q. induction cols as [|x cols IHc]; intros q; [reflexivity|].
  simpl. by rewrite IHc.
Qed.

Lemma enqueueMissing_scanOrder type loaded c q :
  enqueueMissing type loaded c q =
  foldl (fun q p => visit type loaded c q p.1 p.2) q scanOrder.
Proof. unfold enqueueMissing, scanOrder. apply foldl_nested. Qed.

Lemma visit_cases type loaded c q y x :
  visit type loaded c q y x = q \/
  (visit type loaded c q y x = q ++ [requestFor type c x y] /\
   truthy_at loaded (slotIndex x y) = false /\
   inQueue q x y = false /\
   closeToView (distBoxX c x) = true).
Proof.
  unfold visit, slotIndex.
  destruct (truthy_at loaded (y * numTilesX + x)); [by left|].
  destruct (inQueue q x y); [by left|].
  destruct (closeToView (distBoxX c x)); [by right|by left].
Qed.

Lemma visit_covers type loaded c q y x :
  truthy_at loaded (slotIndex x y) = false ->
  closeToView (distBoxX c x) = true ->
  (x, y) ∈ TileRequest.slot <$> visit type loaded c q y x.
Proof.
  intros Hl Hc. unfold visit. fold (slotIndex x y). rewrite Hl, Hc.
  destruct (inQueue q x y) eqn:E.
  - by apply inQueue_elem.
  - rewrite fmap_app. apply elem_of_app. right. simpl. apply list_elem_of_singleton.
    done.
Qed.

Lemma scan_spec type loaded c ps : forall q,
  exists new,
    foldl (fun q p => visit type loaded c q p.1 p.2) q ps = q ++ new /\
    Forall (addedBy type loaded c ps q) new /\
    (NoDup (TileRequest.slot <$> q) -> NoDup (TileRequest.slot <$> (q ++ new))) /\
    (forall y x, (y, x) ∈ ps ->
       truthy_at loaded (slotIndex x y) = false ->
       closeToView (distBoxX c x) = true ->
       (x, y) ∈ TileRequest.slot <$> (q ++ new)).
Proof.
  induction ps as [|[y x] ps IH]; intros q.
  - exists []. simpl. rewrite app_nil_r. repeat split; auto.
    intros ? ? H. by apply elem_of_nil in H.
  - simpl.
    destruct (IH (visit type loaded c q y x)) as (new & Hf & Hnew & Hnd & Hcov).
    pose proof (visit_covers type loaded c q y x) as Hv.
    destruct (visit_cases type loaded c q y x) as [E|(E & Hl & Hq & Hc)];
      rewrite E in *.
    + exists new. repeat split; auto.
      * eapply Forall_impl; [exact Hnew|]. intros r (?&?&?&?&?).
        repeat split; auto. by apply elem_of_cons; right.
      * intros y' x' Hin Hl Hc. apply elem_of_cons in Hin as [Heq|Hin].
        -- inversion Heq; subst. specialize (Hv Hl Hc).
           rewrite fmap_app. apply elem_of_app. by left.
        -- by apply Hcov.
    + exists (requestFor type c x y :: new). rewrite <- app_assoc in *. simpl in *.
      apply inQueue_not_elem in Hq.
      repeat split; auto.
      * constructor.
        -- repeat split; auto. simpl. by apply elem_of_cons; left.
        -- eapply Forall_impl; [exact Hnew|]. intros r (?&?&?&?&Hn).
           repeat split; auto; [by apply elem_of_cons; right|].
           intros Hr. apply Hn. rewrite fmap_app. apply elem_of_app. by left.
      * intros Hq0. apply Hnd. rewrite fmap_app. apply NoDup_app.
        repeat split; auto.
        -- intros s Hs Hs'. simpl in Hs'. apply list_elem_of_singleton in Hs'.
           subst. done.
        -- simpl. apply NoDup_singleton.
      * intros y' x' Hin Hl' Hc'. apply elem_of_cons in Hin as [Heq|Hin].
        -- inversion Heq; subst. rewrite fmap_app. apply elem_of_app. right.
           simpl. by apply elem_of_cons; left.
        -- by apply Hcov.
Qed.

Lemma elem_of_counter n i : i ∈ counter n <-> 0 <= i < n.
Proof. unfold counter. rewrite elem_of_seqZ. lia. Qed.

Lemma elem_of_scanOrder y x :
  (y, x) ∈ scanOrder <-> inGrid (x, y).
Proof.
  unfold scanOrder, inGrid. rewrite list_elem_of_bind. simpl fst. simpl snd. split.
  - intros (y' & H & Hy). apply list_elem_of_bind in H as (x' & H & Hx).
    apply list_elem_of_singleton in H. inversion H; subst.
    apply elem_of_counter in Hx, Hy. done.
  - intros [Hx Hy]. exists y. split; [|by apply elem_of_counter].
    apply list_elem_of_bind. exists x. split; [|by apply elem_of_counter].
    by apply list_elem_of_singleton.
Qed.

(** *** Setting a flag *)

Lemma slotIndex_range x y :
  inGrid (x, y) -> 0 <= slotIndex x y < numTilesX * numTilesX.
Proof. unfold inGrid, slotIndex. simpl. rewrite numTilesX_eq. lia. Qed.

Lemma array_set_length a i v :
  0 <= i -> (Z.to_nat i < length a)%nat -> length (array_set a i v) = length a.
Proof.
  intros H0 Hi. unfold array_set.
  destruct (decide (0 <= i)); [|lia].
  destruct (decide (Z.to_nat i < length a)%nat); [|lia].
  apply length_insert.
Qed.

(** Setting a flag never clears another one. *)
Lemma truthy_at_array_set a i j :
  truthy_at a j = true -> truthy_at (array_set a i true) j = true.
Proof.
  unfold truthy_at, array_set. intros H.
  destruct (decide (0 <= j)); [|done].
  destruct (a !! Z.to_nat j) as [b|] eqn:E; simpl in H; [subst b|done].
  destruct (decide (0 <= i)); [|by rewrite E].
  destruct (decide (Z.to_nat i < length a)%nat).
  - destruct (decide (Z.to_nat i = Z.to_nat j)) as [Heq|Hne].
    + rewrite Heq in *. rewrite list_lookup_insert_eq; [done|lia].
    + by rewrite list_lookup_insert_ne, E.
  - rewrite lookup_app_l, E; [done|]. by eapply lookup_lt_Some.
Qed.

Lemma loadedCount_insert a n :
  (loadedCount a <= loadedCount (<[n := true]> a))%nat.
Proof.
  unfold loadedCount. revert n. induction a as [|b a IH]; intros n; [done|].
  destruct n as [|n]; simpl.
  - destruct b; simpl; lia.
  - specialize (IH n). destruct b; simpl; lia.
Qed.

Lemma loadedCount_array_set a i :
  0 <= i -> (Z.to_nat i < length a)%nat ->
  (loadedCount a <= loadedCount (array_set a i true))%nat.
Proof.
  intros H0 Hi. unfold array_set.
  destruct (decide (0 <= i)); [|lia].
  destruct (decide (Z.to_nat i < length a)%nat); [|lia].
  apply loadedCount_insert.
Qed.

(** *** Well-formedness is invariant *)

Lemma wf_new type : wf (new_TileManager type).
Proof.
  constructor; simpl; try done. constructor.
Qed.

Lemma wf_processQueue m : wf m -> wf (processQueue m).
Proof.
  intros [Hl Ha Hb Hq Hf Hn].
  destruct (isDestroyed m) eqn:Hd.
  { rewrite processQueue_destroyed by done. by constructor. }
  destruct (processQueue_live m Hd)
    as (now & Eq & Ef & Ea & Hb' & _ & El & _).
  rewrite Eq in Hq, Hn. apply Forall_app in Hq as [Hq1 Hq2].
  rewrite fmap_app in Hn. apply NoDup_app in Hn as (_ & _ & Hn).
  constructor.
  - by rewrite El.
  - rewrite Ea, Ef, Ha, length_app. lia.
  - auto.
  - done.
  - rewrite Ef. by apply Forall_app.
  - done.
Qed.

Lemma array_sort_Forall {A} (P : A -> Prop) cmp l :
  Forall P l -> Forall P (array_sort cmp l).
Proof. intros H. by rewrite array_sort_perm. Qed.

Lemma wf_update l m : wf m -> wf (update l m).
Proof.
  intros Hwf. unfold update. destruct (isDestroyed m) eqn:Hd; [done|].
  apply wf_processQueue. destruct Hwf as [Hl Ha Hb Hq Hf Hn].
  rewrite enqueueMissing_scanOrder.
  destruct (scan_spec (mapType m) (tilesLoaded m) (centerXOf l) scanOrder (queue m))
    as (new & -> & Hnew & Hnd & _).
  constructor; simpl; auto.
  - apply array_sort_Forall, Forall_app. split; [done|].
    eapply Forall_impl; [exact Hnew|]. intros r (Hin & _).
    apply elem_of_scanOrder in Hin. exact Hin.
  - rewrite array_sort_perm. auto.
Qed.

Lemma wf_destroy m : wf m -> wf (destroy m).
Proof.
  intros [Hl Ha Hb Hq Hf Hn]. constructor; simpl; auto. constructor.
Qed.

Lemma wf_loadBaseLayer m : wf m -> wf (loadBaseLayer m).
Proof. intros [Hl Ha Hb Hq Hf Hn]. by constructor. Qed.

Lemma wf_settleBase i o m m' : wf m -> settleBase i o m = Some m' -> wf m'.
Proof.
  intros [Hl Ha Hb Hq Hf Hn]. unfold settleBase.
  destruct (baseInflight m !! i) as [[x y]|]; [|done].
  intros E. inversion E; subst; clear E.
  destruct o as [img|]; unfold onBaseThen, onBaseCatch; simpl.
  - destruct (isDestroyed m); by constructor.
  - by constructor.
Qed.

Lemma wf_settle i o m m' : wf m -> settle i o m = Some m' -> wf m'.
Proof.
  intros [Hl Ha Hb Hq Hf Hn]. unfold settle.
  destruct (inflight m !! i) as [task|] eqn:Ei; [|done].
  intros E. inversion E; subst; clear E.
  pose proof (lookup_lt_Some _ _ _ Ei) as Hi.
  assert (inGrid (TileRequest.slot task)) as Hg.
  { rewrite Forall_forall in Hf. apply Hf. by eapply list_elem_of_lookup_2. }
  assert (Forall (fun t => inGrid (TileRequest.slot t)) (delete i (inflight m))) as Hf'.
  { by apply Forall_delete. }
  apply wf_processQueue.
  destruct o as [img|]; unfold onThen, onCatch; simpl.
  - destruct (isDestroyed m); constructor; simpl; auto;
      try (rewrite length_delete by eauto; lia); try lia.
    apply slotIndex_range in Hg. unfold slotIndex in Hg.
    rewrite array_set_length; [done|lia|lia].
  - constructor; simpl; auto; try (rewrite length_delete by eauto; lia); lia.
Qed.

Lemma wf_step e m m' : wf m -> step e m = Some m' -> wf m'.
Proof.
  intros Hwf. destruct e; simpl; intros E.
  - inversion E; subst. by apply wf_update.
  - by eapply wf_settle.
  - inversion E; subst. by apply wf_destroy.
  - inversion E; subst. by apply wf_loadBaseLayer.
  - by eapply wf_settleBase.
Qed.

Lemma wf_run es : forall m m', wf m -> run es m = Some m' -> wf m'.
Proof.
  induction es as [|e es IH]; intros m m' Hwf; simpl.
  - intros E. by inversion E; subst.
  - destruct (step e m) as [m1|] eqn:E1; [|done].
    intros E. eapply IH; [|exact E]. by eapply wf_step.
Qed.

Lemma wf_reachable m : reachable m -> wf m.
Proof. intros (type & es & E). eapply wf_run; [apply wf_new|exact E]. Qed.

(** *** [update] as scan, sort and dispatch *)

Lemma update_live l m :
  isDestroyed m = false ->
  update l m = processQueue (set_queue (pendingQueue l m) m).
Proof. intros H. unfold update. by rewrite H. Qed.

Lemma update_destroyed l m : isDestroyed m = true -> update l m = m.
Proof. intros H. unfold update. by rewrite H. Qed.

(** A live [update] dispatches a prefix of [pendingQueue] and keeps the
    rest. *)
Lemma update_dispatch l m :
  isDestroyed m = false ->
  exists now,
    pendingQueue l m = now ++ queue (update l m) /\
    inflight (update l m) = inflight m ++ now /\
    activeRequests (update l m) = activeRequests m + Z.of_nat (length now) /\
    (queue (update l m) = [] \/
     MAX_CONCURRENT_REQUESTS <= activeRequests (update l m)) /\
    tilesLoaded (update l m) = tilesLoaded m /\
    canvas (update l m) = canvas m /\
    textureUpdates (update l m) = textureUpdates m /\
    isDestroyed (update l m) = false /\
    mapType (update l m) = mapType m.
Proof.
  intros Hd. rewrite update_live by done.
  set (m1 := set_queue (pendingQueue l m) m).
  destruct (processQueue_live m1 Hd)
    as (now & Eq & Ef & Ea & _ & He & El & Ec & Et & _ & Hd' & _ & Hm).
  exists now. repeat split; auto.
Qed.

(** *** Every request was built by some [update] *)

Lemma provenance_processQueue m : provenance m -> provenance (processQueue m).
Proof.
  intros [Hq Hf]. destruct (isDestroyed m) eqn:Hd.
  { by rewrite processQueue_destroyed. }
  destruct (processQueue_live m Hd)
    as (now & Eq & Ef & _ & _ & _ & _ & _ & _ & _ & _ & _ & Hm).
  rewrite Eq in Hq. apply Forall_app in Hq as [Hq1 Hq2].
  unfold provenance. rewrite Hm, Ef. split; [done|]. by apply Forall_app.
Qed.

Lemma provenance_update l m : provenance m -> provenance (update l m).
Proof.
  intros [Hq Hf]. unfold update. destruct (isDestroyed m) eqn:Hd; [done|].
  apply provenance_processQueue. split; simpl; [|done].
  apply array_sort_Forall. rewrite enqueueMissing_scanOrder.
  destruct (scan_spec (mapType m) (tilesLoaded m) (centerXOf l) scanOrder (queue m))
    as (new & -> & Hnew & _).
  apply Forall_app. split; [done|].
  eapply Forall_impl; [exact Hnew|]. intros r (_ & Hr & _ & Hc & _).
  by exists l.
Qed.

Lemma provenance_settle i o m m' :
  provenance m -> settle i o m = Some m' -> provenance m'.
Proof.
  intros [Hq Hf]. unfold settle.
  destruct (inflight m !! i) as [task|]; [|done].
  intros E. inversion E; subst; clear E.
  apply provenance_processQueue.
  destruct o as [img|]; unfold onThen, onCatch; simpl.
  - destruct (isDestroyed m); split; simpl; auto; by apply Forall_delete.
  - split; simpl; auto. by apply Forall_delete.
Qed.

Lemma provenance_step e m m' : provenance m -> step e m = Some m' -> provenance m'.
Proof.
  intros Hp. destruct e; simpl; intros E.
  - inversion E; subst. by apply provenance_update.
  - by eapply provenance_settle.
  - inversion E; subst. destruct Hp as [Hq Hf]. split; simpl; auto.
  - inversion E; subst. exact Hp.
  - unfold settleBase in E. destruct (baseInflight m !! i) as [[x y]|]; [|done].
    inversion E; subst; clear E. destruct Hp as [Hq Hf].
    destruct o as [img|]; unfold onBaseThen, onBaseCatch; simpl; [|done].
    by destruct (isDestroyed m).
Qed.

Lemma provenance_reachable m : reachable m -> provenance m.
Proof.
  intros (type & es & E).
  assert (provenance (new_TileManager type)) as H0 by (split; constructor).
  revert H0 E. generalize (new_TileManager type). clear type.
  induction es as [|e es IH]; intros m0 H0; simpl.
  - intros E. by inversion E; subst.
  - destruct (step e m0) as [m1|] eqn:E1; [|done].
    apply IH. by eapply provenance_step.
Qed.

(** *** What the scheduler leaves alone *)

Lemma processQueue_frame m :
  tilesLoaded (processQueue m) = tilesLoaded m /\
  canvas (processQueue m) = canvas m /\
  textureUpdates (processQueue m) = textureUpdates m /\
  warnings (processQueue m) = warnings m /\
  isDestroyed (processQueue m) = isDestroyed m /\
  baseInflight (processQueue m) = baseInflight m.
Proof.
  destruct (isDestroyed m) eqn:Hd.
  - by rewrite processQueue_destroyed.
  - destruct (processQueue_live m Hd)
      as (now & _ & _ & _ & _ & _ & El & Ec & Et & Ew & Hd' & Eb & _).
    by rewrite El, Ec, Et, Ew, Hd', Eb.
Qed.

Lemma update_frame l m :
  tilesLoaded (update l m) = tilesLoaded m /\
  canvas (update l m) = canvas m /\
  textureUpdates (update l m) = textureUpdates m /\
  isDestroyed (update l m) = isDestroyed m.
Proof.
  destruct (isDestroyed m) eqn:Hd; [by rewrite update_destroyed|].
  rewrite update_live by done.
  destruct (processQueue_frame (set_queue (pendingQueue l m) m))
    as (-> & -> & -> & _ & -> & _).
  by rewrite <- Hd.
Qed.

(** *** The flags only grow along an execution *)

Lemma flagsGrow_refl a : flagsGrow a a.
Proof. repeat split; auto. Qed.

Lemma flagsGrow_trans a b c : flagsGrow a b -> flagsGrow b c -> flagsGrow a c.
Proof.
  intros (H1 & H2 & H3) (H1' & H2' & H3'). repeat split; auto; lia.
Qed.

Lemma flagsGrow_step e m m' :
  wf m -> step e m = Some m' -> flagsGrow (tilesLoaded m) (tilesLoaded m').
Proof.
  intros Hwf. destruct e; simpl; intros E.
  - inversion E; subst. destruct (update_frame currentLonDeg m) as (-> & _).
    apply flagsGrow_refl.
  - unfold settle in E. destruct (inflight m !! i) as [task|] eqn:Ei; [|done].
    inversion E; subst; clear E. unfold onFinally.
    match goal with |- context [processQueue ?s] =>
      destruct (processQueue_frame s) as (-> & _) end.
    destruct o as [img|]; unfold onThen, onCatch; simpl;
      [|apply flagsGrow_refl].
    destruct (isDestroyed m); simpl; [apply flagsGrow_refl|].
    assert (inGrid (TileRequest.slot task)) as Hg.
    { pose proof (wf_inflight_grid m Hwf) as Hf. rewrite Forall_forall in Hf.
      apply Hf. by eapply list_elem_of_lookup_2. }
    apply slotIndex_range in Hg. unfold slotIndex in Hg.
    pose proof (wf_length m Hwf) as Hl.
    repeat split.
    + apply array_set_length; lia.
    + intros j. apply truthy_at_array_set.
    + apply loadedCount_array_set; lia.
  - inversion E; subst. apply flagsGrow_refl.
  - inversion E; subst. apply flagsGrow_refl.
  - unfold settleBase in E. destruct (baseInflight m !! i) as [[x y]|]; [|done].
    inversion E; subst; clear E.
    destruct o as [img|]; unfold onBaseThen, onBaseCatch; simpl;
      [|apply flagsGrow_refl].
    destruct (isDestroyed m); apply flagsGrow_refl.
Qed.

Lemma flagsGrow_run es : forall m m',
  wf m -> run es m = Some m' -> flagsGrow (tilesLoaded m) (tilesLoaded m').
Proof.
  induction es as [|e es IH]; intros m m' Hwf; simpl.
  - intros E. inversion E; subst. apply flagsGrow_refl.
  - destruct (step e m) as [m1|] eqn:E1; [|done].
    intros E. eapply flagsGrow_trans.
    + by eapply flagsGrow_step.
    + apply IH; [|done]. by eapply wf_step.
Qed.

Lemma getProgress_mono m m' :
  wf m -> flagsGrow (tilesLoaded m) (tilesLoaded m') ->
  getProgress m <= getProgress m'.
Proof.
  intros Hwf (Hlen & _ & Hcount). unfold getProgress.
  fold (loadedCount (tilesLoaded m)). fold (loadedCount (tilesLoaded m')).
  rewrite Hlen, (wf_length m Hwf).
  apply Qfloor_resp_le.
  assert (inject_Z (Z.of_nat (loadedCount (tilesLoaded m))) <=
          inject_Z (Z.of_nat (loadedCount (tilesLoaded m'))))%Q as H.
  { rewrite <- Zle_Qle. lia. }
  revert H. generalize (inject_Z (Z.of_nat (loadedCount (tilesLoaded m')))).
  generalize (inject_Z (Z.of_nat (loadedCount (tilesLoaded m)))).
  intros a b H. unfold Qdiv.
  change (/ inject_Z (Z.of_nat (Z.to_nat (numTilesX * numTilesX))))%Q with (1 # 64)%Q.
  qlra.
Qed.

Lemma loadState_Loaded m x y :
  loadState m x y = Loaded <-> truthy_at (tilesLoaded m) (slotIndex x y) = true.
Proof.
  unfold loadState. destruct (truthy_at (tilesLoaded m) (slotIndex x y)); [done|].
  by destruct (pendingFor x y (inflight m)).
Qed.

(** *** After [destroy] *)

Lemma destroyed_step e m m' :
  isDestroyed m = true -> step e m = Some m' ->
  isDestroyed m' = true /\ canvas m' = canvas m /\
  tilesLoaded m' = tilesLoaded m /\ textureUpdates m' = textureUpdates m /\
  (queue m = [] -> queue m' = []).
Proof.
  intros Hd. destruct e; simpl; intros E.
  - inversion E; subst. by rewrite update_destroyed.
  - unfold settle in E. destruct (inflight m !! i) as [task|]; [|done].
    inversion E; subst; clear E. unfold onFinally.
    destruct o as [img|]; unfold onThen, onCatch; simpl; rewrite ?Hd;
      (rewrite processQueue_destroyed by done); by simpl.
  - inversion E; subst. by simpl.
  - inversion E; subst. by simpl.
  - unfold settleBase in E. destruct (baseInflight m !! i) as [[x y]|]; [|done].
    inversion E; subst; clear E.
    destruct o as [img|]; unfold onBaseThen, onBaseCatch; simpl; by rewrite ?Hd.
Qed.

Lemma destroyed_run es : forall m m',
  isDestroyed m = true -> run es m = Some m' ->
  isDestroyed m' = true /\ canvas m' = canvas m /\
  tilesLoaded m' = tilesLoaded m /\ textureUpdates m' = textureUpdates m /\
  (queue m = [] -> queue m' = []).
Proof.
  induction es as [|e es IH]; intros m m' Hd; simpl.
  - intros E. by inversion E; subst.
  - destruct (step e m) as [m1|] eqn:E1; [|done]. intros E.
    destruct (destroyed_step _ _ _ Hd E1) as (Hd1 & <- & <- & <- & Hq).
    destruct (IH _ _ Hd1 E) as (? & ? & ? & ? & Hq').
    repeat split; auto.
Qed.

(** *** Events of the base layer *)

Lemma base_step e m m' :
  isBaseEvent e = true -> step e m = Some m' ->
  tilesLoaded m' = tilesLoaded m /\ queue m' = queue m /\
  inflight m' = inflight m /\ activeRequests m' = activeRequests m /\
  isDestroyed m' = isDestroyed m /\
  exists drawn, canvas m' = canvas m ++ drawn /\
    Forall (fun op => exists img x y, op =
      DrawImage img CROP_OFFSET CROP_OFFSET TILE_SIZE TILE_SIZE
        (x * 512) (y * 512) 512 512) drawn.
Proof.
  destruct e; try done; intros _; simpl; intros E.
  - inversion E; subst. simpl. repeat split; auto.
    exists []. by rewrite app_nil_r.
  - unfold settleBase in E. destruct (baseInflight m !! i) as [[x y]|]; [|done].
    inversion E; subst; clear E.
    destruct o as [img|]; unfold onBaseThen, onBaseCatch; simpl.
    + destruct (isDestroyed m) eqn:Hd; simpl; repeat split; auto.
      * exists []. by rewrite app_nil_r.
      * eexists. split; [reflexivity|]. constructor; [|constructor].
        by exists img, x, y.
    + repeat split; auto. exists []. by rewrite app_nil_r.
Qed.

(** *** What [update] adds *)

Lemma pendingQueue_elem l m r :
  r ∈ pendingQueue l m ->
  r ∈ queue m \/
  addedBy (mapType m) (tilesLoaded m) (centerXOf l) scanOrder (queue m) r.
Proof.
  unfold pendingQueue. rewrite array_sort_perm, enqueueMissing_scanOrder.
  destruct (scan_spec (mapType m) (tilesLoaded m) (centerXOf l) scanOrder (queue m))
    as (new & -> & Hnew & _).
  intros H. apply elem_of_app in H as [H|H]; [by left|right].
  rewrite Forall_forall in Hnew. by apply Hnew.
Qed.

Lemma pendingQueue_covers l m x y :
  inGrid (x, y) -> truthy_at (tilesLoaded m) (slotIndex x y) = false ->
  (x, y) ∈ TileRequest.slot <$> pendingQueue l m.
Proof.
  intros Hg Hl. unfold pendingQueue.
  rewrite array_sort_perm, enqueueMissing_scanOrder.
  destruct (scan_spec (mapType m) (tilesLoaded m) (centerXOf l) scanOrder (queue m))
    as (new & -> & _ & _ & Hcov).
  apply Hcov; [by apply elem_of_scanOrder|done|].
  apply closeToView_grid. apply Hg.
Qed.

Lemma closeToView_lt d :
  closeToView d = true <-> (d < inject_Z numTilesX / 2 + 1)%Q.
Proof. unfold closeToView. apply Qltb_lt. Qed.

(** Membership in a list that computes. *)
Ltac elem_by_compute :=
  apply list_elem_of_In; vm_compute;
  repeat (first [left; reflexivity | right]).

(** *** The priority is the documented formula *)

Lemma distOf_specPriority c x y : (distOf c x y == specPriority c x y)%Q.
Proof.
  unfold distOf, specPriority, distBoxY. rewrite distBoxX_min.
  apply Qplus_comp; [reflexivity|]. apply Qmult_comm.
Qed.

(** In a sorted list an earlier element is related to a later one. *)
Lemma StronglySorted_lookup_lt {A} (R : A -> A -> Prop) l :
  StronglySorted R l ->
  forall i j a b, (i < j)%nat -> l !! i = Some a -> l !! j = Some b -> R a b.
Proof.
  induction 1 as [|x l Hs IH Hf]; intros i j a b Hij Ha Hb; [done|].
  destruct j as [|j]; [lia|]. simpl in Hb.
  destruct i as [|i]; simpl in Ha.
  - inversion Ha; subst. rewrite Forall_forall in Hf. apply Hf.
    by eapply list_elem_of_lookup_2.
  - apply (IH i j); [lia|done|done].
Qed.

(** ** Bounds for the geographic formulas *)

Lemma PI_upper : (PI <= 31416 / 10000)%R.
Proof.
  destruct (PI_2_3_7_ineq 2) as [_ H].
  unfold sum_f_R0, tg_alt, PI_2_3_7_tg, Ratan_seq in H.
  simpl in H. lra.
Qed.

Lemma squareUp_sound a :
  0 <= a -> 0 <= squareUp a /\
  (IZR a / IZR fixScale * (IZR a / IZR fixScale) <= IZR (squareUp a) / IZR fixScale)%R.
Proof.
  intros Ha. unfold squareUp.
  assert (0 < fixScale) as Hs by reflexivity.
  assert (a * a <= (a * a + fixScale - 1) / fixScale * fixScale) as H.
  { pose proof (Z.mul_div_le (a * a + fixScale - 1) fixScale Hs).
    pose proof (Z.mod_pos_bound (a * a + fixScale - 1) fixScale Hs).
    pose proof (Z.div_mod (a * a + fixScale - 1) fixScale). lia. }
  split.
  - apply Z.div_pos; nia.
  - apply IZR_le in H. rewrite !mult_IZR in H.
    assert (0 < IZR fixScale)%R as Hr by (apply IZR_lt; reflexivity).
    generalize dependent (IZR ((a * a + fixScale - 1) / fixScale)).
    generalize dependent (IZR a). generalize dependent (IZR fixScale).
    intros s Hs' a' b Hb.
    apply Rmult_le_reg_r with (s * s)%R; [nra|].
    field_simplify; [|lra|lra]. nra.
Qed.

Lemma exp_squareUpTimes k : forall x a,
  0 <= a -> (exp x <= IZR a / IZR fixScale)%R ->
  (exp (2 ^ k * x) <= IZR (squareUpTimes k a) / IZR fixScale)%R.
Proof.
  induction k as [|k IH]; intros x a Ha Hx; simpl.
  - by rewrite Rmult_1_l.
  - destruct (squareUp_sound a Ha) as [H0 Hsq].
    replace (2 * 2 ^ k * x)%R with (2 ^ k * (x + x))%R by ring.
    apply IH; [done|]. rewrite exp_plus.
    pose proof (exp_pos x) as Hp.
    eapply Rle_trans; [|exact Hsq].
    apply Rmult_le_compat; lra.
Qed.

Lemma PI_lower : (3 < PI)%R.
Proof. pose proof PI2_3_2. lra. Qed.

Lemma exp_31416_upper : (exp (31416 / 10000) <= 231427 / 10000)%R.
Proof.
  set (h := (31416 / 10000 / 2 ^ 16)%R).
  assert (0 < h < 1)%R as Hh by (unfold h; simpl; lra).
  assert (exp h <= IZR 1000047939310 / IZR fixScale)%R as H0.
  { pose proof (exp_ineq1_le (- h)) as H1. rewrite exp_Ropp in H1.
    pose proof (exp_pos h) as Hp.
    assert (exp h <= / (1 - h))%R as H2.
    { apply Rmult_le_reg_r with (1 - h)%R; [lra|]. rewrite Rinv_l by lra.
      apply Rmult_le_reg_l with (/ exp h)%R; [by apply Rinv_0_lt_compat|].
      rewrite <- Rmult_assoc, Rinv_l by lra. lra. }
    eapply Rle_trans; [exact H2|]. unfold h. simpl.
    apply Rmult_le_reg_r with (1 - 31416 / 10000 / (2 * (2 * (2 * (2 * (2 * (2 * (2 * (2 * (2 * (2 * (2 * (2 * (2 * (2 * (2 * (2 * 1)))))))))))))))))%R;
      [lra|]. rewrite Rinv_l by lra. unfold fixScale. simpl. lra. }
  apply (exp_squareUpTimes 16) in H0; [|done].
  replace (2 ^ 16 * h)%R with (31416 / 10000)%R in H0 by (unfold h; field).
  eapply Rle_trans; [exact H0|].
  replace (squareUpTimes 16 1000047939310) with 23142606757507 by (vm_compute; reflexivity).
  unfold fixScale. simpl. lra.
Qed.

Lemma sinh_opp x : (sinh (- x) = - sinh x)%R.
Proof. unfold sinh. rewrite Ropp_involutive. lra. Qed.

Lemma cos_lower d : (0 < d < PI -> 1 - d * d / 2 < cos d)%R.
Proof.
  intros [H0 H1]. replace (cos d) with (cos (2 * (d / 2)))%R by (f_equal; lra).
  rewrite cos_2a_sin.
  assert (0 < sin (d / 2))%R as Hs by (apply sin_gt_0; lra).
  assert (sin (d / 2) < d / 2)%R as Hlt by (apply sin_lt_x; lra).
  nra.
Qed.

Lemma Rabs_le_inv a b : (Rabs a <= b -> - b <= a <= b)%R.
Proof. unfold Rabs. destruct (Rcase_abs a); lra. Qed.

Lemma sinh_increasing x y : (x <= y -> sinh x <= sinh y)%R.
Proof.
  intros [H | ->]; [left; by apply sinh_lt|right; reflexivity].
Qed.

(** The hyperbolic sine on the interval the argument lies in. *)
Lemma sinh_bound u :
  (Rabs u <= 31416 / 10000 -> Rabs (sinh u) <= 115498 / 10000)%R.
Proof.
  intros Hu.
  assert (sinh (31416 / 10000) <= 115498 / 10000)%R as Hs.
  { unfold sinh. rewrite exp_Ropp.
    pose proof exp_31416_upper as HE. pose proof (exp_pos (31416 / 10000)) as Hp.
    assert (/ (231427 / 10000) <= / exp (31416 / 10000))%R as Hi.
    { apply Rinv_le_contravar; lra. }
    assert (/ (231427 / 10000) = 10000 / 231427)%R as Hq by (field; lra).
    lra. }
  apply Rabs_le. apply Rabs_le_inv in Hu.
  split.
  - pose proof (sinh_increasing (- (31416 / 10000)) u ltac:(lra)) as H.
    rewrite sinh_opp in H. lra.
  - pose proof (sinh_increasing u (31416 / 10000) ltac:(lra)). lra.
Qed.

Lemma atan_le x y : (x <= y -> atan x <= atan y)%R.
Proof.
  intros [H | ->]; [left; by apply atan_increasing|right; reflexivity].
Qed.

(** An angle below which the arc tangent of the largest value stays. *)
Lemma atan_upper :
  (atan (115498 / 10000 * (1 + 1 / 1000000)) < 68409 / 46080 / (1 + 1 / 1000000))%R.
Proof.
  pose proof PI_upper as Hpi. pose proof PI_lower as Hlo.
  set (S := (115498 / 10000 * (1 + 1 / 1000000))%R).
  set (t := (68409 / 46080 / (1 + 1 / 1000000))%R).
  assert (14845688 / 10000000 <= t <= 14845689 / 10000000)%R as [Ht0 Ht1].
  { assert (t * (1 + 1 / 1000000) = 68409 / 46080)%R as Et by (unfold t; field).
    split; lra. }
  set (d := (PI / 2 - t)%R).
  assert (0 < d <= 862312 / 10000000)%R as Hdb by (unfold d; lra).
  assert (sin d < d)%R as Hsin by (apply sin_lt_x; lra).
  assert (0 < sin d)%R as Hsin0 by (apply sin_gt_0; lra).
  assert (1 - d * d / 2 < cos d)%R as Hcos by (apply cos_lower; lra).
  assert (S * sin d < cos d)%R as Hkey.
  { assert (S <= 115499155 / 10000000)%R as HS by (unfold S; lra).
    assert (0 < S)%R as HS0 by (unfold S; lra).
    set (s := sin d) in *. set (c := cos d) in *.
    assert (S * s <= 115499155 / 10000000 * d)%R as H1.
    { apply Rmult_le_compat; lra. }
    assert (d * d <= 862312 / 10000000 * (862312 / 10000000))%R
      as H2 by (apply Rmult_le_compat; lra).
    lra. }
  assert (S < tan t)%R as Htan.
  { unfold tan. replace t with (PI / 2 - d)%R by (unfold d; lra).
    rewrite sin_shift, cos_shift.
    apply Rmult_lt_reg_r with (sin d); [done|].
    unfold Rdiv. rewrite Rmult_assoc, Rinv_l by lra. lra. }
  apply atan_increasing in Htan.
  rewrite atan_tan in Htan; [exact Htan|]. split; lra.
Qed.

Lemma atan_abs_le v S : (Rabs v <= S -> Rabs (atan v) <= atan S)%R.
Proof.
  intros Hv. apply Rabs_le_inv in Hv. apply Rabs_le. split.
  - rewrite <- atan_opp. apply atan_le. lra.
  - apply atan_le. lra.
Qed.

Lemma powerRZ_2_IZR z : 0 <= z -> powerRZ 2 z = IZR (2 ^ z).
Proof.
  intros Hz. rewrite <- (Z2Nat.id z Hz) at 1 2.
  by rewrite <- pow_powerRZ, pow_IZR.
Qed.

(** ** Doubles

    Facts about rounding, and what they give for [Float64.tileToGeo]. *)

Module Float64Facts.
Import Float64.

(** *** Powers of two *)
Lemma pow2_pos e : (0 < 2 ^ e)%Q.
Proof. by apply Qpower_0_lt. Qed.

Lemma pow2_add a b : (2 ^ (a + b) == 2 ^ a * 2 ^ b)%Q.
Proof. by apply Qpower_plus. Qed.

Lemma pow2_lt a b : a < b -> (2 ^ a < 2 ^ b)%Q.
Proof. intros H. by apply Qpower_lt_compat_l. Qed.

Lemma pow2_le a b : a <= b -> (2 ^ a <= 2 ^ b)%Q.
Proof. intros H. by apply Qpower_le_compat_l. Qed.

Lemma pow2_lt_inv a b : (2 ^ a < 2 ^ b)%Q -> a < b.
Proof. intros H. by apply Qpower_lt_compat_l_inv in H. Qed.

Lemma pow2_inject k : 0 <= k -> (inject_Z (2 ^ k) == 2 ^ k)%Q.
Proof. intros H. by rewrite Zpower_Qpower. Qed.

Lemma pow2_sub_mul a b : (2 ^ (a - b) * 2 ^ b == 2 ^ a)%Q.
Proof. rewrite <- pow2_add. by replace (a - b + b) with a by lia. Qed.

(** *** The binary exponent *)
Lemma binade_spec q : ~ (q == 0)%Q ->
  (2 ^ binade q <= Qabs q < 2 ^ (binade q + 1))%Q.
Proof.
  intros Hq. destruct q as [a b]. unfold binade. cbn [Qnum Qden].
  assert (a <> 0) as Ha.
  { intros ->. apply Hq. reflexivity. }
  set (la := Z.log2 (Z.abs a)). set (lb := Z.log2 (Z.pos b)).
  assert (0 < Z.abs a) as Hapos by lia.
  destruct (Z.log2_spec (Z.abs a) Hapos) as [Ha1 Ha2]. fold la in Ha1, Ha2.
  destruct (Z.log2_spec (Z.pos b) ltac:(lia)) as [Hb1 Hb2]. fold lb in Hb1, Hb2.
  assert (0 <= la) as Hla by apply Z.log2_nonneg.
  assert (0 <= lb) as Hlb by apply Z.log2_nonneg.
  assert (Qabs (a # b) == inject_Z (Z.abs a) / inject_Z (Z.pos b))%Q as Eabs.
  { simpl. by rewrite Qmake_Qdiv. }
  assert (0 < inject_Z (Z.pos b))%Q as HB by (rewrite <- (Zlt_Qlt 0); lia).
  assert (2 ^ la <= inject_Z (Z.abs a))%Q as A1.
  { rewrite <- pow2_inject by done. by rewrite <- Zle_Qle. }
  assert (inject_Z (Z.abs a) < 2 ^ (la + 1))%Q as A2.
  { rewrite <- pow2_inject by lia. rewrite <- Zlt_Qlt. by rewrite <- Z.add_1_r in Ha2. }
  assert (2 ^ lb <= inject_Z (Z.pos b))%Q as B1.
  { rewrite <- pow2_inject by done. by rewrite <- Zle_Qle. }
  assert (inject_Z (Z.pos b) < 2 ^ (lb + 1))%Q as B2.
  { rewrite <- pow2_inject by lia. rewrite <- Zlt_Qlt. by rewrite <- Z.add_1_r in Hb2. }
  (* lower and upper bounds of the quotient *)
  assert (2 ^ (la - lb - 1) <= Qabs (a # b))%Q as L.
  { rewrite Eabs. apply Qle_shift_div_l; [done|].
    apply Qle_trans with (2 ^ (la - lb - 1) * 2 ^ (lb + 1))%Q.
    - apply Qmult_le_l; [apply pow2_pos|]. by apply Qlt_le_weak.
    - rewrite <- pow2_add. by replace (la - lb - 1 + (lb + 1)) with la by lia. }
  assert (Qabs (a # b) < 2 ^ (la - lb + 1))%Q as U.
  { rewrite Eabs. apply Qlt_shift_div_r; [done|].
    apply Qlt_le_trans with (2 ^ (la + 1))%Q; [done|].
    replace (la + 1) with (la - lb + 1 + lb) by lia. rewrite pow2_add.
    apply Qmult_le_l; [apply pow2_pos|done]. }
  destruct (Qle_bool (2 ^ (la - lb)) (Qabs (a # b))) eqn:E.
  - apply Qle_bool_iff in E. split; done.
  - split; [done|]. replace (la - lb - 1 + 1) with (la - lb) by lia.
    apply Qnot_le_lt. intros H. apply Qle_bool_iff in H. congruence.
Qed.

Lemma binade_unique q k :
  (2 ^ k <= Qabs q < 2 ^ (k + 1))%Q -> binade q = k.
Proof.
  intros [H1 H2].
  assert (~ (q == 0)%Q) as Hq.
  { intros E. rewrite E in H1. pose proof (pow2_pos k).
    change (Qabs 0) with 0%Q in H1. qlra. }
  destruct (binade_spec q Hq) as [B1 B2].
  assert (2 ^ binade q < 2 ^ (k + 1))%Q as X by (eapply Qle_lt_trans; eauto).
  assert (2 ^ k < 2 ^ (binade q + 1))%Q as Y by (eapply Qle_lt_trans; eauto).
  apply pow2_lt_inv in X, Y. lia.
Qed.

(** *** Rounding to an integer *)
Lemma inject_Z_sub a b : (inject_Z (a - b) == inject_Z a - inject_Z b)%Q.
Proof. unfold Z.sub. rewrite inject_Z_plus, inject_Z_opp. reflexivity. Qed.

Lemma roundHalfEven_cases q :
  let f := Qfloor q in
  let r := (q - inject_Z f)%Q in
  (r < (1 # 2))%Q /\ roundHalfEven q = f \/
  ((1 # 2) < r)%Q /\ roundHalfEven q = f + 1 \/
  (r == (1 # 2))%Q /\ roundHalfEven q = (if Z.even f then f else f + 1).
Proof.
  intros f r. unfold roundHalfEven. fold f. fold r.
  destruct (Qltb r (1 # 2)) eqn:E1.
  - left. by apply Qltb_lt in E1.
  - apply Qltb_ge in E1. destruct (Qltb (1 # 2) r) eqn:E2.
    + right. left. by apply Qltb_lt in E2.
    + right. right. apply Qltb_ge in E2. split; [by apply Qle_antisym|done].
Qed.

Lemma roundHalfEven_le q k : (q < inject_Z k + (1 # 2))%Q -> roundHalfEven q <= k.
Proof.
  intros H. pose proof (Qfloor_le q) as Hf.
  assert (Qfloor q <= k) as Hk.
  { assert (inject_Z (Qfloor q) < inject_Z (k + 1))%Q as X.
    { rewrite inject_Z_plus. change (inject_Z 1) with 1%Q. qlra. }
    rewrite <- Zlt_Qlt in X. lia. }
  destruct (Z.eq_dec (Qfloor q) k) as [Ek|Ek].
  - destruct (roundHalfEven_cases q) as [[_ ->]|[[Hr _]|[Hr _]]]; [lia| |];
      rewrite Ek in Hr; qlra.
  - destruct (roundHalfEven_cases q) as [[_ ->]|[[_ ->]|[_ ->]]];
      [lia|lia|destruct (Z.even _); lia].
Qed.

Lemma roundHalfEven_ge q k : (inject_Z k - (1 # 2) < q)%Q -> k <= roundHalfEven q.
Proof.
  intros H. pose proof (Qlt_floor q) as Hf. rewrite inject_Z_plus in Hf.
  change (inject_Z 1) with 1%Q in Hf.
  assert (k - 1 <= Qfloor q) as Hk.
  { assert (inject_Z (k - 1) < inject_Z (Qfloor q + 1))%Q as X.
    { rewrite inject_Z_plus, inject_Z_sub. change (inject_Z 1) with 1%Q. qlra. }
    rewrite <- Zlt_Qlt in X. lia. }
  destruct (Z.eq_dec (Qfloor q) (k - 1)) as [Ek|Ek].
  - destruct (roundHalfEven_cases q) as [[Hr _]|[[_ ->]|[Hr _]]]; [|lia|];
      rewrite Ek, inject_Z_sub in Hr; change (inject_Z 1) with 1%Q in Hr; qlra.
  - destruct (roundHalfEven_cases q) as [[_ ->]|[[_ ->]|[_ ->]]];
      [lia|lia|destruct (Z.even _); lia].
Qed.

Lemma roundHalfEven_eq q k : (q == inject_Z k)%Q -> roundHalfEven q = k.
Proof.
  intros E. apply Z.le_antisymm.
  - apply roundHalfEven_le. qlra.
  - apply roundHalfEven_ge. qlra.
Qed.

Lemma roundHalfEven_opp q : roundHalfEven (- q) = - roundHalfEven q.
Proof.
  pose proof (Qfloor_le q) as Hlo. pose proof (Qlt_floor q) as Hhi.
  rewrite inject_Z_plus in Hhi. change (inject_Z 1) with 1%Q in Hhi.
  destruct (Qeq_dec q (inject_Z (Qfloor q))) as [E|N].
  - rewrite (roundHalfEven_eq q (Qfloor q) E).
    apply roundHalfEven_eq. rewrite inject_Z_opp. by rewrite <- E.
  - assert (inject_Z (Qfloor q) < q)%Q as Hlt.
    { apply Qle_lteq in Hlo as [H|H]; [done|]. exfalso. apply N. by symmetry. }
    assert (Qfloor (- q) = - Qfloor q - 1) as Ef.
    { apply Qfloor_unique.
      - rewrite inject_Z_sub, inject_Z_opp. change (inject_Z 1) with 1%Q. qlra.
      - replace (- Qfloor q - 1 + 1) with (- Qfloor q) by lia.
        rewrite inject_Z_opp. qlra. }
    assert (inject_Z (- Qfloor q - 1) == - inject_Z (Qfloor q) - 1)%Q as Ei.
    { by rewrite inject_Z_sub, inject_Z_opp. }
    destruct (roundHalfEven_cases q) as [[Hr ->]|[[Hr ->]|[Hr ->]]];
      destruct (roundHalfEven_cases (- q)) as [[Hr' ->]|[[Hr' ->]|[Hr' ->]]];
      rewrite Ef in *; rewrite ?Ei in Hr'; try lia; try qlra.
    rewrite <- Z.negb_odd.
    replace (- Qfloor q - 1) with (- (Qfloor q + 1)) by lia.
    rewrite Z.odd_opp, Z.odd_add. change (Z.odd 1) with true.
    rewrite <- Z.negb_even. destruct (Z.even (Qfloor q)); simpl; lia.
Qed.

#[local] Instance roundHalfEven_comp : Proper (Qeq ==> eq) roundHalfEven.
Proof.
  intros a b E. destruct (roundHalfEven_cases a) as [[Hr Ha]|[[Hr Ha]|[Hr Ha]]];
    destruct (roundHalfEven_cases b) as [[Hr' Hb]|[[Hr' Hb]|[Hr' Hb]]];
    rewrite Ha, Hb; rewrite <- (Qfloor_comp _ _ E) in *; rewrite <- E in Hr';
    try done; exfalso; qlra.
Qed.

(** *** Rounding is odd *)
Lemma binade_opp q : binade (- q) = binade q.
Proof.
  destruct q as [a b]. unfold binade, Qopp, Qabs. cbn [Qnum Qden].
  by rewrite !Z.abs_opp.
Qed.

Lemma round64_opp q : (round64 (- q) == - round64 q)%Q.
Proof.
  unfold round64. rewrite binade_opp.
  set (e := Z.max _ _).
  assert (- q / 2 ^ e == - (q / 2 ^ e))%Q as E.
  { field. pose proof (pow2_pos e). qlra. }
  rewrite E, roundHalfEven_opp, inject_Z_opp. ring.
Qed.

(** *** Rounding to a double *)
Lemma Qabs_dyadic M E : (Qabs (inject_Z M * 2 ^ E) == inject_Z (Z.abs M) * 2 ^ E)%Q.
Proof.
  rewrite Qabs_Qmult. rewrite (Qabs_pos (2 ^ E)) by (apply Qlt_le_weak, pow2_pos).
  reflexivity.
Qed.

Lemma representable_abs_lt c M E :
  Z.abs M < 2 ^ 53 -> (c == inject_Z M * 2 ^ E)%Q -> (Qabs c < 2 ^ (53 + E))%Q.
Proof.
  intros HM Ec. rewrite Ec, Qabs_dyadic, pow2_add.
  apply Qmult_lt_r; [apply pow2_pos|].
  rewrite <- pow2_inject by lia. by rewrite <- Zlt_Qlt.
Qed.

Lemma round64_zero q : (q == 0)%Q -> (round64 q == 0)%Q.
Proof.
  intros E. unfold round64. set (e := Z.max _ _).
  rewrite (roundHalfEven_eq _ 0); [ring|].
  rewrite E. change (inject_Z 0) with 0%Q. field.
  pose proof (pow2_pos e). qlra.
Qed.

Lemma round64_le q c : representable c -> (q <= c)%Q -> (round64 q <= c)%Q.
Proof.
  intros (M & E & HE & HM & Ec) Hq.
  destruct (Qeq_dec q 0) as [Hz|Hnz].
  { rewrite (round64_zero q Hz). by rewrite <- Hz. }
  unfold round64. set (e := Z.max _ _).
  pose proof (pow2_pos e) as He.
  destruct (Z_le_gt_dec e E) as [HeE|HeE].
  - assert (c == inject_Z (M * 2 ^ (E - e)) * 2 ^ e)%Q as Ec'.
    { rewrite inject_Z_mult, pow2_inject by lia.
      rewrite <- Qmult_assoc, pow2_sub_mul. exact Ec. }
    assert (roundHalfEven (q / 2 ^ e) <= M * 2 ^ (E - e)) as Hr.
    { apply roundHalfEven_le.
      assert (q / 2 ^ e <= inject_Z (M * 2 ^ (E - e)))%Q as X.
      { apply Qle_shift_div_r; [done|]. by rewrite <- Ec'. }
      qlra. }
    rewrite Ec'. apply Qmult_le_compat_r; [|by apply Qlt_le_weak].
    by rewrite <- Zle_Qle.
  - assert (e = binade q - 52) as Ee by lia.
    destruct (binade_spec q Hnz) as [B1 _].
    pose proof (representable_abs_lt c M E HM Ec) as Hc.
    assert (2 ^ (53 + E) <= 2 ^ binade q)%Q as Hp by (apply pow2_le; lia).
    assert (Qabs c < Qabs q)%Q as Hcq by qlra.
    pose proof (Qle_Qabs c) as Hc1. pose proof (Qle_Qabs (- c)) as Hc2.
    rewrite Qabs_opp in Hc2.
    destruct (Qlt_le_dec q 0) as [Hneg|Hpos].
    + rewrite (Qabs_neg q) in B1, Hcq by by apply Qlt_le_weak.
      assert (roundHalfEven (q / 2 ^ e) <= - 2 ^ 52) as Hr.
      { apply roundHalfEven_le.
        assert (q / 2 ^ e <= inject_Z (- 2 ^ 52))%Q as X.
        { apply Qle_shift_div_r; [done|].
          rewrite inject_Z_opp, pow2_inject by lia.
          assert (2 ^ 52 * 2 ^ e == 2 ^ binade q)%Q as X'.
          { rewrite <- pow2_add. by replace (52 + e) with (binade q) by lia. }
          qlra. }
        qlra. }
      apply Qle_trans with (inject_Z (- 2 ^ 52) * 2 ^ e)%Q.
      * apply Qmult_le_compat_r; [|by apply Qlt_le_weak]. by rewrite <- Zle_Qle.
      * rewrite inject_Z_opp, pow2_inject by lia.
        assert (2 ^ 52 * 2 ^ e == 2 ^ binade q)%Q as X.
        { rewrite <- pow2_add. by replace (52 + e) with (binade q) by lia. }
        qlra.
    + rewrite (Qabs_pos q) in Hcq by done. qlra.
Qed.

Lemma representable_opp c : representable c -> representable (- c).
Proof.
  intros (M & E & HE & HM & Ec). exists (- M), E.
  split; [done|]. split; [by rewrite Z.abs_opp|].
  rewrite inject_Z_opp, Ec. ring.
Qed.

Lemma round64_ge q c : representable c -> (c <= q)%Q -> (c <= round64 q)%Q.
Proof.
  intros Hc Hq. apply representable_opp in Hc.
  assert (- q <= - c)%Q as Hq' by qlra.
  pose proof (round64_le (- q) (- c) Hc Hq') as H.
  rewrite round64_opp in H. qlra.
Qed.

Lemma round64_exact q : representable q -> (round64 q == q)%Q.
Proof.
  intros Hq. apply Qle_antisym.
  - apply round64_le; [done|apply Qle_refl].
  - apply round64_ge; [done|apply Qle_refl].
Qed.

(** A value less than half a unit in the last place above a double rounds
    to that double at most. *)
Lemma round64_le_half q M E :
  -1074 <= E -> 2 ^ 52 <= M < 2 ^ 53 ->
  (q < (inject_Z M + (1 # 2)) * 2 ^ E)%Q ->
  (round64 q <= inject_Z M * 2 ^ E)%Q.
Proof.
  intros HE [HM1 HM2] Hq.
  pose proof (pow2_pos E) as HpE.
  destruct (Qlt_le_dec (inject_Z M * 2 ^ E) q) as [Hlt|Hle].
  - assert (2 ^ 52 <= inject_Z M)%Q as I1.
    { rewrite <- pow2_inject by lia. by rewrite <- Zle_Qle. }
    assert (inject_Z M + 1 <= 2 ^ 53)%Q as I2.
    { rewrite <- pow2_inject by lia. change 1%Q with (inject_Z 1).
      rewrite <- inject_Z_plus, <- Zle_Qle. lia. }
    assert (0 < q)%Q as Hpos.
    { eapply Qle_lt_trans; [|exact Hlt].
      apply Qmult_le_0_compat; [|by apply Qlt_le_weak].
      pose proof (pow2_pos 52). qlra. }
    assert (binade q = 52 + E) as Eb.
    { apply binade_unique. rewrite (Qabs_pos q) by by apply Qlt_le_weak. split.
      - rewrite pow2_add. apply Qle_trans with (inject_Z M * 2 ^ E)%Q.
        + by apply Qmult_le_compat_r; [|apply Qlt_le_weak].
        + by apply Qlt_le_weak.
      - replace (52 + E + 1) with (53 + E) by lia. rewrite pow2_add.
        eapply Qlt_le_trans; [exact Hq|].
        apply Qmult_le_compat_r; [qlra|by apply Qlt_le_weak]. }
    unfold round64. rewrite Eb.
    replace (Z.max (52 + E - 52) (-1074)) with E by lia.
    apply Qmult_le_compat_r; [|by apply Qlt_le_weak].
    rewrite <- Zle_Qle. apply roundHalfEven_le.
    apply Qlt_shift_div_r; [done|exact Hq].
  - apply round64_le; [|done]. exists M, E. split; [done|]. split; [lia|reflexivity].
Qed.

(** *** The longitude *)

Ltac push_inject :=
  repeat first [rewrite inject_Z_mult | rewrite inject_Z_plus
               | rewrite inject_Z_sub | rewrite inject_Z_opp].

Lemma round64_eq q c : representable c -> (q == c)%Q -> (round64 q == c)%Q.
Proof.
  intros Hc E. apply Qle_antisym.
  - apply round64_le; [done|]. rewrite E. apply Qle_refl.
  - apply round64_ge; [done|]. rewrite E. apply Qle_refl.
Qed.

Lemma representable_dyadic M E :
  -1074 <= E -> Z.abs M < 2 ^ 53 -> representable (inject_Z M * 2 ^ E).
Proof. intros HE HM. exists M, E. split; [done|]. split; [done|reflexivity]. Qed.

(** [x + 0.5] for an index below [2^52]. *)
Lemma add_half x :
  0 <= x < 2 ^ 52 -> (add (inject_Z x) 0.5 == inject_Z (2 * x + 1) * 2 ^ (-1))%Q.
Proof.
  intros Hx. unfold add. apply round64_eq.
  - apply representable_dyadic; lia.
  - rewrite inject_Z_plus, inject_Z_mult.
    change (inject_Z 2) with 2%Q. change (inject_Z 1) with 1%Q.
    change (2 ^ (-1))%Q with (1 # 2). ring.
Qed.

(** [(x + 0.5) / n]: the centre of the tile as a fraction of the map. *)
Lemma center_fraction x z :
  0 <= z <= 52 -> 0 <= x < 2 ^ z ->
  (div (add (inject_Z x) 0.5) (Math_pow2 z)
   == inject_Z (2 * x + 1) * 2 ^ (-1 - z))%Q.
Proof.
  intros Hz Hx.
  assert (2 ^ z <= 2 ^ 52) as Hp by (apply Z.pow_le_mono_r; lia).
  unfold div. apply round64_eq.
  - apply representable_dyadic; lia.
  - rewrite add_half by lia. unfold Math_pow2.
    replace (-1 - z) with (-1 + - z) by lia. rewrite pow2_add, Qpower_opp.
    field. pose proof (pow2_pos z). qlra.
Qed.

Lemma representable_Z k : Z.abs k < 2 ^ 53 -> representable (inject_Z k).
Proof.
  intros Hk. exists k, 0. split; [lia|]. split; [done|].
  change (2 ^ 0)%Q with 1%Q. ring.
Qed.

Lemma center_fraction_bounds x z :
  0 <= z <= 52 -> 0 <= x < 2 ^ z ->
  (0 < inject_Z (2 * x + 1) * 2 ^ (-1 - z) <= 1 - 2 ^ (-53))%Q.
Proof.
  intros Hz Hx. pose proof (pow2_pos (-1 - z)) as Hp. split.
  - apply Qmult_lt_0_compat; [|done]. rewrite <- (Zlt_Qlt 0). lia.
  - assert (inject_Z (2 * x + 1) <= 2 ^ (z + 1) - 1)%Q as H1.
    { rewrite <- pow2_inject by lia. change 1%Q with (inject_Z 1).
      rewrite <- inject_Z_sub, <- Zle_Qle.
      rewrite Z.pow_add_r by lia. lia. }
    assert (2 ^ (z + 1) * 2 ^ (-1 - z) == 1)%Q as H2.
    { rewrite <- pow2_add. by replace (z + 1 + (-1 - z)) with 0 by lia. }
    assert (2 ^ (-53) <= 2 ^ (-1 - z))%Q as H3 by (apply pow2_le; lia).
    assert (inject_Z (2 * x + 1) * 2 ^ (-1 - z)
            <= (2 ^ (z + 1) - 1) * 2 ^ (-1 - z))%Q as H4.
    { apply Qmult_le_compat_r; [done|by apply Qlt_le_weak]. }
    qlra.
Qed.

(** The longitude [tileToGeo] returns, up to zoom 52. *)
Lemma centerLonDeg_range x z :
  0 <= z <= 52 -> 0 <= x < 2 ^ z ->
  (-180 <= centerLonDeg x z < 180)%Q.
Proof.
  intros Hz Hx. unfold centerLonDeg. cbv zeta.
  pose proof (center_fraction x z Hz Hx) as Ep.
  pose proof (center_fraction_bounds x z Hz Hx) as [P0 P1].
  set (p := div _ _) in *. rewrite <- Ep in P0, P1.
  change (2 ^ (-53))%Q with (1 # 9007199254740992) in P1.
  assert (0 <= mul p 360.0)%Q as V0.
  { apply round64_ge; [by apply (representable_Z 0)|]. qlra. }
  assert (mul p 360.0 <= inject_Z (360 * 2 ^ 44 - 1) * 2 ^ (-44))%Q as V1.
  { apply round64_le_half; [lia|lia|].
    change (2 ^ (-44))%Q with (1 # 17592186044416).
    change (inject_Z (360 * 2 ^ 44 - 1)) with (6333186975989759 # 1).
    qlra. }
  change (2 ^ (-44))%Q with (1 # 17592186044416) in V1.
  change (inject_Z (360 * 2 ^ 44 - 1)) with (6333186975989759 # 1) in V1.
  set (v := mul p 360.0) in *.
  split.
  - apply round64_ge; [by apply (representable_Z (-180))|].
    change (inject_Z (-180)) with (-180 # 1). qlra.
  - apply Qle_lt_trans with (inject_Z (180 * 2 ^ 44 - 1) * 2 ^ (-44))%Q.
    + apply round64_le; [apply representable_dyadic; lia|].
      change (2 ^ (-44))%Q with (1 # 17592186044416).
      change (inject_Z (180 * 2 ^ 44 - 1)) with (3166593487994879 # 1).
      qlra.
    + change (2 ^ (-44))%Q with (1 # 17592186044416).
      change (inject_Z (180 * 2 ^ 44 - 1)) with (3166593487994879 # 1).
      qlra.
Qed.

(** Up to zoom 46 every step of the longitude is exact. *)
Lemma centerLonDeg_exact x z :
  0 <= z <= 46 -> 0 <= x < 2 ^ z ->
  (centerLonDeg x z == (inject_Z x + (1 # 2)) / 2 ^ z * 360 - 180)%Q.
Proof.
  intros Hz Hx. unfold centerLonDeg. cbv zeta.
  pose proof (center_fraction x z ltac:(lia) Hx) as Ep.
  set (p := div _ _) in *.
  assert (2 ^ z <= 2 ^ 46) as Hp by (apply Z.pow_le_mono_r; lia).
  assert (2 ^ (2 - z) == 8 * 2 ^ (-1 - z))%Q as E8.
  { replace (2 - z) with (3 + (-1 - z)) by lia. by rewrite pow2_add. }
  assert (2 ^ z * 2 ^ (-1 - z) == 1 # 2)%Q as Ez.
  { rewrite <- pow2_add. by replace (z + (-1 - z)) with (-1) by lia. }
  assert (mul p 360.0 == inject_Z ((2 * x + 1) * 45) * 2 ^ (2 - z))%Q as Ev.
  { unfold mul. apply round64_eq.
    - apply representable_dyadic; lia.
    - rewrite Ep, E8, inject_Z_mult. change (inject_Z 45) with 45%Q. ring. }
  assert (sub (mul p 360.0) 180.0
          == inject_Z (45 * (2 * x + 1 - 2 ^ z)) * 2 ^ (2 - z))%Q as El.
  { unfold sub. apply round64_eq.
    - apply representable_dyadic; lia.
    - rewrite Ev, E8. push_inject. rewrite pow2_inject by lia.
      change (inject_Z 45) with 45%Q. change (inject_Z 2) with 2%Q.
      change (inject_Z 1) with 1%Q.
      assert (180.0 == 360 * (2 ^ z * 2 ^ (-1 - z)))%Q as -> by (by rewrite Ez).
      ring. }
  rewrite El, E8. push_inject. rewrite pow2_inject by lia.
  change (inject_Z 45) with 45%Q. change (inject_Z 2) with 2%Q.
  change (inject_Z 1) with 1%Q.
  assert (/ 2 ^ z == 2 * 2 ^ (-1 - z))%Q as Ei.
  { apply Qmult_inj_l with (2 ^ z)%Q; [pose proof (pow2_pos z); qlra|].
    rewrite Qmult_inv_r by (pose proof (pow2_pos z); qlra). qlra. }
  unfold Qdiv. rewrite Ei. revert Ez.
  generalize (2 ^ (-1 - z))%Q (2 ^ z)%Q. intros b a Ez.
  assert (45 * (2 * inject_Z x + 1 - a) * (8 * b)
          == (inject_Z x + (1 # 2)) * (2 * b) * 360 - 360 * (a * b))%Q
    as -> by ring.
  rewrite Ez. ring.
Qed.

(** *** The latitude *)

Lemma Math_PI_representable : representable Math_PI.
Proof.
  exists 7074237752028440, (-51). split; [lia|]. split; [by vm_compute|].
  vm_compute. reflexivity.
Qed.

(** [1 - 2 * centerY / n], the height of the tile centre on the square map. *)
Lemma mercator_fraction y z :
  0 <= z <= 52 -> 0 <= y < 2 ^ z ->
  (sub 1 (div (mul 2 (add (inject_Z y) 0.5)) (Math_pow2 z))
   == inject_Z (2 ^ z - 2 * y - 1) * 2 ^ (- z))%Q.
Proof.
  intros Hz Hy.
  assert (2 ^ z <= 2 ^ 52) as Hp by (apply Z.pow_le_mono_r; lia).
  assert (mul 2 (add (inject_Z y) 0.5) == inject_Z (2 * y + 1))%Q as E1.
  { unfold mul. apply round64_eq; [apply representable_Z; lia|].
    rewrite add_half by lia. change (2 ^ (-1))%Q with (1 # 2). ring. }
  assert (div (mul 2 (add (inject_Z y) 0.5)) (Math_pow2 z)
          == inject_Z (2 * y + 1) * 2 ^ (- z))%Q as E2.
  { unfold div. apply round64_eq; [apply representable_dyadic; lia|].
    rewrite E1. unfold Math_pow2. rewrite Qpower_opp. reflexivity. }
  unfold sub. apply round64_eq; [apply representable_dyadic; lia|].
  rewrite E2. push_inject. rewrite pow2_inject by lia.
  assert (2 ^ z * 2 ^ (- z) == 1)%Q as Ez.
  { rewrite <- pow2_add. by replace (z + - z) with 0 by lia. }
  change (inject_Z 2) with 2%Q. change (inject_Z 1) with 1%Q.
  rewrite <- Ez at 1. ring.
Qed.

Lemma sinhArgument_range y z :
  0 <= z <= 52 -> 0 <= y < 2 ^ z ->
  (- Math_PI <= sinhArgument y z <= Math_PI)%Q.
Proof.
  intros Hz Hy. unfold sinhArgument. cbv zeta.
  pose proof (mercator_fraction y z Hz Hy) as Et.
  set (t := sub 1 _) in *.
  assert (-1 <= t <= 1)%Q as [T0 T1].
  { rewrite Et. pose proof (pow2_pos (- z)) as Hp.
    assert (2 ^ z * 2 ^ (- z) == 1)%Q as Ez.
    { rewrite <- pow2_add. by replace (z + - z) with 0 by lia. }
    assert (- 2 ^ z <= inject_Z (2 ^ z - 2 * y - 1) <= 2 ^ z)%Q as [A B].
    { rewrite <- pow2_inject by lia. rewrite <- inject_Z_opp, <- !Zle_Qle. lia. }
    apply (Qmult_le_compat_r _ _ (2 ^ (- z))) in A; [|by apply Qlt_le_weak].
    apply (Qmult_le_compat_r _ _ (2 ^ (- z))) in B; [|by apply Qlt_le_weak].
    split; qlra. }
  assert (0 < Math_PI)%Q as Hpi by reflexivity.
  split.
  - apply round64_ge; [apply representable_opp, Math_PI_representable|].
    generalize dependent Math_PI. intros. Lqa.nra.
  - apply round64_le; [apply Math_PI_representable|].
    generalize dependent Math_PI. intros. Lqa.nra.
Qed.

Lemma Q2R_make a b : Q2R (a # b) = (IZR a / IZR (Z.pos b))%R.
Proof. reflexivity. Qed.

Lemma accurate_bound F f d B :
  accurate platformTolerance F f d -> (Rabs (f (Q2R d)) <= B)%R ->
  (Rabs (Q2R (F d)) <= (1 + 1 / 1000000) * B)%R.
Proof.
  unfold accurate, platformTolerance. rewrite Q2R_make. intros H HB.
  pose proof (Rabs_triang_inv (Q2R (F d)) (f (Q2R d))) as Ht.
  pose proof (Rabs_pos (f (Q2R d))) as Hp. lra.
Qed.

(** The latitude [tileToGeo] returns, up to zoom 52, on a platform whose
    [Math.sinh] and [Math.atan] are accurate to one part in a million. *)
Lemma centerLatDeg_range Math_sinh Math_atan y z :
  0 <= z <= 52 -> 0 <= y < 2 ^ z ->
  accurate platformTolerance Math_sinh sinh (sinhArgument y z) ->
  accurate platformTolerance Math_atan atan (Math_sinh (sinhArgument y z)) ->
  (- (8506 # 100) <= centerLatDeg Math_sinh Math_atan y z <= 8506 # 100)%Q.
Proof.
  intros Hz Hy Hsinh Hatan.
  destruct (sinhArgument_range y z Hz Hy) as [U0 U1].
  set (u := sinhArgument y z) in *.
  assert (Rabs (Q2R u) <= 31416 / 10000)%R as Hu.
  { apply Qle_Rle in U0, U1. rewrite Q2R_opp in U0.
    assert (Q2R Math_PI <= 31416 / 10000)%R as Hpi.
    { assert (Math_PI <= 31416 # 10000)%Q as H by (by vm_compute).
      apply Qle_Rle in H. by rewrite (Q2R_make 31416) in H. }
    apply Rabs_le. lra. }
  pose proof (accurate_bound _ _ _ _ Hsinh (sinh_bound _ Hu)) as Hs.
  set (s := Math_sinh u) in *.
  rewrite Rmult_comm in Hs.
  pose proof (accurate_bound _ _ _ _ Hatan (atan_abs_le _ _ Hs)) as Ha.
  pose proof atan_upper as Hup.
  set (a := Math_atan s) in *.
  assert (- (68409 # 46080) <= a <= 68409 # 46080)%Q as [A0 A1].
  { assert (Rabs (Q2R a) <= 68409 / 46080)%R as H.
    { eapply Rle_trans; [exact Ha|].
      set (A := atan _) in *.
      assert (68409 / 46080 / (1 + 1 / 1000000) * (1 + 1 / 1000000) = 68409 / 46080)%R
        as E by (field; lra).
      generalize dependent (68409 / 46080 / (1 + 1 / 1000000))%R. intros t Ht Et.
      lra. }
    apply Rabs_le_inv in H. rewrite <- (Q2R_make 68409 46080) in H.
    rewrite <- Q2R_opp in H. destruct H as [H0 H1].
    by apply Rle_Qle in H0, H1. }
  unfold centerLatDeg. cbv zeta. fold u. fold s. fold a.
  assert (- (68409 # 256) <= mul a 180.0 <= 68409 # 256)%Q as [W0 W1].
  { assert (representable (68409 # 256)) as Hr.
    { exists 68409, (-8). split; [lia|]. split; [by vm_compute|by vm_compute]. }
    split.
    - apply round64_ge; [by apply representable_opp|]. qlra.
    - apply round64_le; [done|]. qlra. }
  set (w := mul a 180.0) in *.
  assert (0 < Math_PI)%Q as Hpi by reflexivity.
  assert (68409 # 256 <= (348405 # 4096) * Math_PI)%Q as Hnum by (by vm_compute).
  assert (representable (348405 # 4096)) as Hr.
  { exists 348405, (-12). split; [lia|]. split; [by vm_compute|by vm_compute]. }
  split.
  - apply Qle_trans with (- (348405 # 4096))%Q; [by vm_compute|].
    apply round64_ge; [by apply representable_opp|].
    apply Qle_shift_div_l; [done|]. qlra.
  - apply Qle_trans with (348405 # 4096)%Q; [|by vm_compute].
    apply round64_le; [done|].
    apply Qle_shift_div_r; [done|]. qlra.
Qed.

(** *** The longitudes of a row *)
Lemma centerLonDeg_step x z :
  0 <= z <= 46 -> 0 <= x -> x + 1 < 2 ^ z ->
  (centerLonDeg (x + 1) z - centerLonDeg x z == 360 / 2 ^ z)%Q.
Proof.
  intros Hz H0 Hx.
  rewrite !centerLonDeg_exact by lia.
  rewrite inject_Z_plus. change (inject_Z 1) with 1%Q.
  field. pose proof (pow2_pos z). qlra.
Qed.

Lemma centerLonDeg_increasing z x1 x2 :
  0 <= z <= 46 -> 0 <= x1 -> x1 < x2 -> x2 < 2 ^ z ->
  (centerLonDeg x1 z < centerLonDeg x2 z)%Q.
Proof.
  intros Hz H0 H12 H2. rewrite !centerLonDeg_exact by lia.
  pose proof (pow2_pos z) as Hp.
  assert (inject_Z x1 < inject_Z x2)%Q as Hx by (by rewrite <- Zlt_Qlt).
  assert (0 < / 2 ^ z)%Q as Hi by (by apply Qinv_lt_0_compat).
  unfold Qdiv. generalize dependent (/ 2 ^ z)%Q. intros i Hi.
  Lqa.nra.
Qed.

Lemma centerLonDeg_mirror x z :
  0 <= z <= 46 -> 0 <= x < 2 ^ z ->
  (centerLonDeg (2 ^ z - 1 - x) z == - centerLonDeg x z)%Q.
Proof.
  intros Hz Hx. rewrite !centerLonDeg_exact by lia.
  push_inject. rewrite pow2_inject by lia. change (inject_Z 1) with 1%Q.
  field. pose proof (pow2_pos z). qlra.
Qed.

Lemma centerLonDeg_children x z :
  0 <= z < 46 -> 0 <= x < 2 ^ z ->
  (centerLonDeg x z
   == (centerLonDeg (2 * x) (z + 1) + centerLonDeg (2 * x + 1) (z + 1)) / 2)%Q.
Proof.
  intros Hz Hx.
  assert (2 ^ (z + 1) = 2 * 2 ^ z) as Ep by (rewrite Z.pow_add_r by lia; lia).
  rewrite !centerLonDeg_exact by lia.
  push_inject. rewrite pow2_add. change (2 ^ 1)%Q with 2%Q.
  change (inject_Z 2) with 2%Q. change (inject_Z 1) with 1%Q.
  field. pose proof (pow2_pos z). qlra.
Qed.

Lemma centerLonDeg_zoom53_equal :
  (centerLonDeg (2 ^ 53 - 3) 53 == centerLonDeg (2 ^ 53 - 2) 53)%Q.
Proof. vm_compute. reflexivity. Qed.

Lemma centerLonDeg_zoom53_mirror :
  (centerLonDeg (2 ^ 53 - 1) 53 == 180)%Q /\
  (- centerLonDeg 0 53 == 180 - 2 ^ (-45))%Q.
Proof. split; vm_compute; reflexivity. Qed.
Lemma centerLonDeg_zoom52_children :
  (centerLonDeg (2 ^ 52 - 1) 52 == 180 - 2 ^ (-44))%Q /\
  ((centerLonDeg (2 ^ 53 - 2) 53 + centerLonDeg (2 ^ 53 - 1) 53) / 2 == 180 - 2 ^ (-45))%Q.
Proof. split; vm_compute; reflexivity. Qed.

End Float64Facts.

Lemma Q2R_inject_Z k : Q2R (inject_Z k) = IZR k.
Proof. unfold Q2R. simpl. lra. Qed.

Lemma Q2R_pow2 z : 0 <= z -> Q2R (2 ^ z) = powerRZ 2 z.
Proof.
  intros Hz. rewrite powerRZ_2_IZR by done.
  rewrite <- Q2R_inject_Z. apply Qeq_eqR. by rewrite Float64Facts.pow2_inject.
Qed.

(** Up to zoom 46 the longitude computed in doubles is the number the
    formula gives. *)
Lemma centerLonDeg_formula x y z :
  0 <= z <= 46 -> 0 <= x < 2 ^ z ->
  Q2R (Float64.centerLonDeg x z) = lon (tileToGeo x y z).
Proof.
  intros Hz Hx.
  rewrite (Qeq_eqR _ _ (Float64Facts.centerLonDeg_exact x z Hz Hx)).
  unfold tileToGeo. cbn [lon].
  assert (~ (2 ^ z == 0)%Q) as Hn by (pose proof (Float64Facts.pow2_pos z); qlra).
  rewrite Q2R_minus, Q2R_mult, Q2R_div, Q2R_plus, Q2R_inject_Z, Q2R_pow2 by (done || lia).
  rewrite (Float64Facts.Q2R_make 1 2), (Float64Facts.Q2R_make 360 1),
    (Float64Facts.Q2R_make 180 1). lra.
Qed.

(** * The claims *)

(** C1.  The claim fails on the code.  Two calls of [update] without a
    completion in between: the first starts the four nearest tiles, among them
    slot [(0, 4)]; the second finds that slot neither loaded nor in the queue
    and enqueues it again, at the head.  When the fetch of another slot then
    fails, [processQueue] starts slot [(0, 4)] a second time while its first
    fetch is still pending. *)
Theorem duplicate_dispatch_trace :
  exists m m',
    run [Update (-180); Update (-180)] (new_TileManager SAT) = Some m /\
    TileRequest.slot <$> inflight m = [(0, 4); (0, 5); (0, 3); (0, 6)] /\
    loadState m 0 4 = Queued /\
    TileRequest.slot <$> take 4 (queue m) = [(0, 4); (0, 5); (0, 3); (0, 6)] /\
    settle 3 Rejected m = Some m' /\
    TileRequest.slot <$> inflight m' = [(0, 4); (0, 5); (0, 3); (0, 4)] /\
    ~ NoDup (TileRequest.slot <$> inflight m') /\
    dispatchedQueued m 3 Rejected.
Proof.
  eexists. eexists.
  split; [vm_compute; reflexivity|].
  split; [vm_compute; reflexivity|].
  split; [vm_compute; reflexivity|].
  split; [vm_compute; reflexivity|].
  split; [vm_compute; reflexivity|].
  split; [vm_compute; reflexivity|].
  split.
  - intros H. vm_compute in H. apply NoDup_cons in H as [H _].
    apply H. repeat first [by apply elem_of_cons; left | apply elem_of_cons; right].
  - eexists. eexists. exists 0, 4.
    split; [vm_compute; reflexivity|].
    split; [vm_compute; instantiate (1 := [_]); reflexivity|].
    split; [vm_compute; by apply elem_of_cons; left|].
    split; [vm_compute; by apply elem_of_cons; left|].
    vm_compute. reflexivity.
Qed.

(** C2. Monotonic loaded state and progress.  From any reachable state and
    along any further execution (calls of [update], of [destroy], of
    [loadBaseLayer] and completions of fetches, in any order), a slot that is
    [Loaded] stays [Loaded], a flag of [tilesLoaded] that is set stays set,
    and [getProgress] does not decrease. *)
Theorem loaded_monotonic m es m' :
  reachable m -> run es m = Some m' ->
  (forall x y, loadState m x y = Loaded -> loadState m' x y = Loaded) /\
  (forall i, truthy_at (tilesLoaded m) i = true ->
             truthy_at (tilesLoaded m') i = true) /\
  getProgress m <= getProgress m'.
Proof.
  intros Hr E. apply wf_reachable in Hr.
  pose proof (flagsGrow_run es m m' Hr E) as Hg.
  split; [|split].
  - intros x y. rewrite !loadState_Loaded. apply Hg.
  - apply Hg.
  - by apply getProgress_mono.
Qed.

Lemma loaded_monotonic_witness :
  exists m m',
    run [Update 0; Settle 0 (Resolved 1%nat)] (new_TileManager SAT) = Some m /\
    run [Update 90; Settle 2 Rejected; Settle 0 (Resolved 2%nat)] m = Some m' /\
    loadState m 4 4 = Loaded /\ loadState m' 4 4 = Loaded /\
    getProgress m <= getProgress m'.
Proof.
  eexists. eexists.
  split; [vm_compute; reflexivity|].
  split; [vm_compute; reflexivity|].
  split; [vm_compute; reflexivity|].
  match goal with |- loadState ?b _ _ = _ /\ getProgress ?a <= _ =>
    assert (reachable a) as Hr
      by (exists SAT, [Update 0; Settle 0 (Resolved 1%nat)]; vm_compute; reflexivity);
    assert (run [Update 90; Settle 2 Rejected; Settle 0 (Resolved 2%nat)] a = Some b)
      as E by (vm_compute; reflexivity);
    destruct (loaded_monotonic a _ b Hr E) as (H1 & _ & H3)
  end.
  split; [|exact H3].
  apply H1. vm_compute. reflexivity.
Defined.

(** C3. Concurrency bound.  In every state an execution of a new manager
    reaches, [activeRequests] is the number of pending tile fetches and it is
    at most [MAX_CONCURRENT_REQUESTS], which is 4, whatever the length of the
    queue. *)
Theorem concurrency_bound type es m :
  run es (new_TileManager type) = Some m ->
  MAX_CONCURRENT_REQUESTS = 4 /\
  activeRequests m = Z.of_nat (length (inflight m)) /\
  activeRequests m <= MAX_CONCURRENT_REQUESTS.
Proof.
  intros E. assert (wf m) as Hwf by (eapply wf_run; [apply wf_new|exact E]).
  split; [reflexivity|]. split; [apply Hwf|apply Hwf].
Qed.

Lemma concurrency_bound_witness :
  exists m,
    run [Update 0; Update 10; Settle 1 Rejected; Update 20] (new_TileManager MAP)
      = Some m /\
    length (queue m) = 64%nat /\
    activeRequests m = Z.of_nat (length (inflight m)) /\
    activeRequests m <= MAX_CONCURRENT_REQUESTS.
Proof.
  eexists. split; [vm_compute; reflexivity|].
  split; [vm_compute; reflexivity|].
  apply (fun H => proj2 (concurrency_bound MAP
           [Update 0; Update 10; Settle 1 Rejected; Update 20] _ H)).
  vm_compute. reflexivity.
Defined.

(** C4. Admission filter.  A request that [update] adds to the queue is for a
    slot whose flag is not set and whose wrapped horizontal distance from the
    viewpoint is below [numTilesX / 2 + 1].  The guard is a strict comparison:
    it holds exactly below that bound and fails at the bound itself.  Every
    request that is pending or in the queue of a reachable state passed this
    guard at the viewpoint of the [update] that built it, so no slot is
    fetched without having been inside the window. *)
Theorem admission_filter l m :
  (forall r, r ∈ pendingQueue l m -> r ∉ queue m ->
     truthy_at (tilesLoaded m) (slotIndex (TileRequest.x r) (TileRequest.y r)) = false /\
     (distBoxX (centerXOf l) (TileRequest.x r) < inject_Z numTilesX / 2 + 1)%Q) /\
  (forall d, closeToView d = true <-> (d < inject_Z numTilesX / 2 + 1)%Q) /\
  closeToView (inject_Z numTilesX / 2 + 1) = false /\
  (reachable m -> forall r, r ∈ queue m ++ inflight m ->
     exists l0,
       (distBoxX (centerXOf l0) (TileRequest.x r) < inject_Z numTilesX / 2 + 1)%Q /\
       r = requestFor (mapType m) (centerXOf l0) (TileRequest.x r) (TileRequest.y r)).
Proof.
  split; [|split; [|split]].
  - intros r Hr Hn. apply pendingQueue_elem in Hr as [Hr|Hr]; [done|].
    destruct Hr as (_ & _ & Hl & Hc & _). split; [done|].
    by apply closeToView_lt.
  - apply closeToView_lt.
  - reflexivity.
  - intros Hr r Hin. apply provenance_reachable in Hr as [Hq Hf].
    rewrite Forall_forall in Hq, Hf.
    assert (madeBy (mapType m) r) as (l0 & Hr & Hc).
    { apply elem_of_app in Hin as [H|H]; auto. }
    exists l0. split; [by apply closeToView_lt|done].
Qed.

Lemma admission_filter_witness :
  truthy_at (tilesLoaded (new_TileManager SAT)) (slotIndex 2 3) = false /\
  (distBoxX (centerXOf 90) 2 < inject_Z numTilesX / 2 + 1)%Q.
Proof.
  apply (proj1 (admission_filter 90 (new_TileManager SAT))
           (requestFor SAT (centerXOf 90) 2 3)).
  - elem_by_compute.
  - apply not_elem_of_nil.
Defined.

(** C5.  The claim fails on the code.  [update] adds requests for the slots
    that have no entry and leaves the entries the queue holds as they are, so
    after a change of viewpoint the queue is ordered by the priorities of the
    old viewpoint.  A new manager, [update(-180)] and then [update(0)]: the
    camera now faces column 4, but the entry of slot [(4, 4)], whose priority
    for this viewpoint is 1/4, still carries 17/4 and is the 47th of the 64
    entries, while the head of the queue is slot [(0, 2)] on the far side,
    with 5/4 where this viewpoint gives 21/4.  The four slots in flight have
    entries too.  The numbers [update] computes in this execution are
    integers and multiples of 1/4 below 8, which doubles hold exactly. *)
Theorem stale_priority_trace :
  exists m head facing,
    run [Update (-180); Update 0] (new_TileManager SAT) = Some m /\
    (centerXOf 0 == 4)%Q /\
    length (queue m) = 64%nat /\
    queue m !! 0%nat = Some head /\
    TileRequest.slot head = (0, 2) /\
    (TileRequest.dist head == 5 # 4)%Q /\
    (distOf (centerXOf 0) 0 2 == 21 # 4)%Q /\
    queue m !! 46%nat = Some facing /\
    TileRequest.slot facing = (4, 4) /\
    (TileRequest.dist facing == 17 # 4)%Q /\
    (distOf (centerXOf 0) 4 4 == 1 # 4)%Q /\
    TileRequest.slot <$> inflight m = [(0, 4); (0, 5); (0, 3); (0, 6)] /\
    (0, 4) ∈ (TileRequest.slot <$> queue m) /\
    ~ queueRebuilt 0 m.
Proof.
  exists (stateAfter [Update (-180); Update 0]),
    (requestFor SAT (centerXOf (-180)) 0 2),
    (requestFor SAT (centerXOf (-180)) 4 4).
  do 12 (split; [vm_compute; reflexivity|]).
  split; [elem_by_compute|].
  intros (_ & _ & H).
  assert (requestFor SAT (centerXOf (-180)) 4 4
            ∈ queue (stateAfter [Update (-180); Update 0])) as Hin
    by elem_by_compute.
  specialize (H _ Hin). vm_compute in H. discriminate H.
Qed.

(** C6.  The claim fails on the code, by the defect of C5.  A new manager,
    [update(0)] and then [update(-180)]: the viewpoint now has [centerX = 0],
    for which the priority of column 0 is lower than that of column 1, which
    is lower than that of column 4, in every row.  The queue still holds the
    entries of the first call, with the priorities of [centerX = 4]: in every
    row the tile of column 1 comes before that of column 0, in row 0 the
    tile of column 4 is the 12th entry, that of column 1 the 59th and that of
    column 0 the last, and the queue is not in ascending order of the
    priority for the current viewpoint.  The numbers [update] computes in
    this execution are integers and multiples of 1/4 below 8, which doubles
    hold exactly. *)
Theorem stale_order_trace :
  exists m,
    run [Update 0; Update (-180)] (new_TileManager SAT) = Some m /\
    (centerXOf (-180) == 0)%Q /\
    queue m = pendingQueue (-180) (stateAfter [Update 0]) /\
    length (queue m) = 64%nat /\
    (forall y, 0 <= y < numTilesX ->
       (specPriority (centerXOf (-180)) 0 y < specPriority (centerXOf (-180)) 1 y)%Q /\
       (specPriority (centerXOf (-180)) 1 y < specPriority (centerXOf (-180)) 4 y)%Q /\
       sortsBefore (queue m) y 1 0 = true /\
       sortsBefore (queue m) y 0 1 = false) /\
    indexOf 4 0 (queue m) = Some 11%nat /\
    indexOf 1 0 (queue m) = Some 58%nat /\
    indexOf 0 0 (queue m) = Some 63%nat /\
    ~ sortedByViewpoint (centerXOf (-180)) (queue m).
Proof.
  exists (stateAfter [Update 0; Update (-180)]).
  do 4 (split; [vm_compute; reflexivity|]).
  split.
  { intros y Hy. rewrite numTilesX_eq in Hy.
    assert (y = 0 \/ y = 1 \/ y = 2 \/ y = 3 \/ y = 4 \/ y = 5 \/ y = 6 \/ y = 7)
      as Hc by lia.
    repeat (destruct Hc as [->|Hc];
            [repeat split; vm_compute; reflexivity|]).
    subst. repeat split; vm_compute; reflexivity. }
  do 3 (split; [vm_compute; reflexivity|]).
  intros H.
  pose proof (StronglySorted_lookup_lt _ _ H 11%nat 58%nat
                (requestFor SAT (centerXOf 0) 4 0)
                (requestFor SAT (centerXOf 0) 1 0) ltac:(lia)
                ltac:(vm_compute; reflexivity) ltac:(vm_compute; reflexivity))
    as Hle.
  vm_compute in Hle. by apply Hle.
Qed.

(** C7.  The claim fails on the code, by the defect of C1.  After two calls
    [update(-180)] on a new manager the four slots in flight have entries at
    the head of the queue.  When the fetch of slot [(0, 4)] then fails, its
    flag stays unset and nothing is drawn, but the [finally] reaction calls
    [processQueue], which shifts the head of the queue, the second entry of
    slot [(0, 4)], and starts its fetch at once: the failed slot is fetched
    again without any call of [update]. *)
Theorem failed_fetch_restarted_trace :
  exists m task m' now,
    run [Update (-180); Update (-180)] (new_TileManager SAT) = Some m /\
    inflight m !! 0%nat = Some task /\
    TileRequest.slot task = (0, 4) /\
    TileRequest.slot <$> take 1 (queue m) = [(0, 4)] /\
    settle 0 Rejected m = Some m' /\
    tilesLoaded m' = tilesLoaded m /\
    truthy_at (tilesLoaded m') (slotIndex 0 4) = false /\
    canvas m' = canvas m /\
    warnings m' = warnings m ++ ["Tile load failed"] /\
    inflight m' = delete 0%nat (inflight m) ++ now /\
    TileRequest.slot <$> now = [(0, 4)] /\
    TileRequest.slot <$> inflight m' = [(0, 5); (0, 3); (0, 6); (0, 4)] /\
    loadState m' 0 4 = Queued.
Proof.
  exists (stateAfter [Update (-180); Update (-180)]),
    (requestFor SAT (centerXOf (-180)) 0 4),
    (stateAfter [Update (-180); Update (-180); Settle 0 Rejected]),
    [requestFor SAT (centerXOf (-180)) 0 4].
  do 12 (split; [vm_compute; reflexivity|]).
  vm_compute. reflexivity.
Qed.

(** C8. Destroy idempotence and inertness.  [destroy] is a total function, a
    second call changes nothing, and after [destroy] no event (a completion of
    a tile fetch or of a base fetch, with either outcome, or a call of a
    method) changes the canvas or the flags or calls [onTextureUpdate]; the
    manager stays destroyed and its queue stays empty. *)
Theorem destroy_idempotent_inert m :
  destroy (destroy m) = destroy m /\
  forall es m', run es (destroy m) = Some m' ->
    canvas m' = canvas m /\
    tilesLoaded m' = tilesLoaded m /\
    textureUpdates m' = textureUpdates m /\
    isDestroyed m' = true /\
    queue m' = [].
Proof.
  split; [reflexivity|].
  intros es m' E.
  destruct (destroyed_run es (destroy m) m' eq_refl E) as (Hd & Hc & Hl & Ht & Hq).
  repeat split; auto.
Qed.

Lemma destroy_idempotent_inert_witness :
  exists m m',
    run [LoadBaseLayer; Update 0] (new_TileManager SAT) = Some m /\
    run [Settle 0 (Resolved 5%nat); SettleBase 3 (Resolved 6%nat);
         Settle 0 Rejected; Destroy; Update 45] (destroy m) = Some m' /\
    length (inflight m) = 4%nat /\
    canvas m' = canvas m /\ tilesLoaded m' = tilesLoaded m /\
    textureUpdates m' = textureUpdates m /\ isDestroyed m' = true /\
    queue m' = [].
Proof.
  eexists. eexists.
  split; [vm_compute; reflexivity|].
  split; [vm_compute; reflexivity|].
  split; [vm_compute; reflexivity|].
  match goal with |- canvas ?b = canvas ?a /\ _ =>
    apply (proj2 (destroy_idempotent_inert a)
             [Settle 0 (Resolved 5%nat); SettleBase 3 (Resolved 6%nat);
              Settle 0 Rejected; Destroy; Update 45] b)
  end.
  vm_compute. reflexivity.
Defined.




(** C10. Frame property of the base layer.  Along any sequence of calls of
    [loadBaseLayer] and completions of base fetches, with any outcomes, the
    flags, the queue, the pending tile fetches and their count are unchanged,
    so [getProgress] is unchanged; the only thing that changes the canvas is a
    draw of a base tile into its 512 by 512 rectangle. *)
Theorem loadBaseLayer_frame es : forall m m',
  forallb isBaseEvent es = true -> run es m = Some m' ->
  tilesLoaded m' = tilesLoaded m /\
  queue m' = queue m /\
  inflight m' = inflight m /\
  activeRequests m' = activeRequests m /\
  getProgress m' = getProgress m /\
  exists drawn, canvas m' = canvas m ++ drawn /\
    Forall (fun op => exists img x y, op =
      DrawImage img CROP_OFFSET CROP_OFFSET TILE_SIZE TILE_SIZE
        (x * 512) (y * 512) 512 512) drawn.
Proof.
  induction es as [|e es IH]; intros m m' Hb; simpl.
  - intros E. inversion E; subst. repeat split; auto.
    exists []. by rewrite app_nil_r.
  - simpl in Hb. apply andb_true_iff in Hb as [He Hes].
    destruct (step e m) as [m1|] eqn:E1; [|done]. intros E.
    destruct (base_step e m m1 He E1) as (Hl & Hq & Hf & Ha & _ & d1 & Hc & Hd1).
    destruct (IH m1 m' Hes E) as (Hl' & Hq' & Hf' & Ha' & Hp & d2 & Hc' & Hd2).
    repeat split; try congruence.
    + rewrite Hp. unfold getProgress. by rewrite Hl.
    + exists (d1 ++ d2). rewrite Hc', Hc, app_assoc. split; [done|].
      by apply Forall_app.
Qed.

Lemma loadBaseLayer_frame_witness :
  exists m m',
    run [Update 0; Settle 0 (Resolved 1%nat)] (new_TileManager SAT) = Some m /\
    run (LoadBaseLayer ::
         replicate 15 (SettleBase 0 (Resolved 9%nat)) ++ [SettleBase 0 Rejected]) m
      = Some m' /\
    getProgress m = 1 /\ getProgress m' = getProgress m /\
    length (canvas m') = (length (canvas m) + 15)%nat /\
    baseInflight m' = [].
Proof.
  eexists. eexists.
  split; [vm_compute; reflexivity|].
  split; [vm_compute; reflexivity|].
  split; [vm_compute; reflexivity|].
  split; [|split; vm_compute; reflexivity].
  match goal with |- getProgress ?b = getProgress ?a =>
    apply (loadBaseLayer_frame
             (LoadBaseLayer ::
              replicate 15 (SettleBase 0 (Resolved 9%nat)) ++ [SettleBase 0 Rejected])
             a b)
  end.
  - vm_compute. reflexivity.
  - vm_compute. reflexivity.
Defined.

(** * Further properties of the code *)

(** ** Induction over the reachable states *)

Lemma run_snoc es e m :
  run (es ++ [e]) m = match run es m with
                      | Some m1 => step e m1
                      | None => None
                      end.
Proof.
  revert m. induction es as [|e0 es IH]; intros m; simpl.
  - by destruct (step e m).
  - destruct (step e0 m); [apply IH|done].
Qed.

Lemma reachable_new type : reachable (new_TileManager type).
Proof. by exists type, []. Qed.

Lemma reachable_step e m m' : reachable m -> step e m = Some m' -> reachable m'.
Proof.
  intros (type & es & E) Hs. exists type, (es ++ [e]). by rewrite run_snoc, E.
Qed.

Lemma reachable_ind (P : TileManager -> Prop) :
  (forall type, P (new_TileManager type)) ->
  (forall e m m', reachable m -> P m -> step e m = Some m' -> P m') ->
  forall m, reachable m -> P m.
Proof.
  intros H0 Hs m (type & es & E). revert m E.
  induction es as [|e es IH] using rev_ind; intros m E.
  - inversion E; subst. apply H0.
  - rewrite run_snoc in E. destruct (run es (new_TileManager type)) as [m1|] eqn:E1;
      [|done].
    eapply Hs; [|by apply IH|exact E]. by exists type, es.
Qed.

(** ** What one event changes *)

Lemma settle_effect i o m m' :
  settle i o m = Some m' ->
  exists task now,
    inflight m !! i = Some task /\
    queue m = now ++ queue m' /\
    inflight m' = delete i (inflight m) ++ now /\
    activeRequests m' = activeRequests m - 1 + Z.of_nat (length now) /\
    (if isDestroyed m then now = []
     else queue m' = [] \/ MAX_CONCURRENT_REQUESTS <= activeRequests m') /\
    isDestroyed m' = isDestroyed m /\
    baseInflight m' = baseInflight m /\
    mapType m' = mapType m /\
    match o with
    | Resolved img =>
        warnings m' = warnings m /\
        if isDestroyed m then
          canvas m' = canvas m /\ tilesLoaded m' = tilesLoaded m /\
          textureUpdates m' = textureUpdates m
        else
          canvas m' =
            canvas m ++ [tileDraw (TileRequest.x task) (TileRequest.y task) img] /\
          tilesLoaded m' =
            array_set (tilesLoaded m)
              (slotIndex (TileRequest.x task) (TileRequest.y task)) true /\
          textureUpdates m' = S (textureUpdates m)
    | Rejected =>
        warnings m' = warnings m ++ ["Tile load failed"] /\
        canvas m' = canvas m /\ tilesLoaded m' = tilesLoaded m /\
        textureUpdates m' = textureUpdates m
    end.
Proof.
  unfold settle. destruct (inflight m !! i) as [task|] eqn:Ei; [|done].
  intros E. inversion E; subst; clear E. exists task.
  unfold onFinally.
  set (m1 := set_activeRequests _ _).
  assert (isDestroyed m1 = isDestroyed m) as Hd1.
  { unfold m1, onThen, onCatch. destruct o as [img|]; simpl; [|done].
    destruct (isDestroyed m) eqn:Hd; simpl; done. }
  assert (queue m1 = queue m /\ inflight m1 = delete i (inflight m) /\
          activeRequests m1 = activeRequests m - 1 /\
          baseInflight m1 = baseInflight m /\ mapType m1 = mapType m) as (Hq1 & Hf1 & Ha1 & Hb1 & Hm1).
  { unfold m1, onThen, onCatch. destruct o as [img|]; simpl; [|done].
    destruct (isDestroyed m); simpl; done. }
  destruct (processQueue_frame m1) as (El & Ec & Et & Ew & Ed & Eb).
  assert (exists now,
            queue m = now ++ queue (processQueue m1) /\
            inflight (processQueue m1) = delete i (inflight m) ++ now /\
            activeRequests (processQueue m1) =
              activeRequests m - 1 + Z.of_nat (length now) /\
            (if isDestroyed m then now = []
             else queue (processQueue m1) = [] \/
                  MAX_CONCURRENT_REQUESTS <= activeRequests (processQueue m1)) /\
            mapType (processQueue m1) = mapType m)
    as (now & Eq & Ef & Ea & Hp & Hm).
  { destruct (isDestroyed m) eqn:Hd.
    - rewrite processQueue_destroyed by congruence. exists [].
      rewrite Hq1, Hf1, Ha1, Hm1, app_nil_r. simpl. repeat split; auto; lia.
    - destruct (processQueue_live m1 Hd1)
        as (now & Eq & Ef & Ea & _ & He & _ & _ & _ & _ & _ & _ & Hm).
      exists now. rewrite <- Hq1, <- Hf1, <- Ha1, <- Hm1. repeat split; auto. }
  exists now. rewrite El, Ec, Et, Ew, Ed, Eb, Hd1, Hb1.
  repeat split; auto.
  unfold m1, onThen, onCatch. destruct o as [img|]; simpl; [|done].
  destruct (isDestroyed m); simpl; done.
Qed.

Lemma settleBase_effect i o m m' :
  settleBase i o m = Some m' ->
  exists x y,
    baseInflight m !! i = Some (x, y) /\
    baseInflight m' = delete i (baseInflight m) /\
    tilesLoaded m' = tilesLoaded m /\ queue m' = queue m /\
    inflight m' = inflight m /\ activeRequests m' = activeRequests m /\
    isDestroyed m' = isDestroyed m /\ mapType m' = mapType m /\
    match o with
    | Resolved img =>
        warnings m' = warnings m /\
        if isDestroyed m then
          canvas m' = canvas m /\ textureUpdates m' = textureUpdates m
        else
          canvas m' = canvas m ++ [baseDraw x y img] /\
          textureUpdates m' = S (textureUpdates m)
    | Rejected =>
        warnings m' = warnings m ++ ["Base tile failed"] /\
        canvas m' = canvas m /\ textureUpdates m' = textureUpdates m
    end.
Proof.
  unfold settleBase. destruct (baseInflight m !! i) as [[x y]|] eqn:Ei; [|done].
  intros E. inversion E; subst; clear E. exists x, y.
  destruct o as [img|]; unfold onBaseThen, onBaseCatch; simpl.
  - destruct (isDestroyed m) eqn:Hd; simpl; rewrite ?Hd; repeat split; auto.
  - repeat split; auto.
Qed.

Lemma update_effect l m :
  exists now,
    inflight (update l m) = inflight m ++ now /\
    tilesLoaded (update l m) = tilesLoaded m /\
    canvas (update l m) = canvas m /\
    textureUpdates (update l m) = textureUpdates m /\
    warnings (update l m) = warnings m /\
    isDestroyed (update l m) = isDestroyed m /\
    baseInflight (update l m) = baseInflight m /\
    (if isDestroyed m then update l m = m /\ now = []
     else pendingQueue l m = now ++ queue (update l m) /\
          (queue (update l m) = [] \/
           MAX_CONCURRENT_REQUESTS <= activeRequests (update l m))).
Proof.
  destruct (isDestroyed m) eqn:Hd.
  - rewrite update_destroyed by done. exists []. rewrite app_nil_r, Hd.
    repeat split; auto.
  - destruct (update_dispatch l m Hd) as (now & E & Ef & _ & He & El & Ec & Et & Hd' & _).
    exists now. rewrite Hd'. repeat split; auto.
    + rewrite update_live by done.
      by destruct (processQueue_frame (set_queue (pendingQueue l m) m))
        as (_ & _ & _ & -> & _).
    + rewrite update_live by done.
      by destruct (processQueue_frame (set_queue (pendingQueue l m) m))
        as (_ & _ & _ & _ & _ & ->).
Qed.

(** ** The dispatcher keeps the window full *)

Lemma window_full_inv m :
  reachable m ->
  (isDestroyed m = true -> queue m = []) /\
  (queue m = [] \/ MAX_CONCURRENT_REQUESTS <= activeRequests m).
Proof.
  revert m. apply reachable_ind.
  - intros type. split; [done|by left].
  - intros e m m' Hr [Hd Hw] Hs. destruct e; simpl in Hs.
    + inversion Hs; subst; clear Hs.
      destruct (update_effect currentLonDeg m) as (now & _ & _ & _ & _ & _ & Ed & _ & H).
      destruct (isDestroyed m) eqn:E.
      * destruct H as [-> _]. rewrite E. split; [done|]. left. by apply Hd.
      * destruct H as [_ H]. split; [|done]. rewrite Ed. done.
    + destruct (settle_effect _ _ _ _ Hs)
        as (task & now & _ & Eq & _ & _ & Hp & Ed & _).
      rewrite Ed. destruct (isDestroyed m) eqn:E.
      * subst now. simpl in Eq. rewrite <- Eq. split; [by intros; apply Hd|].
        left. by apply Hd.
      * split; done.
    + inversion Hs; subst; clear Hs. simpl. split; [done|by left].
    + inversion Hs; subst; clear Hs. simpl. done.
    + destruct (settleBase_effect _ _ _ _ Hs)
        as (x & y & _ & _ & _ & -> & _ & -> & -> & _). done.
Qed.

(** X1.  Work conservation: in every reachable state either the queue is
    empty or exactly [MAX_CONCURRENT_REQUESTS] fetches are in flight; a
    destroyed manager has an empty queue. *)
Theorem window_kept_full m :
  reachable m ->
  (queue m = [] \/
   (activeRequests m = MAX_CONCURRENT_REQUESTS /\
    length (inflight m) = Z.to_nat MAX_CONCURRENT_REQUESTS)) /\
  (isDestroyed m = true -> queue m = []).
Proof.
  intros Hr. destruct (window_full_inv m Hr) as [Hd Hw].
  pose proof (wf_reachable m Hr) as Hwf.
  split; [|done]. destruct Hw as [Hw|Hw]; [by left|right].
  pose proof (wf_bound m Hwf). pose proof (wf_active m Hwf). split; lia.
Qed.

Lemma window_kept_full_witness :
  exists m,
    run [Update 0; Settle 1 (Resolved 3%nat); Update 33; Settle 0 Rejected]
      (new_TileManager SAT) = Some m /\
    queue m <> [] /\
    activeRequests m = MAX_CONCURRENT_REQUESTS /\
    length (inflight m) = Z.to_nat MAX_CONCURRENT_REQUESTS.
Proof.
  eexists. split; [vm_compute; reflexivity|].
  split; [vm_compute; discriminate|].
  match goal with |- activeRequests ?a = _ /\ _ =>
    assert (reachable a) as Hr
      by (exists SAT, [Update 0; Settle 1 (Resolved 3%nat); Update 33; Settle 0 Rejected];
          vm_compute; reflexivity);
    destruct (window_kept_full a Hr) as [[H|H] _]
  end.
  - vm_compute in H. discriminate H.
  - exact H.
Defined.

(** ** The queue is bounded by the grid *)

(** The slots of the target grid. *)
Lemma grid_slots_length :
  length ((fun p : Z * Z => (p.2, p.1)) <$> scanOrder) =
  Z.to_nat (numTilesX * numTilesX).
Proof. reflexivity. Qed.

Lemma inGrid_scanOrder s :
  inGrid s -> s ∈ (fun p : Z * Z => (p.2, p.1)) <$> scanOrder.
Proof.
  destruct s as [x y]. intros Hg. apply list_elem_of_fmap.
  exists (y, x). split; [done|]. by apply elem_of_scanOrder.
Qed.

(** X2.  In every reachable state the queue holds at most one request per
    slot of the grid, so never more than [numTilesX * numTilesX] = 64
    requests, however often [update] is called. *)
Theorem queue_bounded m :
  reachable m ->
  NoDup (TileRequest.slot <$> queue m) /\
  (length (queue m) <= Z.to_nat (numTilesX * numTilesX))%nat.
Proof.
  intros Hr. pose proof (wf_reachable m Hr) as Hwf.
  split; [apply Hwf|].
  rewrite <- grid_slots_length, <- (length_fmap TileRequest.slot).
  apply submseteq_length, NoDup_submseteq; [apply Hwf|].
  intros s Hs. apply inGrid_scanOrder.
  apply list_elem_of_fmap in Hs as (t & -> & Ht).
  pose proof (wf_queue_grid m Hwf) as Hg. rewrite Forall_forall in Hg. by apply Hg.
Qed.

Lemma queue_bounded_witness :
  exists m,
    run [Update 0; Update 10; Update 20; Update 30; Update 40]
      (new_TileManager SAT) = Some m /\
    length (queue m) = 64%nat /\
    (length (queue m) <= Z.to_nat (numTilesX * numTilesX))%nat.
Proof.
  eexists. split; [vm_compute; reflexivity|].
  split; [vm_compute; reflexivity|].
  match goal with |- (length (queue ?a) <= _)%nat =>
    assert (reachable a) as Hr
      by (exists SAT, [Update 0; Update 10; Update 20; Update 30; Update 40];
          vm_compute; reflexivity);
    exact (proj2 (queue_bounded a Hr))
  end.
Defined.

(** ** [processQueue] is idempotent *)

Lemma dispatchLoop_stop a q :
  q = [] \/ MAX_CONCURRENT_REQUESTS <= a -> dispatchLoop a q [] = (a, q, []).
Proof.
  intros [->|H]; [done|]. destruct q as [|t q]; [done|]. simpl.
  destruct (a <? MAX_CONCURRENT_REQUESTS) eqn:E; [|done].
  apply Z.ltb_lt in E. lia.
Qed.

(** X3.  Calling the dispatcher again right away changes nothing: after
    [processQueue] the queue is empty or the window is full (or the manager
    is destroyed), so a second call starts no fetch. *)
Theorem processQueue_idempotent m :
  processQueue (processQueue m) = processQueue m.
Proof.
  destruct (isDestroyed m) eqn:Hd.
  - by rewrite !processQueue_destroyed by (by rewrite ?processQueue_destroyed).
  - destruct (processQueue_live m Hd)
      as (now & _ & _ & _ & _ & He & _ & _ & _ & _ & Hd' & _).
    generalize dependent (processQueue m). intros m1 He Hd'.
    unfold processQueue. rewrite Hd', dispatchLoop_stop by done.
    destruct m1. simpl. by rewrite app_nil_r.
Qed.

(** ** The canvas *)

Lemma visibleAt_snoc c op px py :
  visibleAt (c ++ [op]) px py =
  if paints op px py then Some op else visibleAt c px py.
Proof.
  induction c as [|o c IH]; simpl.
  - by destruct (paints op px py).
  - rewrite IH. by destruct (paints op px py).
Qed.

Lemma inRect_spec x y w h px py :
  inRect x y w h px py = true <-> x <= px < x + w /\ y <= py < y + h.
Proof. unfold inRect. rewrite !andb_true_iff. lia. Qed.

Lemma tileDraw_inBounds x y img : inGrid (x, y) -> inBounds (tileDraw x y img).
Proof.
  unfold inGrid. simpl. rewrite numTilesX_eq. intros [Hx Hy].
  unfold tileDraw, inBounds, canvasSize. change CROP_OFFSET with 97.
  unfold REQUEST_SIZE, TILE_SIZE. rewrite numTilesX_eq. lia.
Qed.

Lemma baseDraw_inBounds x y img : inBaseGrid (x, y) -> inBounds (baseDraw x y img).
Proof.
  unfold inBaseGrid. simpl. intros [Hx Hy].
  unfold baseDraw, inBounds, canvasSize, baseDrawSize. change CROP_OFFSET with 97.
  unfold REQUEST_SIZE, TILE_SIZE. rewrite numTilesX_eq.
  change (2 ^ baseZoom) with 4 in *. change (2 ^ (targetZoom - baseZoom)) with 2.
  lia.
Qed.

Lemma loadBaseLayer_promises m :
  baseInflight (loadBaseLayer m) =
  baseInflight m ++ (x ← counter (2 ^ baseZoom); y ← counter (2 ^ baseZoom); [(x, y)]).
Proof. reflexivity. Qed.

Lemma base_promises_inBaseGrid :
  Forall inBaseGrid (x ← counter (2 ^ baseZoom); y ← counter (2 ^ baseZoom); [(x, y)]).
Proof.
  apply Forall_forall. intros [x y] H.
  apply list_elem_of_bind in H as (x' & H & Hx).
  apply list_elem_of_bind in H as (y' & H & Hy).
  apply list_elem_of_singleton in H. inversion H; subst.
  apply elem_of_counter in Hx, Hy. by split.
Qed.

Lemma baseInflight_inv m : reachable m -> Forall inBaseGrid (baseInflight m).
Proof.
  revert m. apply reachable_ind.
  - intros type. constructor.
  - intros e m m' Hr IH Hs. destruct e; simpl in Hs.
    + inversion Hs; subst.
      destruct (update_effect currentLonDeg m) as (now & _ & _ & _ & _ & _ & _ & -> & _).
      done.
    + destruct (settle_effect _ _ _ _ Hs) as (task & now & _ & _ & _ & _ & _ & _ & -> & _).
      done.
    + inversion Hs; subst. done.
    + inversion Hs; subst. rewrite loadBaseLayer_promises.
      apply Forall_app. split; [done|apply base_promises_inBaseGrid].
    + destruct (settleBase_effect _ _ _ _ Hs) as (x & y & _ & -> & _).
      by apply Forall_delete.
Qed.

(** The canvas is the initial fill followed by one draw per notification,
    every call inside the canvas. *)
Lemma canvas_inv m :
  reachable m ->
  exists draws,
    canvas m = FillRect "#001e3f" 0 0 canvasSize canvasSize :: draws /\
    Forall inBounds (canvas m) /\
    length draws = textureUpdates m.
Proof.
  revert m. apply reachable_ind.
  - intros type. exists []. split; [done|]. split; [|done].
    constructor; [|constructor]. unfold inBounds, canvasSize.
    rewrite numTilesX_eq. unfold TILE_SIZE. lia.
  - intros e m m' Hr (draws & Ec & Hb & Hn) Hs.
    pose proof (wf_reachable m Hr) as Hwf.
    destruct e; simpl in Hs.
    + inversion Hs; subst.
      destruct (update_effect currentLonDeg m) as (now & _ & _ & -> & -> & _).
      by exists draws.
    + destruct (settle_effect _ _ _ _ Hs)
        as (task & now & Ei & _ & _ & _ & _ & _ & _ & _ & Ho).
      assert (inGrid (TileRequest.x task, TileRequest.y task)) as Hg.
      { pose proof (wf_inflight_grid m Hwf) as Hf. rewrite Forall_forall in Hf.
        apply (Hf task). by eapply list_elem_of_lookup_2. }
      destruct o as [img|].
      * destruct Ho as [_ Ho]. destruct (isDestroyed m).
        -- destruct Ho as (-> & _ & ->). by exists draws.
        -- destruct Ho as (-> & _ & ->).
           exists (draws ++ [tileDraw (TileRequest.x task) (TileRequest.y task) img]).
           rewrite Ec. split; [done|]. rewrite <- Ec. split.
           ++ apply Forall_app. split; [done|]. constructor; [|constructor].
              by apply tileDraw_inBounds.
           ++ rewrite length_app. simpl. lia.
      * destruct Ho as (_ & -> & _ & ->). by exists draws.
    + inversion Hs; subst. simpl. by exists draws.
    + inversion Hs; subst. simpl. by exists draws.
    + destruct (settleBase_effect _ _ _ _ Hs)
        as (x & y & Ei & _ & _ & _ & _ & _ & _ & _ & Ho).
      assert (inBaseGrid (x, y)) as Hg.
      { pose proof (baseInflight_inv m Hr) as Hf. rewrite Forall_forall in Hf.
        apply Hf. by eapply list_elem_of_lookup_2. }
      destruct o as [img|].
      * destruct Ho as [_ Ho]. destruct (isDestroyed m).
        -- destruct Ho as (-> & ->). by exists draws.
        -- destruct Ho as (-> & ->). exists (draws ++ [baseDraw x y img]).
           rewrite Ec. split; [done|]. rewrite <- Ec. split.
           ++ apply Forall_app. split; [done|]. constructor; [|constructor].
              by apply baseDraw_inBounds.
           ++ rewrite length_app. simpl. lia.
      * destruct Ho as (_ & -> & ->). by exists draws.
Qed.

(** X4.  Every call made on the canvas stays inside it, and every draw takes
    its source rectangle from inside the 450 by 450 image that was requested:
    no fetch, of a tile or of a base tile, draws out of bounds. *)
Theorem canvas_calls_in_bounds m :
  reachable m -> Forall inBounds (canvas m).
Proof. intros Hr. by destruct (canvas_inv m Hr) as (draws & _ & Hb & _). Qed.

Lemma canvas_calls_in_bounds_witness :
  exists m,
    run [LoadBaseLayer; Update 0; SettleBase 15 (Resolved 1%nat);
         Settle 3 (Resolved 2%nat)] (new_TileManager SAT) = Some m /\
    length (canvas m) = 3%nat /\
    Forall inBounds (canvas m).
Proof.
  eexists. split; [vm_compute; reflexivity|].
  split; [vm_compute; reflexivity|].
  apply canvas_calls_in_bounds.
  exists SAT, [LoadBaseLayer; Update 0; SettleBase 15 (Resolved 1%nat);
               Settle 3 (Resolved 2%nat)].
  vm_compute. reflexivity.
Defined.

(** X5.  No pixel of the canvas is ever left unpainted: the constructor
    fills the whole canvas and nothing is ever removed, so at every pixel
    some call shows. *)
Theorem canvas_always_painted m px py :
  reachable m ->
  0 <= px < canvasSize -> 0 <= py < canvasSize ->
  is_Some (visibleAt (canvas m) px py).
Proof.
  intros Hr Hx Hy. destruct (canvas_inv m Hr) as (draws & -> & _).
  simpl. destruct (visibleAt draws px py); [by eexists|].
  assert (inRect 0 0 canvasSize canvasSize px py = true) as ->
    by (apply inRect_spec; lia).
  by eexists.
Qed.

Lemma canvas_always_painted_witness :
  is_Some (visibleAt (canvas (new_TileManager MAP)) 2047 0).
Proof.
  apply canvas_always_painted.
  - apply reachable_new.
  - vm_compute. split; [discriminate|reflexivity].
  - vm_compute. split; [discriminate|reflexivity].
Defined.

(** X6.  The renderer is notified exactly once per draw: the number of
    calls of [onTextureUpdate] is the number of images drawn so far (the
    initial fill is not announced). *)
Theorem one_notification_per_draw m :
  reachable m -> length (canvas m) = S (textureUpdates m).
Proof.
  intros Hr. destruct (canvas_inv m Hr) as (draws & -> & _ & <-). done.
Qed.

Lemma one_notification_per_draw_witness :
  exists m,
    run [LoadBaseLayer; Update 0; SettleBase 0 Rejected;
         SettleBase 0 (Resolved 1%nat); Settle 0 (Resolved 2%nat);
         Settle 0 Rejected] (new_TileManager SAT) = Some m /\
    textureUpdates m = 2%nat /\
    length (canvas m) = S (textureUpdates m).
Proof.
  eexists. split; [vm_compute; reflexivity|].
  split; [vm_compute; reflexivity|].
  apply one_notification_per_draw.
  exists SAT, [LoadBaseLayer; Update 0; SettleBase 0 Rejected;
               SettleBase 0 (Resolved 1%nat); Settle 0 (Resolved 2%nat);
               Settle 0 Rejected].
  vm_compute. reflexivity.
Defined.

(** ** Flags and draws *)

Lemma truthy_at_array_set_same a i :
  0 <= i -> (Z.to_nat i < length a)%nat -> truthy_at (array_set a i true) i = true.
Proof.
  intros H0 Hi. unfold truthy_at, array_set.
  destruct (decide (0 <= i)); [|lia].
  destruct (decide (Z.to_nat i < length a)%nat); [|lia].
  rewrite list_lookup_insert_eq; [done|lia].
Qed.

Lemma truthy_at_array_set_ne a i j :
  0 <= i -> (Z.to_nat i < length a)%nat -> i <> j ->
  truthy_at (array_set a i true) j = truthy_at a j.
Proof.
  intros H0 Hi Hne. unfold truthy_at, array_set.
  destruct (decide (0 <= i)); [|lia].
  destruct (decide (Z.to_nat i < length a)%nat); [|lia].
  destruct (decide (0 <= j)); [|done].
  rewrite list_lookup_insert_ne; [done|lia].
Qed.

Lemma slotIndex_inj x y x' y' :
  inGrid (x, y) -> inGrid (x', y') ->
  slotIndex x y = slotIndex x' y' -> x = x' /\ y = y'.
Proof.
  unfold inGrid, slotIndex. simpl. rewrite numTilesX_eq. lia.
Qed.

Lemma inflight_task_inGrid m i task :
  wf m -> inflight m !! i = Some task ->
  inGrid (TileRequest.x task, TileRequest.y task).
Proof.
  intros Hwf Ei. pose proof (wf_inflight_grid m Hwf) as Hf.
  rewrite Forall_forall in Hf. apply (Hf task). by eapply list_elem_of_lookup_2.
Qed.

Lemma canvas_grows e m m' :
  step e m = Some m' -> exists more, canvas m' = canvas m ++ more.
Proof.
  destruct e; simpl; intros Hs.
  - inversion Hs; subst.
    destruct (update_effect currentLonDeg m) as (now & _ & _ & -> & _).
    exists []. by rewrite app_nil_r.
  - destruct (settle_effect _ _ _ _ Hs)
      as (task & now & _ & _ & _ & _ & _ & _ & _ & _ & Ho).
    destruct o as [img|].
    + destruct Ho as [_ Ho]. destruct (isDestroyed m).
      * destruct Ho as (-> & _). exists []. by rewrite app_nil_r.
      * destruct Ho as (-> & _). by eexists.
    + destruct Ho as (_ & -> & _). exists []. by rewrite app_nil_r.
  - inversion Hs; subst. exists []. by rewrite app_nil_r.
  - inversion Hs; subst. exists []. by rewrite app_nil_r.
  - destruct (settleBase_effect _ _ _ _ Hs)
      as (x & y & _ & _ & _ & _ & _ & _ & _ & _ & Ho).
    destruct o as [img|].
    + destruct Ho as [_ Ho]. destruct (isDestroyed m).
      * destruct Ho as (-> & _). exists []. by rewrite app_nil_r.
      * destruct Ho as (-> & _). by eexists.
    + destruct Ho as (_ & -> & _). exists []. by rewrite app_nil_r.
Qed.

(** X7.  A slot is marked loaded only after its image has been drawn: for
    every [Loaded] slot of a reachable state the canvas holds the draw of a
    fetched image into the rectangle of that slot. *)
Theorem loaded_slot_was_drawn m x y :
  reachable m -> inGrid (x, y) -> loadState m x y = Loaded ->
  exists img, tileDraw x y img ∈ canvas m.
Proof.
  intros Hr Hg. rewrite loadState_Loaded. revert m Hr.
  apply (reachable_ind (fun m =>
    truthy_at (tilesLoaded m) (slotIndex x y) = true ->
    exists img, tileDraw x y img ∈ canvas m)).
  - intros type H. exfalso. revert H. unfold truthy_at.
    destruct (decide (0 <= slotIndex x y)); [|done].
    destruct (tilesLoaded (new_TileManager type) !! Z.to_nat (slotIndex x y))
      as [b|] eqn:E; [|done].
    apply lookup_replicate in E as [-> _]. done.
  - intros e m m' Hr IH Hs Hl.
    pose proof (wf_reachable m Hr) as Hwf.
    destruct (canvas_grows e m m' Hs) as (more & Ec).
    assert (truthy_at (tilesLoaded m) (slotIndex x y) = true ->
            exists img, tileDraw x y img ∈ canvas m') as Hold.
    { intros H. destruct (IH H) as (img & Hin). exists img.
      rewrite Ec. apply elem_of_app. by left. }
    destruct e; simpl in Hs.
    + inversion Hs; subst. apply Hold.
      by destruct (update_effect currentLonDeg m) as (now & _ & <- & _).
    + destruct (settle_effect _ _ _ _ Hs)
        as (task & now & Ei & _ & _ & _ & _ & _ & _ & _ & Ho).
      pose proof (inflight_task_inGrid m i task Hwf Ei) as Hgt.
      destruct o as [img|].
      * destruct Ho as [_ Ho]. destruct (isDestroyed m).
        -- destruct Ho as (_ & El & _). apply Hold. by rewrite <- El.
        -- destruct Ho as (Ec' & El & _). rewrite El in Hl.
           pose proof (slotIndex_range _ _ Hgt) as Hrange.
           pose proof (wf_length m Hwf) as Hlen.
           destruct (decide (slotIndex (TileRequest.x task) (TileRequest.y task)
                             = slotIndex x y)) as [Heq|Hne].
           ++ apply slotIndex_inj in Heq as [<- <-]; [|done|done].
              exists img. rewrite Ec'. apply elem_of_app. right.
              by apply list_elem_of_singleton.
           ++ apply Hold. rewrite truthy_at_array_set_ne in Hl; [done|lia|lia|done].
      * destruct Ho as (_ & _ & El & _). apply Hold. by rewrite <- El.
    + inversion Hs; subst. by apply Hold.
    + inversion Hs; subst. by apply Hold.
    + destruct (settleBase_effect _ _ _ _ Hs) as (bx & by' & _ & _ & El & _).
      apply Hold. by rewrite <- El.
Qed.

Lemma loaded_slot_was_drawn_witness :
  exists m,
    run [Update 0; Settle 2 (Resolved 7%nat)] (new_TileManager SAT) = Some m /\
    loadState m 4 3 = Loaded /\
    exists img, tileDraw 4 3 img ∈ canvas m.
Proof.
  eexists. split; [vm_compute; reflexivity|].
  split; [vm_compute; reflexivity|].
  apply loaded_slot_was_drawn.
  - exists SAT, [Update 0; Settle 2 (Resolved 7%nat)]. vm_compute. reflexivity.
  - vm_compute. repeat split; discriminate.
  - vm_compute. reflexivity.
Defined.

(** ** What a completion shows *)

Lemma tile_rects_disjoint x y x' y' px py :
  (x, y) <> (x', y') ->
  inRect (x * TILE_SIZE) (y * TILE_SIZE) TILE_SIZE TILE_SIZE px py = true ->
  inRect (x' * TILE_SIZE) (y' * TILE_SIZE) TILE_SIZE TILE_SIZE px py = false.
Proof.
  intros Hne H. apply inRect_spec in H. apply not_true_is_false. intros H'.
  apply inRect_spec in H'. unfold TILE_SIZE in *.
  apply Hne. f_equal; lia.
Qed.

(** X8.  A tile that resolves on a live manager is drawn into the rectangle
    of its own slot and nowhere else: afterwards its image shows at every
    pixel of that rectangle, and what shows at every other pixel, in
    particular in the rectangle of any other slot, is what showed before. *)
Theorem tile_draw_own_rectangle m i img m' task :
  isDestroyed m = false -> inflight m !! i = Some task ->
  settle i (Resolved img) m = Some m' ->
  (forall px py,
     visibleAt (canvas m') px py =
     if inRect (TileRequest.x task * TILE_SIZE) (TileRequest.y task * TILE_SIZE)
          TILE_SIZE TILE_SIZE px py
     then Some (tileDraw (TileRequest.x task) (TileRequest.y task) img)
     else visibleAt (canvas m) px py) /\
  (forall x' y' px py,
     (x', y') <> TileRequest.slot task ->
     inRect (x' * TILE_SIZE) (y' * TILE_SIZE) TILE_SIZE TILE_SIZE px py = true ->
     visibleAt (canvas m') px py = visibleAt (canvas m) px py).
Proof.
  intros Hd Ei Hs.
  destruct (settle_effect _ _ _ _ Hs)
    as (task' & now & Ei' & _ & _ & _ & _ & _ & _ & _ & _ & Ho).
  rewrite Ei in Ei'. inversion Ei'; subst task'. rewrite Hd in Ho.
  destruct Ho as (Ec & _).
  assert (forall px py,
     visibleAt (canvas m') px py =
     if inRect (TileRequest.x task * TILE_SIZE) (TileRequest.y task * TILE_SIZE)
          TILE_SIZE TILE_SIZE px py
     then Some (tileDraw (TileRequest.x task) (TileRequest.y task) img)
     else visibleAt (canvas m) px py) as H.
  { intros px py. rewrite Ec, visibleAt_snoc. done. }
  split; [exact H|].
  intros x' y' px py Hne Hin. rewrite H.
  by rewrite (tile_rects_disjoint x' y' (TileRequest.x task) (TileRequest.y task)).
Qed.

Lemma tile_draw_own_rectangle_witness :
  inflight (stateAfter [LoadBaseLayer; Update 0; SettleBase 10 (Resolved 1%nat)])
    !! 0%nat = Some (requestFor SAT (centerXOf 0) 4 4) /\
  visibleAt
    (canvas (stateAfter [LoadBaseLayer; Update 0; SettleBase 10 (Resolved 1%nat);
                         Settle 0 (Resolved 2%nat)])) 1100 1100
    = Some (tileDraw 4 4 2%nat) /\
  visibleAt
    (canvas (stateAfter [LoadBaseLayer; Update 0; SettleBase 10 (Resolved 1%nat);
                         Settle 0 (Resolved 2%nat)])) 1300 1100
    = Some (baseDraw 2 2 1%nat).
Proof.
  assert (inflight (stateAfter [LoadBaseLayer; Update 0; SettleBase 10 (Resolved 1%nat)])
            !! 0%nat = Some (requestFor SAT (centerXOf 0) 4 4)) as Ei
    by (vm_compute; reflexivity).
  destruct (tile_draw_own_rectangle
              (stateAfter [LoadBaseLayer; Update 0; SettleBase 10 (Resolved 1%nat)])
              0%nat 2%nat
              (stateAfter [LoadBaseLayer; Update 0; SettleBase 10 (Resolved 1%nat);
                           Settle 0 (Resolved 2%nat)])
              (requestFor SAT (centerXOf 0) 4 4))
    as [H1 H2]; [vm_compute; reflexivity|exact Ei|vm_compute; reflexivity|].
  split; [exact Ei|]. split.
  - rewrite H1. reflexivity.
  - rewrite (H2 5 4); [vm_compute; reflexivity|discriminate|reflexivity].
Defined.

Lemma half_bounds x b : x / 2 = b -> 2 * b <= x <= 2 * b + 1.
Proof.
  intros <-. pose proof (Z.div_mod x 2). pose proof (Z.mod_pos_bound x 2). lia.
Qed.

(** X9.  A base tile that resolves on a live manager is drawn over its whole
    512 by 512 rectangle, whatever has been drawn there: at every pixel of
    the four target slots under it the base image shows afterwards, also for
    a slot that is [Loaded], and the flags are not touched. *)
Theorem base_draw_covers_tiles m i img m' bx by' :
  isDestroyed m = false -> baseInflight m !! i = Some (bx, by') ->
  settleBase i (Resolved img) m = Some m' ->
  forall x y px py,
    x / 2 = bx -> y / 2 = by' ->
    inRect (x * TILE_SIZE) (y * TILE_SIZE) TILE_SIZE TILE_SIZE px py = true ->
    visibleAt (canvas m') px py = Some (baseDraw bx by' img) /\
    loadState m' x y = loadState m x y.
Proof.
  intros Hd Ei Hs x y px py Hx Hy Hin.
  destruct (settleBase_effect _ _ _ _ Hs)
    as (x0 & y0 & Ei' & _ & El & _ & Ef & _ & _ & _ & Ho).
  rewrite Ei in Ei'. inversion Ei'; subst x0 y0. rewrite Hd in Ho.
  destruct Ho as (_ & Ec & _). split.
  - rewrite Ec, visibleAt_snoc.
    assert (paints (baseDraw bx by' img) px py = true) as ->; [|done].
    apply inRect_spec in Hin. apply half_bounds in Hx, Hy.
    unfold baseDraw, paints. apply inRect_spec.
    unfold baseDrawSize, TILE_SIZE in *.
    change (2 ^ (targetZoom - baseZoom)) with 2. lia.
  - unfold loadState. by rewrite El, Ef.
Qed.

Lemma base_draw_covers_tiles_witness :
  loadState (stateAfter [LoadBaseLayer; Update 0; Settle 0 (Resolved 2%nat)]) 4 4
    = Loaded /\
  visibleAt (canvas (stateAfter [LoadBaseLayer; Update 0; Settle 0 (Resolved 2%nat)]))
    1100 1100 = Some (tileDraw 4 4 2%nat) /\
  visibleAt
    (canvas (stateAfter [LoadBaseLayer; Update 0; Settle 0 (Resolved 2%nat);
                         SettleBase 10 (Resolved 1%nat)])) 1100 1100
    = Some (baseDraw 2 2 1%nat) /\
  loadState (stateAfter [LoadBaseLayer; Update 0; Settle 0 (Resolved 2%nat);
                         SettleBase 10 (Resolved 1%nat)]) 4 4 = Loaded.
Proof.
  split; [vm_compute; reflexivity|]. split; [vm_compute; reflexivity|].
  destruct (base_draw_covers_tiles
              (stateAfter [LoadBaseLayer; Update 0; Settle 0 (Resolved 2%nat)])
              10%nat 1%nat
              (stateAfter [LoadBaseLayer; Update 0; Settle 0 (Resolved 2%nat);
                           SettleBase 10 (Resolved 1%nat)])
              2 2)
    with (x := 4) (y := 4) (px := 1100) (py := 1100) as [H1 H2];
    try (vm_compute; reflexivity).
  split; [exact H1|]. rewrite H2. vm_compute. reflexivity.
Defined.

(** ** After [destroy] no fetch is started *)

Lemma destroyed_inflight_step e m m' :
  isDestroyed m = true -> step e m = Some m' ->
  isDestroyed m' = true /\ inflight m' `sublist_of` inflight m.
Proof.
  intros Hd. destruct e; simpl; intros Hs.
  - inversion Hs; subst. by rewrite update_destroyed.
  - destruct (settle_effect _ _ _ _ Hs)
      as (task & now & _ & _ & Ef & _ & Hn & Ed & _).
    rewrite Hd in Hn. subst now. rewrite app_nil_r in Ef.
    split; [congruence|]. rewrite Ef. apply sublist_delete.
  - inversion Hs; subst. by simpl.
  - inversion Hs; subst. by simpl.
  - destruct (settleBase_effect _ _ _ _ Hs)
      as (x & y & _ & _ & _ & _ & Ef & _ & Ed & _).
    split; [congruence|]. by rewrite Ef.
Qed.

(** X10.  After [destroy] the manager starts no tile fetch any more: along
    any further execution the pending tile fetches are a sublist of those
    that were pending when [destroy] was called.  ([loadBaseLayer] has no
    such check: called after [destroy] it still creates its 16 fetches.) *)
Theorem no_fetch_after_destroy es : forall m m',
  run es (destroy m) = Some m' ->
  inflight m' `sublist_of` inflight m /\
  (forallb (fun e => negb (isBaseEvent e)) es = true ->
   baseInflight m' = baseInflight m).
Proof.
  assert (forall es m m', isDestroyed m = true -> run es m = Some m' ->
            inflight m' `sublist_of` inflight m /\
            (forallb (fun e => negb (isBaseEvent e)) es = true ->
             baseInflight m' = baseInflight m)) as H.
  { clear es. induction es as [|e es IH]; intros m m' Hd; simpl.
    - intros E. by inversion E; subst.
    - destruct (step e m) as [m1|] eqn:E1; [|done]. intros E.
      destruct (destroyed_inflight_step e m m1 Hd E1) as [Hd1 Hsub].
      destruct (IH m1 m' Hd1 E) as [Hsub' Hb]. split.
      + by etrans.
      + intros Hall. apply andb_true_iff in Hall as [He Hes].
        rewrite (Hb Hes). destruct e; try done; simpl in E1.
        * inversion E1; subst. by rewrite update_destroyed.
        * by destruct (settle_effect _ _ _ _ E1)
            as (task & now & _ & _ & _ & _ & _ & _ & -> & _).
        * by inversion E1; subst. }
  intros m m' E. by apply (H es (destroy m) m').
Qed.

Lemma no_fetch_after_destroy_witness :
  exists m m',
    run [Update 0; Update 50] (new_TileManager SAT) = Some m /\
    run [Update 100; Settle 1 Rejected; Update 200; Settle 0 (Resolved 4%nat)]
      (destroy m) = Some m' /\
    length (inflight m) = 4%nat /\ length (inflight m') = 2%nat /\
    inflight m' `sublist_of` inflight m.
Proof.
  eexists. eexists.
  split; [vm_compute; reflexivity|].
  split; [vm_compute; reflexivity|].
  split; [vm_compute; reflexivity|].
  split; [vm_compute; reflexivity|].
  match goal with |- inflight ?b `sublist_of` inflight ?a =>
    apply (no_fetch_after_destroy
             [Update 100; Settle 1 Rejected; Update 200; Settle 0 (Resolved 4%nat)]
             a b)
  end.
  vm_compute. reflexivity.
Defined.

(** ** The guard of the scan never rejects *)

Lemma missing_slot_outstanding l m x y :
  isDestroyed m = false -> inGrid (x, y) ->
  truthy_at (tilesLoaded m) (slotIndex x y) = false ->
  (x, y) ∈ (TileRequest.slot <$> outstanding (update l m)).
Proof.
  intros Hd Hg Hf. pose proof (pendingQueue_covers l m x y Hg Hf) as Hc.
  destruct (update_dispatch l m Hd) as (now & E & Ef & _).
  unfold outstanding. rewrite E, fmap_app in Hc. rewrite Ef, !fmap_app.
  apply elem_of_app in Hc as [Hc|Hc]; apply elem_of_app; [right|by left].
  apply elem_of_app. by right.
Qed.

(** X11.  Whatever the viewpoint, the wrapped distance of a column of the
    grid is at most half the grid, so the guard [distBoxX < numTilesX/2 + 1]
    of the push holds for every slot: the scan of [update] gives an entry to
    every slot that is not loaded, also to the one opposite the camera, and
    on a live manager each such slot is queued or in flight after the
    call. *)
Theorem scan_enqueues_every_missing_slot l m x y :
  inGrid (x, y) -> loadState m x y <> Loaded ->
  (distBoxX (centerXOf l) x <= inject_Z numTilesX / 2)%Q /\
  closeToView (distBoxX (centerXOf l) x) = true /\
  (x, y) ∈ (TileRequest.slot <$> pendingQueue l m) /\
  (isDestroyed m = false ->
   (x, y) ∈ (TileRequest.slot <$> outstanding (update l m))).
Proof.
  intros Hg Hl.
  assert (truthy_at (tilesLoaded m) (slotIndex x y) = false) as Hf.
  { destruct (truthy_at (tilesLoaded m) (slotIndex x y)) eqn:E; [|done].
    exfalso. apply Hl. by apply loadState_Loaded. }
  pose proof (pendingQueue_covers l m x y Hg Hf) as Hc.
  split; [apply distBoxX_range; [apply centerXOf_range|apply Hg]|].
  split; [apply closeToView_grid; apply Hg|]. split; [exact Hc|].
  intros Hd. by apply missing_slot_outstanding.
Qed.

Lemma scan_enqueues_every_missing_slot_witness :
  (distBoxX (centerXOf (-180)) 4 <= inject_Z numTilesX / 2)%Q /\
  (4, 7) ∈ (TileRequest.slot <$> outstanding (update (-180) (new_TileManager MAP))).
Proof.
  destruct (scan_enqueues_every_missing_slot (-180) (new_TileManager MAP) 4 7)
    as (H1 & _ & _ & H4).
  - vm_compute. repeat split; discriminate.
  - vm_compute. discriminate.
  - split; [exact H1|]. apply H4. reflexivity.
Defined.

(** ** The viewpoint *)

(** X13.  Round trip between [tileToGeo] and [update]: the longitude
    [tileToGeo] gives for the centre of column [x] of the target grid is a
    rational, and for that viewpoint [update] computes the centre column
    [x + 1/2]. *)
Theorem centerX_of_tile_longitude x y :
  0 <= x < numTilesX ->
  exists q : Q,
    Q2R q = lon (tileToGeo x y targetZoom) /\
    (centerXOf q == inject_Z x + (1 # 2))%Q.
Proof.
  intros Hx. exists ((inject_Z x + (1 # 2)) / 8 * 360 - 180)%Q. split.
  - unfold tileToGeo. simpl lon.
    rewrite Q2R_minus, Q2R_mult, Q2R_div, Q2R_plus by discriminate.
    assert (Q2R (inject_Z x) = IZR x) as ->.
    { unfold Q2R. simpl. lra. }
    replace (Q2R (1 # 2)) with 0.5%R by (unfold Q2R; simpl; lra).
    replace (Q2R 8) with 8%R by (unfold Q2R; simpl; lra).
    replace (Q2R 360) with 360%R by (unfold Q2R; simpl; lra).
    replace (Q2R 180) with 180%R by (unfold Q2R; simpl; lra).
    lra.
  - unfold centerXOf. cbv zeta. rewrite numTilesX_eq in *.
    apply inject_Z_range in Hx. change (inject_Z 8) with 8%Q in *.
    assert (((inject_Z x + (1 # 2)) / 8 * 360 - 180 + 180) / 360
            == (inject_Z x + (1 # 2)) * (1 # 8))%Q as E by (field; discriminate).
    assert (Qfloor (((inject_Z x + (1 # 2)) / 8 * 360 - 180 + 180) / 360) = 0) as ->.
    { revert E.
      generalize (((inject_Z x + (1 # 2)) / 8 * 360 - 180 + 180) / 360)%Q.
      intros a E. apply Qfloor_unique.
      - change (inject_Z 0) with 0%Q. qlra.
      - change (inject_Z (0 + 1)) with 1%Q. qlra. }
    change (inject_Z 0) with 0%Q. revert E.
    generalize (((inject_Z x + (1 # 2)) / 8 * 360 - 180 + 180) / 360)%Q.
    intros a E. qlra.
Qed.

Lemma centerX_of_tile_longitude_witness :
  exists q : Q,
    Q2R q = lon (tileToGeo 5 0 targetZoom) /\
    (centerXOf q == inject_Z 5 + (1 # 2))%Q.
Proof. apply centerX_of_tile_longitude. vm_compute. split; [discriminate|reflexivity]. Defined.

(** ** Progress *)

Lemma loadedCount_le a : (loadedCount a <= length a)%nat.
Proof.
  unfold loadedCount. induction a as [|b a IH]; simpl; [done|].
  destruct b; simpl; lia.
Qed.

Lemma loadedCount_full a :
  loadedCount a = length a <-> Forall (fun b => b = true) a.
Proof.
  unfold loadedCount. induction a as [|b a IH]; simpl.
  - split; [constructor|done].
  - pose proof (loadedCount_le a) as Hle. unfold loadedCount in Hle.
    destruct b; simpl.
    + split.
      * intros H. constructor; [done|]. apply IH. lia.
      * intros H. apply Forall_cons in H as [_ H]. apply IH in H. lia.
    + split; [lia|]. intros H. by apply Forall_cons in H as [H _].
Qed.

Lemma getProgress_formula m :
  wf m -> getProgress m = Z.of_nat (loadedCount (tilesLoaded m)) * 100 / 64.
Proof.
  intros Hwf. unfold getProgress. fold (loadedCount (tilesLoaded m)).
  rewrite (wf_length m Hwf).
  generalize (Z.of_nat (loadedCount (tilesLoaded m))). intros c.
  unfold Qfloor, Qdiv, Qmult, Qinv, inject_Z. simpl.
  f_equal. lia.
Qed.

Lemma all_loaded_iff m :
  wf m ->
  (forall x y, inGrid (x, y) -> loadState m x y = Loaded) <->
  loadedCount (tilesLoaded m) = length (tilesLoaded m).
Proof.
  intros Hwf. pose proof (wf_length m Hwf) as Hlen.
  rewrite loadedCount_full, Forall_lookup. split.
  - intros H i b Hi.
    pose proof (lookup_lt_Some _ _ _ Hi) as Hlt. rewrite Hlen in Hlt.
    rewrite numTilesX_eq in Hlt.
    assert (inGrid (Z.of_nat i mod 8, Z.of_nat i / 8)) as Hg.
    { unfold inGrid. simpl. rewrite numTilesX_eq.
      pose proof (Z.mod_pos_bound (Z.of_nat i) 8).
      pose proof (Z.div_mod (Z.of_nat i) 8).
      assert (0 <= Z.of_nat i / 8) by (apply Z.div_pos; lia).
      lia. }
    specialize (H _ _ Hg). apply loadState_Loaded in H.
    unfold truthy_at, slotIndex in H. rewrite numTilesX_eq in H.
    replace (Z.of_nat i / 8 * 8 + Z.of_nat i mod 8) with (Z.of_nat i) in H
      by (pose proof (Z.div_mod (Z.of_nat i) 8); lia).
    destruct (decide (0 <= Z.of_nat i)); [|lia].
    rewrite Nat2Z.id, Hi in H. done.
  - intros H x y Hg. apply loadState_Loaded.
    pose proof (slotIndex_range x y Hg) as Hr. unfold truthy_at.
    destruct (decide (0 <= slotIndex x y)); [|lia].
    destruct (tilesLoaded m !! Z.to_nat (slotIndex x y)) as [b|] eqn:E.
    + by rewrite (H _ _ E).
    + apply lookup_ge_None in E. lia.
Qed.

Lemma all_loaded_progress m :
  wf m -> (forall x y, inGrid (x, y) -> loadState m x y = Loaded) ->
  getProgress m = 100.
Proof.
  intros Hwf Hall. apply (all_loaded_iff m Hwf) in Hall.
  rewrite (getProgress_formula m Hwf), Hall, (wf_length m Hwf). reflexivity.
Qed.

(** X14.  [getProgress] is a percentage: in every reachable state it lies
    between 0 and 100, it is the integer part of 100 times the loaded share
    of the 64 slots, and it is 100 exactly when every slot of the grid is
    [Loaded]. *)
Theorem getProgress_range m :
  reachable m ->
  0 <= getProgress m <= 100 /\
  getProgress m = Z.of_nat (loadedCount (tilesLoaded m)) * 100 / 64 /\
  (getProgress m = 100 <->
   forall x y, inGrid (x, y) -> loadState m x y = Loaded).
Proof.
  intros Hr. pose proof (wf_reachable m Hr) as Hwf.
  pose proof (loadedCount_le (tilesLoaded m)) as Hle.
  pose proof (wf_length m Hwf) as Hlen. rewrite Hlen in Hle.
  rewrite numTilesX_eq in Hle. simpl in Hle.
  rewrite (all_loaded_iff m Hwf), Hlen, numTilesX_eq.
  rewrite (getProgress_formula m Hwf).
  generalize dependent (loadedCount (tilesLoaded m)). intros c Hc.
  pose proof (Z.div_mod (Z.of_nat c * 100) 64).
  pose proof (Z.mod_pos_bound (Z.of_nat c * 100) 64).
  simpl Z.to_nat. repeat split; lia.
Qed.

Lemma getProgress_range_witness :
  getProgress (stateAfter [Update 0; Settle 0 (Resolved 1%nat);
                           Settle 0 (Resolved 2%nat); Settle 1 Rejected]) = 3 /\
  0 <= getProgress (stateAfter [Update 0; Settle 0 (Resolved 1%nat);
                                Settle 0 (Resolved 2%nat); Settle 1 Rejected]) <= 100.
Proof.
  split; [vm_compute; reflexivity|].
  apply getProgress_range.
  exists SAT, [Update 0; Settle 0 (Resolved 1%nat); Settle 0 (Resolved 2%nat);
               Settle 1 Rejected].
  vm_compute. reflexivity.
Defined.

(** ** When every fetch succeeds the grid is completed *)

Lemma covered_update l m :
  isDestroyed m = false -> covered (update l m).
Proof.
  intros Hd. destruct (update_dispatch l m Hd)
    as (now & _ & _ & _ & _ & El & _ & _ & Hd' & _).
  split; [done|]. intros x y Hg Hf. rewrite El in Hf.
  by apply missing_slot_outstanding.
Qed.

Lemma settle_outstanding i o m m' task :
  inflight m !! i = Some task -> settle i o m = Some m' ->
  outstanding m ≡ₚ task :: outstanding m'.
Proof.
  intros Ei Hs.
  destruct (settle_effect _ _ _ _ Hs) as (task' & now & Ei' & Eq & Ef & _).
  rewrite Ei in Ei'. inversion Ei'; subst task'. unfold outstanding.
  rewrite Ef. rewrite (delete_Permutation _ _ _ Ei) at 1. rewrite Eq at 1.
  rewrite <- Permutation_middle. constructor.
  rewrite (Permutation_app_comm now), <- app_assoc.
  apply Permutation_app_head, Permutation_app_comm.
Qed.

Lemma covered_settle_resolved i img m m' :
  reachable m -> covered m -> settle i (Resolved img) m = Some m' ->
  covered m' /\ S (length (outstanding m')) = length (outstanding m).
Proof.
  intros Hr [Hd Hc] Hs. pose proof (wf_reachable m Hr) as Hwf.
  destruct (settle_effect _ _ _ _ Hs)
    as (task & now & Ei & _ & _ & _ & _ & Ed & _ & _ & _ & Ho).
  rewrite Hd in Ho, Ed. destruct Ho as (_ & El & _).
  pose proof (settle_outstanding i _ m m' task Ei Hs) as Hp.
  split; [|by rewrite Hp].
  split; [done|]. intros x y Hg Hf. rewrite El in Hf.
  pose proof (inflight_task_inGrid m i task Hwf Ei) as Hgt.
  pose proof (slotIndex_range _ _ Hgt) as Hrange.
  pose proof (wf_length m Hwf) as Hlen.
  destruct (decide (slotIndex (TileRequest.x task) (TileRequest.y task)
                    = slotIndex x y)) as [Heq|Hne].
  - rewrite Heq in Hf, Hrange.
    rewrite truthy_at_array_set_same in Hf; [done|lia|lia].
  - rewrite truthy_at_array_set_ne in Hf; [|lia|lia|done].
    specialize (Hc x y Hg Hf). rewrite Hp in Hc. simpl in Hc.
    apply elem_of_cons in Hc as [Hc|Hc]; [|done].
    exfalso. apply Hne. unfold TileRequest.slot in Hc. by inversion Hc.
Qed.

Lemma covered_none_outstanding m :
  reachable m -> covered m -> outstanding m = [] ->
  queue m = [] /\ inflight m = [] /\ getProgress m = 100 /\
  forall x y, inGrid (x, y) -> loadState m x y = Loaded.
Proof.
  intros Hr [Hd Hc] Ho.
  assert (forall x y, inGrid (x, y) -> loadState m x y = Loaded) as Hall.
  { intros x y Hg. apply loadState_Loaded.
    destruct (truthy_at (tilesLoaded m) (slotIndex x y)) eqn:E; [done|].
    specialize (Hc x y Hg E). rewrite Ho in Hc. by apply elem_of_nil in Hc. }
  unfold outstanding in Ho. apply app_eq_nil in Ho as [-> ->].
  repeat split; auto. apply all_loaded_progress; [by apply wf_reachable|done].
Qed.

Lemma all_resolved_complete es : forall m m',
  reachable m -> covered m ->
  forallb isResolvedSettle es = true ->
  length es = length (outstanding m) ->
  run es m = Some m' ->
  queue m' = [] /\ inflight m' = [] /\ getProgress m' = 100 /\
  forall x y, inGrid (x, y) -> loadState m' x y = Loaded.
Proof.
  induction es as [|e es IH]; intros m m' Hr Hc Hall Hlen; simpl.
  - intros E. inversion E; subst. apply covered_none_outstanding; auto.
    by destruct (outstanding m').
  - simpl in Hall. apply andb_true_iff in Hall as [He Hes].
    destruct e as [| i [img|] | | |]; try done. simpl.
    destruct (settle i (Resolved img) m) as [m1|] eqn:E1; [|done].
    destruct (covered_settle_resolved i img m m1 Hr Hc E1) as [Hc1 Hl1].
    apply IH; auto.
    + by apply (reachable_step (Settle i (Resolved img)) m).
    + simpl in Hlen. lia.
Qed.

Lemma first_fetch_exists m :
  reachable m -> outstanding m <> [] -> is_Some (inflight m !! 0%nat).
Proof.
  intros Hr Ho. destruct (window_full_inv m Hr) as [_ [Hq|Hw]].
  - unfold outstanding in Ho. rewrite Hq in Ho. simpl in Ho.
    destruct (inflight m); [done|by eexists].
  - pose proof (wf_active m (wf_reachable m Hr)) as Ha.
    destruct (inflight m); [|by eexists].
    simpl in Ha. unfold MAX_CONCURRENT_REQUESTS in Hw. lia.
Qed.

Lemma resolve_all_runs img n : forall m,
  reachable m -> covered m -> n = length (outstanding m) ->
  is_Some (run (replicate n (Settle 0 (Resolved img))) m).
Proof.
  induction n as [|n IH]; intros m Hr Hc Hn; simpl; [by eexists|].
  destruct (first_fetch_exists m Hr) as [task Ei].
  { intros E. rewrite E in Hn. done. }
  destruct (settle 0 (Resolved img) m) as [m1|] eqn:Hs.
  - destruct (covered_settle_resolved 0 img m m1 Hr Hc Hs) as [Hc1 Hl1].
    apply IH; auto.
    + by apply (reachable_step (Settle 0 (Resolved img)) m).
    + lia.
  - unfold settle in Hs. by rewrite Ei in Hs.
Qed.

(** X15.  Completion.  After a call of [update] on a live manager, if every
    fetch succeeds then the grid is completed: any execution that consists of
    as many successful completions as there are requests queued or in flight
    ends with the queue empty, nothing in flight, every slot [Loaded] and
    [getProgress] at 100; and such an execution exists, the dispatcher
    starting the next request at each completion without a further
    [update]. *)
Theorem all_fetches_succeed_completes l m :
  reachable m -> isDestroyed m = false ->
  (forall es m',
     forallb isResolvedSettle es = true ->
     length es = length (outstanding (update l m)) ->
     run es (update l m) = Some m' ->
     queue m' = [] /\ inflight m' = [] /\ getProgress m' = 100 /\
     forall x y, inGrid (x, y) -> loadState m' x y = Loaded) /\
  (forall img,
     exists m',
       run (replicate (length (outstanding (update l m))) (Settle 0 (Resolved img)))
         (update l m) = Some m' /\
       queue m' = [] /\ inflight m' = [] /\ getProgress m' = 100).
Proof.
  intros Hr Hd.
  assert (reachable (update l m)) as Hr1
    by (by apply (reachable_step (Update l) m)).
  pose proof (covered_update l m Hd) as Hc.
  split.
  - intros es m' Hall Hlen E. by apply (all_resolved_complete es (update l m)).
  - intros img.
    destruct (resolve_all_runs img _ (update l m) Hr1 Hc eq_refl) as [m' E].
    exists m'. split; [exact E|].
    assert (forall n, forallb isResolvedSettle
                        (replicate n (Settle 0 (Resolved img))) = true) as Hall
      by (induction n; simpl; auto).
    destruct (all_resolved_complete _ (update l m) m' Hr1 Hc (Hall _)
                (length_replicate _ _) E) as (H1 & H2 & H3 & _).
    done.
Qed.

Lemma all_fetches_succeed_completes_witness :
  length (outstanding (update 37 (new_TileManager SAT))) = 64%nat /\
  exists m',
    run (replicate (length (outstanding (update 37 (new_TileManager SAT))))
           (Settle 0 (Resolved 5%nat)))
      (update 37 (new_TileManager SAT)) = Some m' /\
    queue m' = [] /\ inflight m' = [] /\ getProgress m' = 100.
Proof.
  split; [vm_compute; reflexivity|].
  apply (proj2 (all_fetches_succeed_completes 37 (new_TileManager SAT)
                  (reachable_new SAT) eq_refl)).
Defined.

(** ** The longitudes of a row *)

(** X16.  Up to zoom 46 the longitude [tileToGeo] computes in doubles orders
    the tiles as the map does: it grows strictly with the column, whatever
    the rows, so two tiles get the same longitude only if they are in the
    same column, and the centres of neighbouring columns are exactly
    [360 / 2^z] degrees apart.  At zoom 53 this is lost: two neighbouring
    columns get the same longitude. *)
Theorem longitude_increasing Math_sinh Math_atan z x1 y1 x2 y2 :
  0 <= z <= 46 -> 0 <= x1 < 2 ^ z -> 0 <= x2 < 2 ^ z ->
  (x1 < x2 ->
   (Float64.lon (Float64.tileToGeo Math_sinh Math_atan x1 y1 z)
    < Float64.lon (Float64.tileToGeo Math_sinh Math_atan x2 y2 z))%Q) /\
  ((Float64.lon (Float64.tileToGeo Math_sinh Math_atan x1 y1 z)
    == Float64.lon (Float64.tileToGeo Math_sinh Math_atan x2 y2 z))%Q ->
   x1 = x2) /\
  (x2 = x1 + 1 ->
   (Float64.lon (Float64.tileToGeo Math_sinh Math_atan x2 y2 z)
    - Float64.lon (Float64.tileToGeo Math_sinh Math_atan x1 y1 z)
    == 360 / 2 ^ z)%Q) /\
  (Float64.lon (Float64.tileToGeo Math_sinh Math_atan (2 ^ 53 - 3) y1 53)
   == Float64.lon (Float64.tileToGeo Math_sinh Math_atan (2 ^ 53 - 2) y2 53))%Q.
Proof.
  intros Hz H1 H2. cbn [Float64.tileToGeo Float64.lon].
  split; [|split; [|split]].
  - intros Hlt. apply Float64Facts.centerLonDeg_increasing; lia.
  - intros E. destruct (Z.lt_trichotomy x1 x2) as [H|[H|H]]; [|done|].
    + pose proof (Float64Facts.centerLonDeg_increasing z x1 x2 Hz
                    ltac:(lia) H ltac:(lia)) as Hlt.
      rewrite E in Hlt. by apply Qlt_irrefl in Hlt.
    + pose proof (Float64Facts.centerLonDeg_increasing z x2 x1 Hz
                    ltac:(lia) H ltac:(lia)) as Hlt.
      rewrite E in Hlt. by apply Qlt_irrefl in Hlt.
  - intros ->. apply Float64Facts.centerLonDeg_step; lia.
  - apply Float64Facts.centerLonDeg_zoom53_equal.
Qed.

Lemma longitude_increasing_witness :
  (Float64.lon (Float64.tileToGeo (fun d => d) (fun d => d) 2 7 3)
   < Float64.lon (Float64.tileToGeo (fun d => d) (fun d => d) 3 0 3))%Q /\
  (Float64.lon (Float64.tileToGeo (fun d => d) (fun d => d) 3 0 3)
   - Float64.lon (Float64.tileToGeo (fun d => d) (fun d => d) 2 7 3)
   == 360 / 2 ^ 3)%Q.
Proof.
  assert (0 <= 3 <= 46) as Hz by lia.
  assert (0 <= 2 < 2 ^ 3) as H1 by (simpl; lia).
  assert (0 <= 3 < 2 ^ 3) as H2 by (simpl; lia).
  destruct (longitude_increasing (fun d => d) (fun d => d) 3 2 7 3 0 Hz H1 H2)
    as (Ha & _ & Hb & _).
  split; [apply Ha; lia|apply Hb; lia].
Defined.

(** X17.  Up to zoom 46 the longitudes are symmetric about the prime
    meridian: the column mirrored in the row gets the negated longitude.  At
    zoom 53 this is lost: the last column gets 180 and the first one
    [-(180 - 2^-45)]. *)
Theorem longitude_symmetric Math_sinh Math_atan x y z :
  0 <= z <= 46 -> 0 <= x < 2 ^ z ->
  (Float64.lon (Float64.tileToGeo Math_sinh Math_atan (2 ^ z - 1 - x) y z)
   == - Float64.lon (Float64.tileToGeo Math_sinh Math_atan x y z))%Q /\
  (Float64.lon (Float64.tileToGeo Math_sinh Math_atan (2 ^ 53 - 1) y 53) == 180)%Q /\
  (- Float64.lon (Float64.tileToGeo Math_sinh Math_atan 0 y 53)
   == 180 - 2 ^ (-45))%Q.
Proof.
  intros Hz Hx. cbn [Float64.tileToGeo Float64.lon].
  split; [by apply Float64Facts.centerLonDeg_mirror|].
  apply Float64Facts.centerLonDeg_zoom53_mirror.
Qed.

Lemma longitude_symmetric_witness :
  (Float64.lon (Float64.tileToGeo (fun d => d) (fun d => d) (2 ^ 3 - 1 - 1) 2 3)
   == - Float64.lon (Float64.tileToGeo (fun d => d) (fun d => d) 1 2 3))%Q.
Proof.
  assert (0 <= 3 <= 46) as Hz by lia.
  assert (0 <= 1 < 2 ^ 3) as Hx by (simpl; lia).
  exact (proj1 (longitude_symmetric (fun d => d) (fun d => d) 1 2 3 Hz Hx)).
Defined.

(** X18.  A tile and its children at the next zoom, up to zoom 46: the
    longitude of the centre of a tile is the mean of the longitudes of its two
    child columns.  This is the relation between a tile of the base layer and
    the target tiles drawn over it.  It is lost between the zooms 52 and 53:
    the last tile of zoom 52 gets [180 - 2^-44] and the mean of its children
    is [180 - 2^-45]. *)
Theorem longitude_children Math_sinh Math_atan x y y1 y2 z :
  0 <= z < 46 -> 0 <= x < 2 ^ z ->
  (Float64.lon (Float64.tileToGeo Math_sinh Math_atan x y z)
   == (Float64.lon (Float64.tileToGeo Math_sinh Math_atan (2 * x) y1 (z + 1))
       + Float64.lon (Float64.tileToGeo Math_sinh Math_atan (2 * x + 1) y2 (z + 1)))
      / 2)%Q /\
  (Float64.lon (Float64.tileToGeo Math_sinh Math_atan (2 ^ 52 - 1) y 52)
   == 180 - 2 ^ (-44))%Q /\
  ((Float64.lon (Float64.tileToGeo Math_sinh Math_atan (2 ^ 53 - 2) y1 53)
    + Float64.lon (Float64.tileToGeo Math_sinh Math_atan (2 ^ 53 - 1) y2 53)) / 2
   == 180 - 2 ^ (-45))%Q.
Proof.
  intros Hz Hx. cbn [Float64.tileToGeo Float64.lon].
  split; [by apply Float64Facts.centerLonDeg_children|].
  apply Float64Facts.centerLonDeg_zoom52_children.
Qed.

Lemma longitude_children_witness :
  (Float64.lon (Float64.tileToGeo (fun d => d) (fun d => d) 1 2 baseZoom)
   == (Float64.lon (Float64.tileToGeo (fun d => d) (fun d => d) (2 * 1) 4 (baseZoom + 1))
       + Float64.lon (Float64.tileToGeo (fun d => d) (fun d => d) (2 * 1 + 1) 5 (baseZoom + 1)))
      / 2)%Q.
Proof.
  assert (0 <= baseZoom < 46) as Hz by (unfold baseZoom; lia).
  assert (0 <= 1 < 2 ^ baseZoom) as Hx by (unfold baseZoom; simpl; lia).
  exact (proj1 (longitude_children (fun d => d) (fun d => d) 1 2 4 5 baseZoom Hz Hx)).
Defined.

(** ** The base layer covers the canvas once *)

(** X20.  [loadBaseLayer] starts exactly one fetch for each of the 16 tiles
    of the base grid, and the rectangles these tiles are drawn into cover the
    canvas without overlap: a pixel of the canvas is painted by the draw of
    base tile [(x, y)] exactly when [x] and [y] are its coordinates divided
    by 512. *)
Theorem base_layer_covers_canvas m :
  exists ps,
    baseInflight (loadBaseLayer m) = baseInflight m ++ ps /\
    length ps = 16%nat /\ NoDup ps /\
    (forall s, s ∈ ps <-> inBaseGrid s) /\
    (forall px py, 0 <= px < canvasSize -> 0 <= py < canvasSize ->
       (px / baseDrawSize, py / baseDrawSize) ∈ ps /\
       forall x y img,
         paints (baseDraw x y img) px py = true <->
         x = px / baseDrawSize /\ y = py / baseDrawSize).
Proof.
  exists (x ← counter (2 ^ baseZoom); y ← counter (2 ^ baseZoom); [(x, y)]).
  assert (forall s, s ∈ (x ← counter (2 ^ baseZoom); y ← counter (2 ^ baseZoom); [(x, y)])
                    <-> inBaseGrid s) as Hin.
  { intros [x y]. split.
    - intros H. pose proof base_promises_inBaseGrid as Hf.
      rewrite Forall_forall in Hf. by apply Hf.
    - intros [Hx Hy]. simpl in Hx, Hy. apply list_elem_of_bind.
      exists x. split; [|by apply elem_of_counter].
      apply list_elem_of_bind. exists y. split; [|by apply elem_of_counter].
      by apply list_elem_of_singleton. }
  split; [apply loadBaseLayer_promises|]. split; [reflexivity|].
  split; [vm_compute; repeat constructor; intros H; apply list_elem_of_In in H;
          simpl in H; intuition discriminate|].
  split; [exact Hin|].
  intros px py Hx Hy. unfold canvasSize in *. rewrite numTilesX_eq in *.
  unfold baseDrawSize, TILE_SIZE in *.
  change (2 ^ (targetZoom - baseZoom)) with 2 in *. change (256 * 2) with 512 in *.
  change (8 * 256) with 2048 in *.
  pose proof (Z.div_mod px 512). pose proof (Z.mod_pos_bound px 512).
  pose proof (Z.div_mod py 512). pose proof (Z.mod_pos_bound py 512).
  split.
  - apply Hin. unfold inBaseGrid. simpl. change (2 ^ baseZoom) with 4. lia.
  - intros x y img. unfold baseDraw, paints. rewrite inRect_spec.
    unfold baseDrawSize, TILE_SIZE.
    change (2 ^ (targetZoom - baseZoom)) with 2. change (256 * 2) with 512.
    split; [intros [Hpx Hpy]|intros [-> ->]]; [split|]; nia.
Qed.

(** ** Counting *)

Lemma loadedCount_insert_exact a n :
  loadedCount (<[n := true]> a) =
  (loadedCount a + match a !! n with Some false => 1 | _ => 0 end)%nat.
Proof.
  unfold loadedCount. revert n. induction a as [|b a IH]; intros n; [done|].
  destruct n as [|n]; simpl.
  - destruct b; simpl; lia.
  - specialize (IH n). destruct b; simpl; rewrite IH; lia.
Qed.

(** X21.  A tile that resolves on a live manager is counted once: the number
    of loaded slots grows by one if the slot was not loaded, and stays the
    same if it was, as happens when a slot has been fetched twice; the image
    is drawn and announced in both cases. *)
Theorem resolved_tile_counted_once m i img m' task :
  reachable m -> isDestroyed m = false -> inflight m !! i = Some task ->
  settle i (Resolved img) m = Some m' ->
  loadState m' (TileRequest.x task) (TileRequest.y task) = Loaded /\
  loadedCount (tilesLoaded m') =
    (loadedCount (tilesLoaded m) +
     match loadState m (TileRequest.x task) (TileRequest.y task) with
     | Loaded => 0
     | _ => 1
     end)%nat /\
  canvas m' = canvas m ++ [tileDraw (TileRequest.x task) (TileRequest.y task) img] /\
  textureUpdates m' = S (textureUpdates m).
Proof.
  intros Hr Hd Ei Hs. pose proof (wf_reachable m Hr) as Hwf.
  destruct (settle_effect _ _ _ _ Hs)
    as (task' & now & Ei' & _ & _ & _ & _ & _ & _ & _ & _ & Ho).
  rewrite Ei in Ei'. inversion Ei'; subst task'. rewrite Hd in Ho.
  destruct Ho as (Ec & El & Et).
  pose proof (inflight_task_inGrid m i task Hwf Ei) as Hg.
  pose proof (slotIndex_range _ _ Hg) as Hrange.
  pose proof (wf_length m Hwf) as Hlen.
  split; [|split; [|done]].
  - apply loadState_Loaded. rewrite El. apply truthy_at_array_set_same; lia.
  - rewrite El. unfold array_set, loadState, truthy_at.
    set (idx := slotIndex (TileRequest.x task) (TileRequest.y task)) in *.
    destruct (decide (0 <= idx)); [|lia].
    destruct (decide (Z.to_nat idx < length (tilesLoaded m))%nat); [|lia].
    rewrite loadedCount_insert_exact.
    destruct (tilesLoaded m !! Z.to_nat idx) as [[|]|] eqn:E; simpl; [done| |].
    + by destruct (pendingFor _ _ _).
    + apply lookup_ge_None in E. lia.
Qed.

Lemma resolved_tile_counted_once_witness :
  loadedCount (tilesLoaded (stateAfter [Update (-180); Update (-180);
                                        Settle 0 (Resolved 1%nat)])) = 1%nat /\
  inflight (stateAfter [Update (-180); Update (-180); Settle 0 (Resolved 1%nat)])
    !! 3%nat = Some (requestFor SAT (centerXOf (-180)) 0 4) /\
  loadedCount (tilesLoaded (stateAfter [Update (-180); Update (-180);
                                        Settle 0 (Resolved 1%nat);
                                        Settle 3 (Resolved 2%nat)])) = 1%nat /\
  textureUpdates (stateAfter [Update (-180); Update (-180);
                              Settle 0 (Resolved 1%nat);
                              Settle 3 (Resolved 2%nat)]) = 2%nat.
Proof.
  split; [vm_compute; reflexivity|].
  assert (inflight (stateAfter [Update (-180); Update (-180); Settle 0 (Resolved 1%nat)])
            !! 3%nat = Some (requestFor SAT (centerXOf (-180)) 0 4)) as Ei
    by (vm_compute; reflexivity).
  split; [exact Ei|].
  destruct (resolved_tile_counted_once
              (stateAfter [Update (-180); Update (-180); Settle 0 (Resolved 1%nat)])
              3%nat 2%nat
              (stateAfter [Update (-180); Update (-180); Settle 0 (Resolved 1%nat);
                           Settle 3 (Resolved 2%nat)])
              (requestFor SAT (centerXOf (-180)) 0 4))
    as (_ & H2 & _ & H4).
  - exists SAT, [Update (-180); Update (-180); Settle 0 (Resolved 1%nat)].
    vm_compute. reflexivity.
  - vm_compute. reflexivity.
  - exact Ei.
  - vm_compute. reflexivity.
  - split.
    + rewrite H2. vm_compute. reflexivity.
    + rewrite H4. vm_compute. reflexivity.
Defined.

(** X22.  Every failed fetch is logged and nothing else is: the number of
    warnings is the number of completions, of tiles or of base tiles, that
    were rejected, also after [destroy]. *)
Theorem one_warning_per_failure es : forall m m',
  run es m = Some m' ->
  length (warnings m') =
  (length (warnings m) + length (List.filter isRejection es))%nat.
Proof.
  induction es as [|e es IH]; intros m m'; simpl.
  - intros E. inversion E; subst. lia.
  - destruct (step e m) as [m1|] eqn:E1; [|done]. intros E.
    rewrite (IH m1 m' E).
    assert (length (warnings m1) =
            (length (warnings m) + if isRejection e then 1 else 0)%nat) as ->.
    { destruct e; simpl in E1.
      - inversion E1; subst.
        by destruct (update_effect currentLonDeg m) as (now & _ & _ & _ & _ & -> & _).
      - destruct (settle_effect _ _ _ _ E1)
          as (task & now & _ & _ & _ & _ & _ & _ & _ & _ & Ho).
        destruct o as [img|]; simpl.
        + destruct Ho as [-> _]. lia.
        + destruct Ho as [-> _]. rewrite length_app. simpl. lia.
      - inversion E1; subst. simpl. lia.
      - inversion E1; subst. simpl. lia.
      - destruct (settleBase_effect _ _ _ _ E1)
          as (x & y & _ & _ & _ & _ & _ & _ & _ & _ & Ho).
        destruct o as [img|]; simpl.
        + destruct Ho as [-> _]. lia.
        + destruct Ho as [-> _]. rewrite length_app. simpl. lia. }
    destruct (isRejection e); simpl; lia.
Qed.

Lemma one_warning_per_failure_witness :
  exists m',
    run [LoadBaseLayer; Update 0; Settle 0 Rejected; SettleBase 3 Rejected;
         Settle 0 (Resolved 1%nat); Destroy; Settle 0 Rejected]
      (new_TileManager SAT) = Some m' /\
    length (warnings m') = 3%nat.
Proof.
  eexists. split; [vm_compute; reflexivity|].
  match goal with |- length (warnings ?b) = _ =>
    rewrite (one_warning_per_failure
               [LoadBaseLayer; Update 0; Settle 0 Rejected; SettleBase 3 Rejected;
                Settle 0 (Resolved 1%nat); Destroy; Settle 0 Rejected]
               (new_TileManager SAT) b)
  end.
  - reflexivity.
  - vm_compute. reflexivity.
Defined.

(** ** Requests and their slots *)

Lemma mapType_inv type es : forall m m',
  mapType m = type -> run es m = Some m' -> mapType m' = type.
Proof.
  induction es as [|e es IH]; intros m m' Hm; simpl.
  - intros E. by inversion E; subst.
  - destruct (step e m) as [m1|] eqn:E1; [|done].
    apply IH. rewrite <- Hm. clear IH Hm. destruct e; simpl in E1.
    + inversion E1; subst. destruct (isDestroyed m) eqn:Hd.
      * by rewrite update_destroyed.
      * by destruct (update_dispatch currentLonDeg m Hd)
          as (now & _ & _ & _ & _ & _ & _ & _ & _ & ->).
    + by destruct (settle_effect _ _ _ _ E1)
        as (task & now & _ & _ & _ & _ & _ & _ & _ & -> & _).
    + by inversion E1; subst.
    + by inversion E1; subst.
    + by destruct (settleBase_effect _ _ _ _ E1)
        as (x & y & _ & _ & _ & _ & _ & _ & _ & -> & _).
Qed.

(** X23.  Every request asks for the image of its own slot: in any state
    reached from a new manager of a given layer, a request that is queued or
    in flight carries the URL built for its slot at the target zoom, in that
    layer and with the padded size, and the coordinate in the URL is the
    centre [tileToGeo] gives for the slot. *)
Theorem request_url_matches_slot type es m r :
  run es (new_TileManager type) = Some m ->
  r ∈ outstanding m ->
  inGrid (TileRequest.slot r) /\
  TileRequest.url r = getYandexStaticUrl (TileRequest.slot r) targetZoom type /\
  url_size (TileRequest.url r) = (REQUEST_SIZE, REQUEST_SIZE) /\
  url_ll (TileRequest.url r) =
    tileToGeo (TileRequest.x r) (TileRequest.y r) targetZoom.
Proof.
  intros E Hin.
  assert (reachable m) as Hr by (by exists type, es).
  pose proof (wf_reachable m Hr) as Hwf.
  destruct (provenance_reachable m Hr) as [Hq Hf].
  rewrite (mapType_inv type es (new_TileManager type) m eq_refl E) in Hq, Hf.
  rewrite Forall_forall in Hq, Hf.
  pose proof (wf_queue_grid m Hwf) as Gq. pose proof (wf_inflight_grid m Hwf) as Gf.
  rewrite Forall_forall in Gq, Gf.
  unfold outstanding in Hin. apply elem_of_app in Hin.
  assert (madeBy type r /\ inGrid (TileRequest.slot r)) as [(l0 & Hreq & _) Hg].
  { destruct Hin as [H|H]; split; auto. }
  split; [done|]. rewrite Hreq. simpl. done.
Qed.

Lemma request_url_matches_slot_witness :
  exists m r,
    run [Update 77; Settle 0 Rejected; Update 78] (new_TileManager MAP) = Some m /\
    queue m !! 5%nat = Some r /\
    TileRequest.url r = getYandexStaticUrl (TileRequest.slot r) targetZoom MAP.
Proof.
  eexists. eexists.
  split; [vm_compute; reflexivity|].
  split; [vm_compute; reflexivity|].
  match goal with |- TileRequest.url ?t = _ =>
    refine (proj1 (proj2 (request_url_matches_slot MAP
              [Update 77; Settle 0 Rejected; Update 78] _ t _ _)))
  end.
  - vm_compute. reflexivity.
  - apply list_elem_of_In. vm_compute. do 5 right. left. reflexivity.
Defined.

(** ** The steady state *)

Lemma nothing_missing_scan type loaded c q :
  (forall x y, inGrid (x, y) -> truthy_at loaded (slotIndex x y) = true) ->
  enqueueMissing type loaded c q = q.
Proof.
  intros Hall. rewrite enqueueMissing_scanOrder.
  destruct (scan_spec type loaded c scanOrder q) as (new & -> & Hnew & _).
  destruct new as [|r new]; [by rewrite app_nil_r|].
  apply Forall_cons in Hnew as [(Hin & _ & Hf & _) _].
  apply elem_of_scanOrder in Hin. rewrite (Hall _ _ Hin) in Hf. done.
Qed.

(** X24.  Once the grid is complete the per-frame call is idle: on a live
    manager with every slot [Loaded] and an empty queue, [update] changes
    nothing, whatever the viewpoint; no request is built and no fetch is
    started. *)
Theorem update_idle_when_complete l m :
  (forall x y, inGrid (x, y) -> loadState m x y = Loaded) ->
  queue m = [] ->
  update l m = m.
Proof.
  intros Hall Hq. unfold update. destruct (isDestroyed m) eqn:Hd; [done|].
  rewrite nothing_missing_scan, Hq
    by (intros x y Hg; by apply loadState_Loaded, Hall).
  unfold processQueue, array_sort. simpl. rewrite Hd.
  destruct m. simpl in *. subst. by rewrite app_nil_r.
Qed.

Lemma update_idle_when_complete_witness :
  exists m,
    run (Update 10 :: replicate 64 (Settle 0 (Resolved 3%nat)))
      (new_TileManager SAT) = Some m /\
    getProgress m = 100 /\
    update 123 m = m.
Proof.
  eexists. split; [vm_compute; reflexivity|].
  split; [vm_compute; reflexivity|].
  apply update_idle_when_complete.
  - intros x y [Hx Hy]. simpl in Hx, Hy. rewrite numTilesX_eq in Hx, Hy.
    assert (x = 0 \/ x = 1 \/ x = 2 \/ x = 3 \/ x = 4 \/ x = 5 \/ x = 6 \/ x = 7)
      as Hcx by lia.
    assert (y = 0 \/ y = 1 \/ y = 2 \/ y = 3 \/ y = 4 \/ y = 5 \/ y = 6 \/ y = 7)
      as Hcy by lia.
    clear Hx Hy.
    repeat (destruct Hcx as [->|Hcx]);
      repeat (destruct Hcy as [->|Hcy]); subst; vm_compute; reflexivity.
  - vm_compute. reflexivity.
Defined.

(** ** What the scheduler does keep *)





(** X27.  What a failed fetch changes.  When the promise of a tile fetch is
    rejected, the flags, the canvas and the count of texture updates are
    unchanged and a warning is logged.  The completion creates no request:
    what it starts is a prefix of the queue as it was, and the requests that
    are queued or pending afterwards are those of before less the failed one,
    so the failed slot is started again only if the queue already held an
    entry for it.  If the flag of the slot is still unset afterwards, the next
    [update] on the live manager has an entry for the slot in the queue it
    builds, and after that call the slot is in the queue or in flight. *)
Theorem fetch_failure_requeueable m i task m' :
  reachable m -> inflight m !! i = Some task ->
  settle i Rejected m = Some m' ->
  tilesLoaded m' = tilesLoaded m /\
  canvas m' = canvas m /\
  textureUpdates m' = textureUpdates m /\
  warnings m' = warnings m ++ ["Tile load failed"] /\
  (exists now,
     queue m = now ++ queue m' /\
     inflight m' = delete i (inflight m) ++ now /\
     ((TileRequest.slot task ∉ (TileRequest.slot <$> queue m)) ->
      TileRequest.slot task ∉ (TileRequest.slot <$> now))) /\
  queue m ++ inflight m ≡ₚ task :: (queue m' ++ inflight m') /\
  (forall l,
     isDestroyed m' = false ->
     truthy_at (tilesLoaded m')
       (slotIndex (TileRequest.x task) (TileRequest.y task)) = false ->
     TileRequest.slot task ∈ (TileRequest.slot <$> pendingQueue l m') /\
     (TileRequest.slot task ∈ (TileRequest.slot <$> queue (update l m')) \/
      TileRequest.slot task ∈ (TileRequest.slot <$> inflight (update l m')))).
Proof.
  intros Hr Ei E. pose proof (wf_reachable m Hr) as Hwf.
  assert (inGrid (TileRequest.slot task)) as Hg.
  { pose proof (wf_inflight_grid m Hwf) as Hf. rewrite Forall_forall in Hf.
    apply Hf. by eapply list_elem_of_lookup_2. }
  unfold settle in E. rewrite Ei in E. inversion E; subst; clear E.
  unfold onFinally, onCatch.
  set (m1 := set_activeRequests _ _).
  destruct (processQueue_frame m1) as (El & Ec & Et & Ew & Ed & _).
  split; [by rewrite El|]. split; [by rewrite Ec|]. split; [by rewrite Et|].
  split; [by rewrite Ew|].
  assert (exists now,
            queue m = now ++ queue (processQueue m1) /\
            inflight (processQueue m1) = delete i (inflight m) ++ now)
    as (now & Eq & Ef).
  { destruct (isDestroyed m1) eqn:Hd.
    - rewrite processQueue_destroyed by done. exists []. simpl.
      by rewrite app_nil_r.
    - destruct (processQueue_live m1 Hd) as (now & Eq & Ef & _). by exists now. }
  split; [|split].
  - exists now. repeat split; auto.
    intros Hn Hin. apply Hn. rewrite Eq, fmap_app. apply elem_of_app. by left.
  - rewrite Ef. rewrite (delete_Permutation _ _ _ Ei) at 1. rewrite Eq at 1.
    rewrite <- Permutation_middle. constructor.
    rewrite (Permutation_app_comm now), <- app_assoc.
    apply Permutation_app_head, Permutation_app_comm.
  - intros l Hd Hl.
    assert (TileRequest.slot task ∈
            (TileRequest.slot <$> pendingQueue l (processQueue m1))) as Hp.
    { destruct task as [x y u d]. apply pendingQueue_covers; done. }
    split; [exact Hp|].
    destruct (update_dispatch l (processQueue m1) Hd) as (now' & Eq' & Ef' & _).
    rewrite Eq', fmap_app in Hp. rewrite Ef', fmap_app.
    apply elem_of_app in Hp as [Hp|Hp]; [right|by left].
    apply elem_of_app. by right.
Qed.

Lemma fetch_failure_requeueable_witness :
  exists m task m',
    run [Update 0] (new_TileManager SAT) = Some m /\
    inflight m !! 2%nat = Some task /\
    settle 2 Rejected m = Some m' /\
    TileRequest.slot task = (4, 3) /\
    tilesLoaded m' = tilesLoaded m /\ canvas m' = canvas m /\
    (TileRequest.slot task ∉ (TileRequest.slot <$> inflight m')) /\
    TileRequest.slot task ∈ (TileRequest.slot <$> pendingQueue 1 m').
Proof.
  eexists. eexists. eexists.
  split; [vm_compute; reflexivity|].
  split; [vm_compute; reflexivity|].
  split; [vm_compute; reflexivity|].
  split; [vm_compute; reflexivity|].
  match goal with |- tilesLoaded ?b = tilesLoaded ?a /\ _ =>
    assert (reachable a) as Hr
      by (exists SAT, [Update 0]; vm_compute; reflexivity);
    assert (settle 2 Rejected a = Some b) as E by (vm_compute; reflexivity)
  end.
  match type of E with settle _ _ ?a = Some ?b =>
    match goal with |- _ /\ _ /\ (TileRequest.slot ?t ∉ _) /\ _ =>
      assert (inflight a !! 2%nat = Some t) as Ei by (vm_compute; reflexivity);
      destruct (fetch_failure_requeueable a 2%nat t b Hr Ei E)
        as (H1 & H2 & _ & _ & _ & _ & H6)
    end
  end.
  split; [exact H1|]. split; [exact H2|]. split.
  - intros H. apply list_elem_of_In in H. vm_compute in H.
    repeat (destruct H as [H|H]; [discriminate H|]). exact H.
  - apply (H6 1%Q); vm_compute; reflexivity.
Defined.
